(** * ISO2DFD: 2D isotropic finite-difference wave propagation

    A shallow embedding of [iso2dfd.cpp]: the grid initializer, the
    validator [within_epsilon], the serial driver [iso_2dfd_iteration_cpu],
    the per-work-item kernel [iso_2dfd_iteration_global] with the
    time-step loop that dispatches it, and [main].

    - Machine integers are [Z] with the wrap-around of their C++ type
      written out ([u32], [u64], [s32]).
    - The arrays allocated by [main] live in a [heap]; the functions take
      pointers ([ptr]) into it, as the C++ functions do, so that the
      pointer swap of the serial driver and the role alternation of the
      device loop act on shared storage.  An access outside an array is a
      fault ([None]).
    - Floating point is an interface ([Arith]) with the operations the
      program uses on [float] and [double]; its instance is IEEE-754
      binary32/binary64 (module [IEEE]). *)

From Stdlib Require Import ZArith Lia List Bool QArith String Ascii.
From Stdlib Require Import Floats.SpecFloat.
From stdpp Require Import base tactics option list numbers list_numbers strings.

Local Open Scope Z_scope.

(** ** Machine integers *)

Module MachineInt.
(** [unsigned int]: 32 bits. *)
Definition u32 (x : Z) : Z := x mod 2 ^ 32.
(** [size_t]: 64 bits. *)
Definition u64 (x : Z) : Z := x mod 2 ^ 64.
(** [int]: 32 bits, two's complement.  Conversions to [int] and [int]
    arithmetic wrap. *)
Definition s32 (x : Z) : Z := (x + 2 ^ 31) mod 2 ^ 32 - 2 ^ 31.
Definition INT_MAX : Z := 2 ^ 31 - 1.
End MachineInt.
Import MachineInt.

(** ** Floating-point interface *)

(** [F] is [float], [D] is [double].  [flit q] is the [float] literal with
    decimal value [q] (written with an [f] suffix in the source), [dlit q]
    the [double] literal. *)
Class Arith := {
  F : Type;
  D : Type;
  flit : Q → F;
  dlit : Q → D;
  fadd : F → F → F;
  fsub : F → F → F;
  fmul : F → F → F;
  fdiv : F → F → F;
  fabsf : F → F;
  fgt : F → F → bool;
  dadd : D → D → D;
  dsub : D → D → D;
  dmul : D → D → D;
  dsqrt : D → D;
  f2d : F → D;
  d2f : D → F;
}.

(** ** Loops *)

(** [for (i = init; cond i; i = inc i) body], running at most [fuel]
    iterations.  The result is [None] when the body faults, or when the loop
    would need more than [fuel] iterations. *)
Fixpoint for_loop {S : Type} (fuel : nat) (init : Z) (cond : Z → bool)
    (inc : Z → Z) (body : Z → S → option S) (st : S) : option S :=
  if cond init then
    match fuel with
    | O => None
    | Datatypes.S n => body init st ≫= for_loop n (inc init) cond inc body
    end
  else Some st.

(** The same body run over an explicit list of index values. *)
Fixpoint fold_opt {I S : Type} (body : I → S → option S) (l : list I) (st : S)
    : option S :=
  match l with
  | [] => Some st
  | i :: l => body i st ≫= fold_opt body l
  end.

(** [loop_trace cond inc i l]: a loop whose counter starts at [i] runs
    its body for the values [l] of the counter, in this order, and stops. *)
Inductive loop_trace (cond : Z → bool) (inc : Z → Z) : Z → list Z → Prop :=
| trace_stop i : cond i = false → loop_trace cond inc i []
| trace_step i l :
    cond i = true → loop_trace cond inc (inc i) l →
    loop_trace cond inc i (i :: l).

Section Program.
Context {A : Arith}.

(** ** Constants *)

Definition DT : F := flit 0.002.
Definition DXY : F := flit 20.0.
Definition HALF_LENGTH : Z := 1.

(** ** Memory *)

(** The four arrays [main] allocates. *)
Inductive ptr := prev_base | next_base | next_cpu | vel_base.

#[export] Instance ptr_eq_dec : EqDecision ptr.
Proof. solve_decision. Defined.

Record heap := Heap {
  mem_prev_base : list F;
  mem_next_base : list F;
  mem_next_cpu : list F;
  mem_vel_base : list F;
}.

Definition deref (h : heap) (p : ptr) : list F :=
  match p with
  | prev_base => mem_prev_base h
  | next_base => mem_next_base h
  | next_cpu => mem_next_cpu h
  | vel_base => mem_vel_base h
  end.

Definition assign (h : heap) (p : ptr) (l : list F) : heap :=
  match p with
  | prev_base => Heap l (mem_next_base h) (mem_next_cpu h) (mem_vel_base h)
  | next_base => Heap (mem_prev_base h) l (mem_next_cpu h) (mem_vel_base h)
  | next_cpu => Heap (mem_prev_base h) (mem_next_base h) l (mem_vel_base h)
  | vel_base => Heap (mem_prev_base h) (mem_next_base h) (mem_next_cpu h) l
  end.

(** [p[i]] as an rvalue. *)
Definition load (h : heap) (p : ptr) (i : Z) : option F :=
  if decide (0 ≤ i) then deref h p !! Z.to_nat i else None.

(** [p[i] = v]. *)
Definition store (h : heap) (p : ptr) (i : Z) (v : F) : option heap :=
  if decide (0 ≤ i < Z.of_nat (length (deref h p)))
  then Some (assign h p (<[Z.to_nat i := v]> (deref h p)))
  else None.

(** [new float[n]]: the contents are indeterminate in C++; every cell is
    written by [initialize] before it is read. *)
Definition new_float (n : Z) : list F := replicate (Z.to_nat n) (flit 0).

(** ** [initialize] *)

Definition wavelet : list F :=
  (λ q, d2f (dlit q)) <$>
    [0.016387336; -0.041464937; -0.067372555; 0.386110067;
     0.812723635; 0.416998396; 0.076488599; -0.059434419;
     0.023680172; 0.005611435; 0.001823209; -0.000720549]%Q.

(** [nRows] and [nCols] are [size_t]; the loop counters [k], [s] and the
    second [i] are [int], compared with [size_t] values after conversion
    to [size_t]. *)
Definition initialize (ptr_prev ptr_next ptr_vel : ptr) (nRows nCols : Z)
    (h : heap) : option heap :=
  h ← for_loop (Z.to_nat nRows) 0 (λ i, i <? nRows) (λ i, u64 (i + 1))
        (λ i h,
           let offset := u64 (i * nCols) in
           for_loop (Z.to_nat nCols) 0 (λ k, u64 k <? nCols) (λ k, s32 (k + 1))
             (λ k h,
                h ← store h ptr_prev (u64 (offset + u64 k)) (flit 0.0);
                h ← store h ptr_next (u64 (offset + u64 k)) (flit 0.0);
                store h ptr_vel (u64 (offset + u64 k))
                      (fmul (flit 1500.0) (flit 1500.0)))
             h)
        h;
  for_loop 12 11 (λ s, 0 <=? s) (λ s, s32 (s - 1))
    (λ s h,
       for_loop (Z.to_nat (u64 (nRows / 2 + u64 s)))
         (s32 (u64 (nRows / 2 - u64 s)))
         (λ i, u64 i <? u64 (nRows / 2 + u64 s)) (λ i, s32 (i + 1))
         (λ i h,
            let offset := u64 (u64 i * nCols) in
            for_loop (Z.to_nat (u64 (nCols / 2 + u64 s)))
              (s32 (u64 (nCols / 2 - u64 s)))
              (λ k, u64 k <? u64 (nCols / 2 + u64 s)) (λ k, s32 (k + 1))
              (λ k h,
                 w ← wavelet !! Z.to_nat s;
                 store h ptr_prev (u64 (offset + u64 k)) w)
              h)
         h)
    h.

(** ** [within_epsilon] *)

(** One line of [error_diff.txt]. *)
Record diag := Diag {
  diag_ix : Z;
  diag_iy : Z;
  diag_output : F;
  diag_reference : F;
  diag_difference : F;
}.

(** The locals of [within_epsilon]: [output] and [reference] are the
    offsets of the two moving pointers from the arrays they were given. *)
Record we_state := WE {
  we_error : bool;
  we_norm2 : D;
  we_errFile : list diag;
  we_output : Z;
  we_reference : Z;
}.

Record validation := Validation {
  val_error : bool;      (* the value returned *)
  val_norm : D;          (* [norm2] after the square root *)
  val_errFile : list diag;
}.

Definition within_epsilon_cell (output reference : ptr) (dimx dimy radius : Z)
    (delta : F) (h : heap) (iy ix : Z) (st : we_state) : option we_state :=
  st ← (if (radius <=? ix) && (ix <? u64 (dimx - radius)) &&
           (radius <=? iy) && (iy <? u64 (dimy - radius))
        then
          r ← load h reference (we_reference st);
          o ← load h output (we_output st);
          let difference := fabsf (fsub r o) in
          let norm2 := dadd (we_norm2 st) (f2d (fmul difference difference)) in
          if fgt difference delta
          then Some (WE true norm2
                        (we_errFile st ++ [Diag ix iy o r difference])
                        (we_output st) (we_reference st))
          else Some (WE (we_error st) norm2 (we_errFile st)
                        (we_output st) (we_reference st))
        else Some st);
  Some (WE (we_error st) (we_norm2 st) (we_errFile st)
           (we_output st + 1) (we_reference st + 1)).

Definition within_epsilon (output reference : ptr) (dimx dimy radius : Z)
    (delta : F) (h : heap) : option validation :=
  st ← for_loop (Z.to_nat dimy) 0 (λ iy, iy <? dimy) (λ iy, u64 (iy + 1))
         (λ iy st,
            for_loop (Z.to_nat dimx) 0 (λ ix, ix <? dimx) (λ ix, u64 (ix + 1))
              (within_epsilon_cell output reference dimx dimy radius delta h iy)
              st)
         (WE false (dlit 0) [] 0 0);
  Some (Validation (we_error st) (dsqrt (we_norm2 st)) (we_errFile st)).

(** ** The stencil *)

(** The four statements that compute [value], shared by both drivers:
    [value] is a [float], the right-hand sides of the two [+=] are
    [double] expressions, the product [dtDIVdxy * vel[gid]] is [float]. *)
Definition stencil_value (p_r p p_l p_d p_u v dtDIVdxy : F) : F :=
  let value := d2f (dlit 0.0) in
  let value :=
    d2f (dadd (f2d value)
              (dadd (dsub (f2d p_r) (dmul (dlit 2.0) (f2d p))) (f2d p_l))) in
  let value :=
    d2f (dadd (f2d value)
              (dadd (dsub (f2d p_d) (dmul (dlit 2.0) (f2d p))) (f2d p_u))) in
  fmul value (fmul dtDIVdxy v).

(** [2.0f * prev[gid] - next[gid] + value] *)
Definition stencil_next (p n value : F) : F :=
  fadd (fsub (fmul (flit 2.0) p) n) value.

(** The update of one grid point, given the five indices the caller
    computed ([gid], [gid + 1], [gid - 1], [gid + nCols], [gid - nCols]). *)
Definition update_point (next prev vel : ptr) (dtDIVdxy : F)
    (gid gid_r gid_l gid_d gid_u : Z) (h : heap) : option heap :=
  p_r ← load h prev gid_r;
  p ← load h prev gid;
  p_l ← load h prev gid_l;
  p_d ← load h prev gid_d;
  p_u ← load h prev gid_u;
  v ← load h vel gid;
  n ← load h next gid;
  store h next gid
        (stencil_next p n (stencil_value p_r p p_l p_d p_u v dtDIVdxy)).

(** ** [iso_2dfd_iteration_cpu] *)

(** [nRows], [nCols], [nIterations] and [gid] are [int]; [i], [j], [k] are
    [unsigned int].  The state of the time loop is the pair of local
    pointers [next], [prev] and the heap. *)
Definition iso_2dfd_iteration_cpu (next prev vel : ptr) (dtDIVdxy : F)
    (nRows nCols nIterations : Z) (h : heap) : option heap :=
  st ← for_loop (Z.to_nat (u32 nIterations)) 0
         (λ k, k <? u32 nIterations) (λ k, u32 (k + 1))
         (λ k (st : ptr * ptr * heap),
            let '(next, prev, h) := st in
            h ← for_loop (Z.to_nat (u32 (u32 nRows - HALF_LENGTH))) 1
                  (λ i, i <? u32 (u32 nRows - HALF_LENGTH)) (λ i, u32 (i + 1))
                  (λ i h,
                     for_loop (Z.to_nat (u32 (u32 nCols - HALF_LENGTH))) 1
                       (λ j, j <? u32 (u32 nCols - HALF_LENGTH))
                       (λ j, u32 (j + 1))
                       (λ j h,
                          let gid := s32 (u32 (j + u32 (i * u32 nCols))) in
                          update_point next prev vel dtDIVdxy gid
                            (s32 (gid + 1)) (s32 (gid - 1))
                            (s32 (gid + nCols)) (s32 (gid - nCols)) h)
                       h)
                  h;
            (* swap = next; next = prev; prev = swap *)
            Some (prev, next, h))
         (next, prev, h);
  Some st.2.

(** ** [iso_2dfd_iteration_global] *)

(** [it] is the work-item id [(it.get(0), it.get(1))]; [gidRow], [gidCol]
    and [gid] are [size_t], [nRows] and [nCols] are [int]. *)
Definition iso_2dfd_iteration_global (it : Z * Z) (next prev vel : ptr)
    (dtDIVdxy : F) (nRows nCols : Z) (h : heap) : option heap :=
  let gidRow := it.1 in
  let gidCol := it.2 in
  let gid := u64 (u64 (gidRow * u64 nCols) + gidCol) in
  if (HALF_LENGTH <=? gidCol) && (gidCol <? u32 (u32 nCols - HALF_LENGTH)) &&
     ((HALF_LENGTH <=? gidRow) && (gidRow <? u32 (u32 nRows - HALF_LENGTH)))
  then
    update_point next prev vel dtDIVdxy gid
      (u64 (gid + 1)) (u64 (gid - 1))
      (u64 (gid + u64 nCols)) (u64 (gid - u64 nCols)) h
  else Some h.

(** ** The device time loop of [main] *)

(** The work-items of [range<2>(nRows, nCols)], in row-major order. *)
Definition global_range (nRows nCols : Z) : list (Z * Z) :=
  gidRow ← seqZ 0 nRows; gidCol ← seqZ 0 nCols; [(gidRow, gidCol)].

(** [h.parallel_for(global_range, kernel)]: the kernel runs once for each
    work-item; [order] is the order in which the runtime runs them. *)
Definition parallel_for (order : list (Z * Z))
    (kernel : Z * Z → heap → option heap) (h : heap) : option heap :=
  fold_opt kernel order h.

(** The loop over time steps in [main]; [b_next] and [b_prev] are the
    arrays behind the two buffers, [sched k] is the order in which the
    work-items of step [k] run.  [nRows] and [nCols] are [size_t] and
    [nIterations] is [unsigned int]; they are converted to [int] at the
    call of the kernel. *)
Definition device_time_loop (sched : Z → list (Z * Z))
    (b_next b_prev b_vel : ptr) (dtDIVdxy : F) (nRows nCols nIterations : Z)
    (h : heap) : option heap :=
  for_loop (Z.to_nat nIterations) 0 (λ k, k <? nIterations) (λ k, u32 (k + 1))
    (λ k h,
       if k mod 2 =? 0
       then parallel_for (sched k)
              (λ it, iso_2dfd_iteration_global it b_next b_prev b_vel
                       dtDIVdxy (s32 nRows) (s32 nCols)) h
       else parallel_for (sched k)
              (λ it, iso_2dfd_iteration_global it b_prev b_next b_vel
                       dtDIVdxy (s32 nRows) (s32 nCols)) h)
    h.

(** ** [main] *)

(** What the program writes to standard output (device information and
    timings left out). *)
Inductive msg :=
| Text (s : string)
| GridSizes (nRows nCols : Z)
| Iterations (n : Z)
| ErrorNorm (norm : D).

Definition usage (programName : string) : list msg :=
  [Text " Incorrect parameters ";
   Text (" Usage: " +:+ programName +:+ " n1 n2 Iterations ");
   Text EmptyString;
   Text " n1 n2      : Grid sizes for the stencil ";
   Text " Iterations : No. of timesteps. "].

Record outcome := Outcome {
  exit_code : Z;
  stdout : list msg;
  wavefield_snapshot : option (list F);      (* wavefield_snapshot.bin *)
  wavefield_snapshot_cpu : option (list F);  (* wavefield_snapshot_cpu.bin *)
  error_diff : option (list diag);           (* error_diff.txt *)
}.

(** [std::stoi], a library function: [None] when it throws.  [sched k
    nRows nCols] is the order in which the runtime runs the work-items of
    step [k]. *)
Context (stoi : string → option Z).
Context (sched : Z → Z → Z → list (Z * Z)).

(** [std::stoi(argv[i])]; a missing argument is a null pointer, from which
    no [std::string] can be made: that throws as well. *)
Definition stoi_arg (argv : list string) (i : nat) : option Z :=
  argv !! i ≫= stoi.

Definition main (argv : list string) : option outcome :=
  match
    (n1 ← stoi_arg argv 1; n2 ← stoi_arg argv 2; n3 ← stoi_arg argv 3;
     Some (u64 n1, u64 n2, u32 n3))
  with
  | None =>
      programName ← argv !! 0%nat;
      Some (Outcome 1 (usage programName) None None None)
  | Some (nRows, nCols, nIterations) =>
      let nsize := u64 (nRows * nCols) in
      let h := Heap (new_float nsize) (new_float nsize)
                    (new_float nsize) (new_float nsize) in
      let dtDIVdxy := fdiv (fmul DT DT) (fmul DXY DXY) in
      h ← initialize prev_base next_base vel_base nRows nCols h;
      h ← device_time_loop (λ k, sched k nRows nCols)
            next_base prev_base vel_base dtDIVdxy nRows nCols nIterations h;
      let snapshot := deref h next_base in
      h ← initialize prev_base next_cpu vel_base nRows nCols h;
      h ← iso_2dfd_iteration_cpu next_cpu prev_base vel_base dtDIVdxy
            (s32 nRows) (s32 nCols) (s32 nIterations) h;
      v ← within_epsilon next_base next_cpu nRows nCols HALF_LENGTH
            (flit 0.1) h;
      Some (Outcome
              (if val_error v then 1 else 0)
              ([Text "Initializing ... "; GridSizes nRows nCols;
                Iterations nIterations; Text EmptyString;
                Text "Computing wavefield in device ..";
                Text "Computing wavefield in CPU ..";
                Text "Initializing ... "] ++
               (if val_error v then [ErrorNorm (val_norm v)] else []) ++
               [Text (if val_error v
                      then "Final wavefields from device and CPU are different: Error "
                      else "Final wavefields from device and CPU are equivalent: Success");
                Text "Final wavefields (from device and CPU) written to disk";
                Text "Finished.  "])
              (Some snapshot)
              (Some (deref h next_cpu))
              (Some (val_errFile v)))
  end.

End Program.

(** ** IEEE-754 instance *)

Module IEEE.
Definition of_Z (prec emax : Z) (z : Z) : spec_float :=
  binary_normalize prec emax z 0 false.

(** The correctly rounded value of the decimal literal [q]: numerator and
    denominator of every literal of the program are exactly representable,
    so one rounded division gives it. *)
Definition lit (prec emax : Z) (q : Q) : spec_float :=
  SFdiv prec emax (of_Z prec emax (Qnum q)) (of_Z prec emax (Zpos (Qden q))).

(** Conversion of a value to the format [(prec, emax)], rounding to
    nearest even. *)
Definition convert (prec emax : Z) (x : spec_float) : spec_float :=
  match x with
  | S754_finite s m e => binary_round prec emax s m e
  | _ => x
  end.

Definition gt (x y : spec_float) : bool :=
  match SFcompare x y with
  | Some Gt => true
  | _ => false
  end.

#[export] Instance spec_float_eq_dec : EqDecision spec_float.
Proof. solve_decision. Defined.

#[export] Instance arith : Arith := {|
  F := spec_float;
  D := spec_float;
  flit := lit 24 128;
  dlit := lit 53 1024;
  fadd := SFadd 24 128;
  fsub := SFsub 24 128;
  fmul := SFmul 24 128;
  fdiv := SFdiv 24 128;
  fabsf := SFabs;
  fgt := gt;
  dadd := SFadd 53 1024;
  dsub := SFsub 53 1024;
  dmul := SFmul 53 1024;
  dsqrt := SFsqrt 53 1024;
  f2d := convert 53 1024;
  d2f := convert 24 128;
|}.
End IEEE.

(** A [float] that is a number: neither an infinity nor a NaN. *)
Definition finite_float (x : spec_float) : bool :=
  match x with
  | S754_zero _ | S754_finite _ _ _ => true
  | _ => false
  end.

(** ** A model of [std::stoi] and sample inputs *)

(** [std::stoi] on a decimal string: leading white space is skipped, a sign
    is optional, the digits that follow are read and what comes after them
    is ignored; it throws ([None]) when there is no digit, and when the
    value does not fit an [int]. *)
Module StdLib.
Definition is_space (c : ascii) : bool :=
  let n := Z.of_nat (nat_of_ascii c) in (n =? 32) || ((9 <=? n) && (n <=? 13)).

Fixpoint skip_spaces (s : string) : string :=
  match s with
  | String c s' => if is_space c then skip_spaces s' else s
  | EmptyString => s
  end.

Definition digit (c : ascii) : option Z :=
  let n := Z.of_nat (nat_of_ascii c) in
  if (48 <=? n) && (n <=? 57) then Some (n - 48) else None.

Fixpoint digits (s : string) (acc : option Z) : option Z :=
  match s with
  | String c s' =>
      match digit c with
      | Some d => digits s' (Some (10 * default 0 acc + d))
      | None => acc
      end
  | EmptyString => acc
  end.

Definition stoi (s : string) : option Z :=
  let s := skip_spaces s in
  let '(neg, s) :=
    match s with
    | String "-" s' => (true, s')
    | String "+" s' => (false, s')
    | _ => (false, s)
    end in
  v ← digits s None;
  let v := if neg : bool then - v else v in
  if (- 2 ^ 31 <=? v) && (v <=? INT_MAX) then Some v else None.
End StdLib.

(** Sample inputs, used to run the definitions. *)
Module Sample.
Section Sample.
Context {A : Arith}.

(** A 3 x 3 grid: [prev] holds 1 .. 9, [next] and [next_cpu] are zero. *)
Definition heap3 : heap :=
  let zero := replicate 9 (flit 0) in
  Heap (flit <$> [1; 2; 3; 4; 5; 6; 7; 8; 9]%Q) zero zero
       (replicate 9 (fmul (flit 1500.0) (flit 1500.0))).

(** A 3 x 3 grid around the cell [0.2], with [next] holding [0.3]. *)
Definition stencil3 : heap :=
  let old := replicate 9 (flit 0.3) in
  Heap (flit <$> [0; 0.9; 0; 0.3; 0.2; 0.1; 0; 0.7; 0]%Q) old old
       (replicate 9 (fmul (flit 1500.0) (flit 1500.0))).

(** The row-major order, and its reverse, at every step. *)
Definition row_major (k nRows nCols : Z) : list (Z * Z) :=
  global_range nRows nCols.
Definition backwards (k nRows nCols : Z) : list (Z * Z) :=
  reverse (global_range nRows nCols).

(** The arrays of [main] after [initialize], for a grid
    [nRows x nCols]. *)
Definition initialized (nRows nCols : Z) : option heap :=
  let nsize := u64 (nRows * nCols) in
  initialize prev_base next_base vel_base nRows nCols
    (Heap (new_float nsize) (new_float nsize) (new_float nsize)
          (new_float nsize)).

Definition dtDIVdxy : F := fdiv (fmul DT DT) (fmul DXY DXY).
End Sample.
End Sample.

(** * Specifications *)

Section Specs.
Context {A : Arith}.

#[export] Instance F_inhabited : Inhabited F := populate (flit 0).

(** The value of cell [g] of an array. *)
Definition cell (l : list F) (g : Z) : F := l !!! Z.to_nat g.

(** Grid sizes for which no index of either driver wraps: the cell count
    fits the [int] index [gid] of the serial driver. *)
Definition grid_ok (nRows nCols : Z) : Prop :=
  1 ≤ nRows ∧ 1 ≤ nCols ∧ nRows * nCols ≤ INT_MAX.

(** [l] is an [nRows x nCols] grid. *)
Definition is_grid (nRows nCols : Z) (l : list F) : Prop :=
  Z.of_nat (length l) = nRows * nCols.

(** Interior points: not within [HALF_LENGTH] of an edge. *)
Definition interior (nRows nCols : Z) (it : Z * Z) : Prop :=
  HALF_LENGTH ≤ it.1 < nRows - HALF_LENGTH ∧
  HALF_LENGTH ≤ it.2 < nCols - HALF_LENGTH.

#[export] Instance interior_dec nRows nCols it :
  Decision (interior nRows nCols it).
Proof. unfold interior. apply _. Defined.

(** Row and column of the cell at offset [g] of a row-major grid. *)
Definition coords (nCols : Z) (g : Z) : Z * Z := (g / nCols, g mod nCols).

(** The stencil formula at the cell at offset [g], as the code computes
    it, from the contents [nx], [pv], [vl] of the three arrays. *)
Definition stencil_cell (nCols : Z) (dtDIVdxy : F) (nx pv vl : list F)
    (g : Z) : F :=
  stencil_next (cell pv g) (cell nx g)
    (stencil_value (cell pv (g + 1)) (cell pv g) (cell pv (g - 1))
                   (cell pv (g + nCols)) (cell pv (g - nCols))
                   (cell vl g) dtDIVdxy).

(** The array [nx] after the stencil has been applied at the interior
    points among [ran]. *)
Definition sweep_part (ran : list (Z * Z)) (nRows nCols : Z) (dtDIVdxy : F)
    (nx pv vl : list F) : list F :=
  imap (λ n x,
          if bool_decide (interior nRows nCols (coords nCols (Z.of_nat n)) ∧
                          coords nCols (Z.of_nat n) ∈ ran)
          then stencil_cell nCols dtDIVdxy nx pv vl (Z.of_nat n) else x) nx.

(** One full sweep: the stencil at every interior point. *)
Definition sweep (nRows nCols : Z) (dtDIVdxy : F) (nx pv vl : list F)
    : list F :=
  imap (λ n x,
          if bool_decide (interior nRows nCols (coords nCols (Z.of_nat n)))
          then stencil_cell nCols dtDIVdxy nx pv vl (Z.of_nat n) else x) nx.

(** The two buffers after [n] time steps: step [k] writes the first
    buffer when [k] is even and the second when [k] is odd. *)
Fixpoint time_steps (n : nat) (nRows nCols : Z) (dtDIVdxy : F)
    (a b vl : list F) : list F * list F :=
  match n with
  | O => (a, b)
  | Datatypes.S k =>
      let ab := time_steps k nRows nCols dtDIVdxy a b vl in
      if Nat.even k
      then (sweep nRows nCols dtDIVdxy ab.1 ab.2 vl, ab.2)
      else (ab.1, sweep nRows nCols dtDIVdxy ab.2 ab.1 vl)
  end.

(** The interior work-items, in the order of the serial loop nest. *)
Definition interior_range (nRows nCols : Z) : list (Z * Z) :=
  i ← seqZ 1 (nRows - 2); j ← seqZ 1 (nCols - 2); [(i, j)].
(** The three arrays a driver works on have the size of the grid. *)
Definition heap_ok (nRows nCols : Z) (next prev vel : ptr) (h : heap) : Prop :=
  is_grid nRows nCols (deref h next) ∧ is_grid nRows nCols (deref h prev) ∧
  is_grid nRows nCols (deref h vel).

(** A work-item of [range<2>(nRows, nCols)]. *)
Definition in_range (nRows nCols : Z) (it : Z * Z) : Prop :=
  0 ≤ it.1 < nRows ∧ 0 ≤ it.2 < nCols.

(** The body of the loop nest of [iso_2dfd_iteration_cpu] at
    [(i, j) = it], with the local pointers [next] and [prev]. *)
Definition cpu_body (nCols : Z) (dtDIVdxy : F) (vel next prev : ptr)
    (it : Z * Z) (h : heap) : option heap :=
  let gid := s32 (u32 (it.2 + u32 (it.1 * u32 nCols))) in
  update_point next prev vel dtDIVdxy gid (s32 (gid + 1)) (s32 (gid - 1))
               (s32 (gid + nCols)) (s32 (gid - nCols)) h.

(** The heap after [n] time steps that started from [h]. *)
Definition after_steps (nRows nCols : Z) (dtDIVdxy : F) (next prev vel : ptr)
    (n : nat) (h : heap) : heap :=
  let ab := time_steps n nRows nCols dtDIVdxy
              (deref h next) (deref h prev) (deref h vel) in
  assign (assign h next ab.1) prev ab.2.
(** The cells the validator compares: its own reading of its arguments, a
    grid of [dimy] rows of [dimx] cells. *)
Definition compared (dimx dimy radius : Z) (ix iy : Z) : Prop :=
  radius ≤ ix < dimx - radius ∧ radius ≤ iy < dimy - radius.

#[export] Instance compared_dec dimx dimy radius ix iy :
  Decision (compared dimx dimy radius ix iy).
Proof. unfold compared. apply _. Defined.

(** What one iteration of the inner loop of [within_epsilon] does to its
    locals, when both pointers are at offset [p]. *)
Definition we_step (out ref : list F) (dimx dimy radius : Z) (delta : F)
    (st : we_state) : we_state :=
  let p := we_output st in
  let ix := p `mod` dimx in
  let iy := p `div` dimx in
  if bool_decide (compared dimx dimy radius ix iy) then
    let difference := fabsf (fsub (cell ref p) (cell out p)) in
    WE (we_error st || fgt difference delta)
       (dadd (we_norm2 st) (f2d (fmul difference difference)))
       (we_errFile st ++
          (if fgt difference delta
           then [Diag ix iy (cell out p) (cell ref p) difference] else []))
       (p + 1) (p + 1)
  else WE (we_error st) (we_norm2 st) (we_errFile st) (p + 1) (p + 1).

(** The locals after the first [n] cells of the scan. *)
Definition we_prefix (out ref : list F) (dimx dimy radius : Z) (delta : F)
    (n : nat) : we_state :=
  Nat.iter n (we_step out ref dimx dimy radius delta)
           (WE false (dlit 0) [] 0 0).
(** The array [l] after [w] has been stored in the cells [cells] of the
    grid. *)
Definition fill_cells (cells : list (Z * Z)) (w : F) (nCols : Z) (l : list F)
    : list F :=
  imap (λ n x, if bool_decide (coords nCols (Z.of_nat n) ∈ cells) then w else x)
       l.

(** The values the counter [i] (or [k]) of the wavelet loops of
    [initialize] takes on an axis of [n] cells: the [int] counter starts at
    [n / 2 - s]; when that is negative it compares, converted to [size_t],
    above the bound [n / 2 + s], and the loop does not run. *)
Definition wavelet_span (n s : Z) : list Z :=
  if decide (s ≤ n `div` 2) then seqZ (n `div` 2 - s) (2 * s) else [].

Definition wavelet_square (nRows nCols s : Z) : list (Z * Z) :=
  i ← wavelet_span nRows s; k ← wavelet_span nCols s; [(i, k)].

(** [prev] after the wavelet loops have run for the values [ss] of [s]. *)
Definition wavelet_fill (nRows nCols : Z) (ss : list Z) (l : list F) : list F :=
  foldl (λ l s, fill_cells (wavelet_square nRows nCols s)
                  (wavelet !!! Z.to_nat s) nCols l) l ss.

(** [prev] after [initialize]. *)
Definition initial_prev (nRows nCols : Z) : list F :=
  wavelet_fill nRows nCols [11; 10; 9; 8; 7; 6; 5; 4; 3; 2; 1; 0]
    (replicate (Z.to_nat (nRows * nCols)) (flit 0.0)).

(** The body of the first loop nest of [initialize]. *)
Definition zero_body (ptr_prev ptr_next ptr_vel : ptr) (idx : Z) (h : heap)
    : option heap :=
  h ← store h ptr_prev idx (flit 0.0);
  h ← store h ptr_next idx (flit 0.0);
  store h ptr_vel idx (fmul (flit 1500.0) (flit 1500.0)).
(** A grid that a rotation by 180 degrees about its centre leaves as it
    is. *)
Definition rotation_symmetric (nRows nCols : Z) (l : list F) : Prop :=
  ∀ i j, 0 ≤ i < nRows → 0 ≤ j < nCols →
    cell l (i * nCols + j) = cell l ((nRows - 1 - i) * nCols + (nCols - 1 - j)).
(** The halo: the work-items of the grid that are not interior. *)
Definition halo_range (nRows nCols : Z) : list (Z * Z) :=
  filter (λ it, ¬ interior nRows nCols it) (global_range nRows nCols).
End Specs.

(** ** Further specifications *)

Section MoreSpecs.
Context {A : Arith}.

(** The offsets of the cells the validator compares, in the order of its
    scan. *)
Definition compared_offsets (dimx dimy radius : Z) : list Z :=
  filter (λ p, compared dimx dimy radius (p `mod` dimx) (p `div` dimx))
         (seqZ 0 (dimx * dimy)).

(** The value of [difference] for the cell at offset [p]. *)
Definition difference_at (out ref : list F) (p : Z) : F :=
  fabsf (fsub (cell ref p) (cell out p)).

(** The line of [error_diff.txt] for the cell at offset [p]. *)
Definition diag_at (out ref : list F) (dimx : Z) (p : Z) : diag :=
  Diag (p `mod` dimx) (p `div` dimx) (cell out p) (cell ref p)
       (difference_at out ref p).

(** [norm2] after the cells at the offsets [ps] have been added, in this
    order. *)
Definition norm2_of (out ref : list F) (ps : list Z) : D :=
  foldl (λ acc p,
           dadd acc (f2d (fmul (difference_at out ref p)
                               (difference_at out ref p))))
        (dlit 0) ps.

(** The ring of the cell with index [i] on an axis of [n] cells: the two
    cells at the centre, [n / 2 - 1] and [n / 2], are in ring 1, their
    neighbours in ring 2, and so on. *)
Definition ring_axis (n i : Z) : Z :=
  if decide (n `div` 2 ≤ i) then i - n `div` 2 + 1 else n `div` 2 - i.

(** The ring of cell [(i, k)] of the grid. *)
Definition ring (nRows nCols i k : Z) : Z :=
  Z.max (ring_axis nRows i) (ring_axis nCols k).
End MoreSpecs.

(** * Proofs *)

(** ** Machine integers *)

Section MachineIntFacts.
Lemma u32_small x : 0 ≤ x < 2 ^ 32 → u32 x = x.
Proof. intros. unfold u32. by apply Z.mod_small. Qed.

Lemma u64_small x : 0 ≤ x < 2 ^ 64 → u64 x = x.
Proof. intros. unfold u64. by apply Z.mod_small. Qed.

Lemma s32_small x : - 2 ^ 31 ≤ x < 2 ^ 31 → s32 x = x.
Proof. intros. unfold s32. rewrite Z.mod_small; lia. Qed.

Lemma u32_s32 x : u32 (s32 x) = u32 x.
Proof.
  unfold u32, s32.
  rewrite Zminus_mod_idemp_l. f_equal. lia.
Qed.

(** A negative [int] converted to [size_t] is at least [2^63]. *)
Lemma u64_neg x : - 2 ^ 63 ≤ x < 0 → u64 x = x + 2 ^ 64.
Proof.
  intros. unfold u64.
  replace x with (x + 2 ^ 64 + (-1) * 2 ^ 64) at 1 by lia.
  rewrite Z_mod_plus_full. apply Z.mod_small. lia.
Qed.

(** [int i = a - s] for [size_t a] and [int s]: the difference is taken
    in [size_t] and converted back. *)
Lemma s32_u64_sub a s :
  0 ≤ a < 2 ^ 31 → 0 ≤ s < 2 ^ 31 → s32 (u64 (a - u64 s)) = a - s.
Proof.
  intros. rewrite (u64_small s) by lia.
  destruct (decide (s ≤ a)).
  - rewrite u64_small, s32_small; lia.
  - rewrite u64_neg by lia. unfold s32.
    replace (a - s + 2 ^ 64 + 2 ^ 31)
      with (a - s + 2 ^ 31 + 2 ^ 32 * 2 ^ 32) by lia.
    rewrite Z_mod_plus_full, Z.mod_small; lia.
Qed.
End MachineIntFacts.

(** ** Loops *)

Section LoopFacts.
Context {S : Type}.

Lemma fold_opt_app {I} (body : I → S → option S) l1 l2 st :
  fold_opt body (l1 ++ l2) st = fold_opt body l1 st ≫= fold_opt body l2.
Proof.
  revert st. induction l1 as [|i l1 IH]; intros st; simpl; [done|].
  destruct (body i st); simpl; [apply IH | done].
Qed.

Lemma fold_opt_ext {I} (body1 body2 : I → S → option S) l st :
  (∀ i st, i ∈ l → body1 i st = body2 i st) →
  fold_opt body1 l st = fold_opt body2 l st.
Proof.
  revert st. induction l as [|i l IH]; intros st Hb; simpl; [done|].
  rewrite Hb by left. destruct (body2 i st); simpl; [|done].
  apply IH. intros. apply Hb. by right.
Qed.

(** A loop nest is one loop over the list of index pairs. *)
Lemma fold_opt_nested (body : Z * Z → S → option S) (l1 l2 : list Z) st :
  fold_opt (λ i, fold_opt (λ j, body (i, j)) l2) l1 st =
  fold_opt body (i ← l1; j ← l2; [(i, j)]) st.
Proof.
  revert st. induction l1 as [|i l1 IH]; intros st; [done|].
  cbn [fold_opt mbind list_bind]. change (list_bind ?f ?l) with (l ≫= f).
  rewrite fold_opt_app.
  assert (Hin : ∀ st, fold_opt (λ j, body (i, j)) l2 st =
                      fold_opt body (l2 ≫= λ j, [(i, j)]) st).
  { clear. induction l2 as [|j l2 IH2]; intros st; [done|].
    cbn. destruct (body (i, j) st); simpl; [apply IH2 | done]. }
  rewrite Hin. destruct (fold_opt body _ st); simpl; [apply IH | done].
Qed.

Lemma for_loop_trace fuel init cond inc (body : Z → S → option S) l st :
  loop_trace cond inc init l → (length l ≤ fuel)%nat →
  for_loop fuel init cond inc body st = fold_opt body l st.
Proof.
  intros Ht. revert fuel st.
  induction Ht as [i Hc | i l Hc Ht IH]; intros fuel st Hlen.
  - destruct fuel; simpl; by rewrite Hc.
  - destruct fuel as [|fuel]; simpl in *; [lia|]. rewrite Hc.
    destruct (body i st); simpl; [apply IH; lia | done].
Qed.

(** A counter that goes up by one from [lo] while it is below [hi]. *)
Lemma loop_trace_up cond inc lo hi :
  lo ≤ hi →
  (∀ i, lo ≤ i < hi → cond i = true ∧ inc i = i + 1) →
  cond hi = false →
  loop_trace cond inc lo (seqZ lo (hi - lo)).
Proof.
  intros Hle Hstep Hstop.
  remember (Z.to_nat (hi - lo)) as n eqn:Hn.
  revert lo Hle Hstep Hn. induction n as [|n IH]; intros lo Hle Hstep Hn.
  - assert (lo = hi) as -> by lia. rewrite Z.sub_diag. by constructor.
  - rewrite seqZ_cons by lia. destruct (Hstep lo) as [Hc Hi]; [lia|].
    constructor; [done|]. rewrite Hi.
    replace (Z.pred (hi - lo)) with (hi - (lo + 1)) by lia.
    apply IH; [lia | | lia]. intros; apply Hstep; lia.
Qed.

Lemma for_loop_none fuel init cond inc (body : Z → S → option S) st :
  cond init = false → for_loop fuel init cond inc body st = Some st.
Proof. intros Hc. destruct fuel; simpl; by rewrite Hc. Qed.

(** [for (i = lo; i < hi; i++)], also when the range is empty. *)
Lemma for_loop_up fuel lo hi cond inc (body : Z → S → option S) st :
  (∀ i, lo ≤ i < hi → cond i = true ∧ inc i = i + 1) →
  cond (Z.max lo hi) = false →
  (Z.to_nat (hi - lo) ≤ fuel)%nat →
  for_loop fuel lo cond inc body st = fold_opt body (seqZ lo (hi - lo)) st.
Proof.
  intros Hstep Hstop Hfuel. destruct (decide (lo ≤ hi)).
  - rewrite Z.max_r in Hstop by done.
    apply for_loop_trace; [by apply loop_trace_up|]. by rewrite length_seqZ.
  - rewrite Z.max_l in Hstop by lia. rewrite seqZ_nil by lia.
    by apply for_loop_none.
Qed.
End LoopFacts.

Section LoopFault.
Context {S : Type}.

(** A loop whose first iteration faults. *)
Lemma for_loop_fault fuel init cond inc (body : Z → S → option S) st :
  cond init = true → body init st = None →
  for_loop fuel init cond inc body st = None.
Proof. intros Hc Hb. destruct fuel; simpl; rewrite Hc; [done|]. by rewrite Hb. Qed.
End LoopFault.

Section FoldFault.
Context {I S : Type}.

(** A loop over a list faults when the body faults at one of the indices,
    whatever the state it is run in. *)
Lemma fold_opt_fault (body : I → S → option S) (l : list I) (i : I) st :
  i ∈ l → (∀ st, body i st = None) → fold_opt body l st = None.
Proof.
  intros Hin Hb. revert st. induction l as [|x l IH]; intros st.
  - by apply elem_of_nil in Hin.
  - cbn [fold_opt]. apply elem_of_cons in Hin as [<-|Hin].
    + by rewrite Hb.
    + destruct (body x st); [by apply IH|done].
Qed.
End FoldFault.

(** ** Memory *)

Section HeapFacts.
Context {A : Arith}.
Implicit Types (h : heap) (p q : ptr) (l : list F).

Lemma deref_assign_eq h p l : deref (assign h p l) p = l.
Proof. by destruct p. Qed.

Lemma deref_assign_ne h p q l : p ≠ q → deref (assign h p l) q = deref h q.
Proof. by destruct p, q. Qed.

Lemma assign_assign h p l l' : assign (assign h p l) p l' = assign h p l'.
Proof. by destruct p. Qed.

Lemma assign_deref h p : assign h p (deref h p) = h.
Proof. by destruct h, p. Qed.

Lemma assign_comm h p q l l' :
  p ≠ q → assign (assign h p l) q l' = assign (assign h q l') p l.
Proof. by destruct p, q. Qed.

Lemma load_Some h p i :
  0 ≤ i < Z.of_nat (length (deref h p)) →
  load h p i = Some (cell (deref h p) i).
Proof.
  intros Hi. unfold load, cell. rewrite decide_True by lia.
  apply list_lookup_lookup_total_lt. lia.
Qed.

Lemma load_None h p i :
  ¬ (0 ≤ i < Z.of_nat (length (deref h p))) → load h p i = None.
Proof.
  intros Hi. unfold load. case_decide; [|done].
  apply lookup_ge_None. lia.
Qed.

Lemma store_Some h p i v :
  0 ≤ i < Z.of_nat (length (deref h p)) →
  store h p i v = Some (assign h p (<[Z.to_nat i := v]> (deref h p))).
Proof. intros Hi. unfold store. by rewrite decide_True. Qed.

Lemma store_None h p i v :
  ¬ (0 ≤ i < Z.of_nat (length (deref h p))) → store h p i v = None.
Proof. intros Hi. unfold store. by rewrite decide_False. Qed.
End HeapFacts.

(** ** One sweep *)

Section SweepFacts.
Context {A : Arith}.
Context (nRows nCols : Z) (dtDIVdxy : F).
Implicit Types (h : heap) (nx pv vl : list F) (it : Z * Z).

Lemma grid_ok_bounds :
  grid_ok nRows nCols → nRows ≤ INT_MAX ∧ nCols ≤ INT_MAX.
Proof. unfold grid_ok, INT_MAX. intros (? & ? & ?). split; nia. Qed.

Lemma coords_gid it :
  0 ≤ it.2 < nCols → coords nCols (it.1 * nCols + it.2) = it.
Proof.
  intros Hc. destruct it as [r c]; simpl in *. unfold coords. f_equal.
  - rewrite Z.add_comm, Z.div_add by lia. rewrite Z.div_small; lia.
  - rewrite Z.add_comm, Z_mod_plus_full. apply Z.mod_small; lia.
Qed.

Lemma gid_coords g : 0 < nCols → (coords nCols g).1 * nCols + (coords nCols g).2 = g.
Proof. intros. unfold coords; simpl. pose proof (Z.div_mod g nCols). lia. Qed.

Lemma length_sweep_part ran nx pv vl :
  length (sweep_part ran nRows nCols dtDIVdxy nx pv vl) = length nx.
Proof. unfold sweep_part. by rewrite length_imap. Qed.

Lemma length_sweep nx pv vl :
  length (sweep nRows nCols dtDIVdxy nx pv vl) = length nx.
Proof. unfold sweep. by rewrite length_imap. Qed.

Lemma sweep_part_ext ran ran' nx pv vl :
  (∀ it, interior nRows nCols it → it ∈ ran ↔ it ∈ ran') →
  sweep_part ran nRows nCols dtDIVdxy nx pv vl =
  sweep_part ran' nRows nCols dtDIVdxy nx pv vl.
Proof.
  intros Hd. unfold sweep_part. apply imap_ext. intros n x _. simpl.
  erewrite bool_decide_ext; [done|]. split; intros [Hi ?]; (split; [done|]);
    by apply (Hd _ Hi).
Qed.

Lemma sweep_part_nil nx pv vl :
  sweep_part [] nRows nCols dtDIVdxy nx pv vl = nx.
Proof.
  unfold sweep_part. apply list_eq. intros n.
  rewrite list_lookup_imap. destruct (nx !! n); simpl; [|done].
  rewrite bool_decide_false; [done|]. intros [_ []%elem_of_nil].
Qed.

Lemma sweep_part_all ran nx pv vl :
  (∀ it, interior nRows nCols it → it ∈ ran) →
  sweep_part ran nRows nCols dtDIVdxy nx pv vl =
  sweep nRows nCols dtDIVdxy nx pv vl.
Proof.
  intros Hd. unfold sweep_part, sweep. apply imap_ext. intros n x _. simpl.
  erewrite bool_decide_ext; [done|].
  split; [by intros [? _] | intros Hi; split; [done | by apply Hd]].
Qed.

(** A work-item outside the interior changes nothing. *)
Lemma sweep_part_cons_halo it ran nx pv vl :
  ¬ interior nRows nCols it →
  sweep_part (it :: ran) nRows nCols dtDIVdxy nx pv vl =
  sweep_part ran nRows nCols dtDIVdxy nx pv vl.
Proof.
  intros Hit. apply sweep_part_ext. intros it' Hi. rewrite elem_of_cons.
  split; [intros [->|?]; [done|done] | by right].
Qed.

(** An interior work-item writes its own cell. *)
Lemma sweep_part_cons_interior it ran nx pv vl :
  0 < nCols → 0 ≤ it.1 → 0 ≤ it.2 < nCols →
  interior nRows nCols it → it ∉ ran →
  sweep_part (it :: ran) nRows nCols dtDIVdxy nx pv vl =
  <[Z.to_nat (it.1 * nCols + it.2) :=
      stencil_cell nCols dtDIVdxy nx pv vl (it.1 * nCols + it.2)]>
    (sweep_part ran nRows nCols dtDIVdxy nx pv vl).
Proof.
  intros HnC Hr Hc Hi Hnd. apply list_eq. intros n.
  assert (0 ≤ it.1 * nCols + it.2) by nia.
  destruct (decide (n = Z.to_nat (it.1 * nCols + it.2))) as [->|Hne].
  - destruct (decide (Z.to_nat (it.1 * nCols + it.2) < length nx)%nat)
      as [Hlt|Hge].
    + rewrite list_lookup_insert_eq by by rewrite length_sweep_part.
      unfold sweep_part. rewrite list_lookup_imap.
      destruct (lookup_lt_is_Some_2 nx _ Hlt) as [x ->]. simpl.
      rewrite Z2Nat.id by done.
      rewrite bool_decide_true; [done|].
      rewrite (coords_gid it) by done. split; [done|]. by left.
    + rewrite list_insert_ge by (rewrite length_sweep_part; lia).
      unfold sweep_part. rewrite !list_lookup_imap.
      by rewrite (lookup_ge_None_2 nx) by lia.
  - rewrite list_lookup_insert_ne by done.
    unfold sweep_part. rewrite !list_lookup_imap.
    destruct (nx !! n); simpl; [|done]. f_equal.
    erewrite bool_decide_ext; [done|]. rewrite elem_of_cons.
    split; [|intros [? ?]; split; [done | by right]].
    intros [Hi' [Heq|?]]; [|done].
    exfalso. apply Hne. pose proof (gid_coords (Z.of_nat n) HnC) as Hg.
    rewrite Heq in Hg. lia.
Qed.
End SweepFacts.

(** ** The two sweeps compute [sweep] *)

Section KernelFacts.
Context {A : Arith}.
Context (nRows nCols : Z) (dtDIVdxy : F) (next prev vel : ptr).
Context (Hgrid : grid_ok nRows nCols).
Context (Hnp : next ≠ prev) (Hnv : next ≠ vel).
Implicit Types (h : heap) (it : Z * Z).

Lemma heap_ok_assign h l :
  heap_ok nRows nCols next prev vel h →
  length l = length (deref h next) →
  heap_ok nRows nCols next prev vel (assign h next l).
Proof.
  intros (Hn & Hp & Hv) Hl. unfold heap_ok, is_grid in *.
  rewrite deref_assign_eq, !deref_assign_ne by done. by rewrite Hl.
Qed.

Lemma interior_bounds it :
  interior nRows nCols it →
  let gid := it.1 * nCols + it.2 in
  0 ≤ gid - nCols ∧ 0 ≤ gid - 1 ∧ gid + 1 < nRows * nCols ∧
  gid + nCols < nRows * nCols.
Proof.
  unfold interior, HALF_LENGTH. destruct it as [r c]. simpl. intros [? ?].
  assert (1 * nCols ≤ r * nCols) by (apply Z.mul_le_mono_nonneg_r; lia).
  assert ((r + 1) * nCols ≤ (nRows - 1) * nCols)
    by (apply Z.mul_le_mono_nonneg_r; lia).
  lia.
Qed.

(** The guard of the kernel. *)
Lemma interior_test it :
  (HALF_LENGTH <=? it.2) && (it.2 <? nCols - HALF_LENGTH) &&
  ((HALF_LENGTH <=? it.1) && (it.1 <? nRows - HALF_LENGTH))
  = bool_decide (interior nRows nCols it).
Proof.
  destruct (bool_decide_reflect (interior nRows nCols it)) as [Hi|Hi];
    unfold interior in Hi.
  - rewrite !andb_true_iff, !Z.leb_le, !Z.ltb_lt. lia.
  - rewrite <- not_true_iff_false, !andb_true_iff, !Z.leb_le, !Z.ltb_lt. lia.
Qed.

Lemma update_point_spec h it :
  heap_ok nRows nCols next prev vel h → interior nRows nCols it →
  let gid := it.1 * nCols + it.2 in
  update_point next prev vel dtDIVdxy gid (gid + 1) (gid - 1)
               (gid + nCols) (gid - nCols) h
  = Some (assign h next
            (<[Z.to_nat gid :=
                 stencil_cell nCols dtDIVdxy (deref h next) (deref h prev)
                              (deref h vel) gid]> (deref h next))).
Proof.
  intros (Hn & Hp & Hv) Hi gid. unfold is_grid in *.
  pose proof (interior_bounds it Hi) as Hb. cbv zeta in Hb. fold gid in Hb.
  destruct Hgrid as (? & ? & _).
  unfold update_point.
  rewrite !load_Some by lia. simpl.
  rewrite store_Some by lia. done.
Qed.

(** The kernel at a work-item of the global range. *)
Lemma iso_2dfd_iteration_global_spec h it :
  heap_ok nRows nCols next prev vel h → in_range nRows nCols it →
  iso_2dfd_iteration_global it next prev vel dtDIVdxy (s32 nRows) (s32 nCols) h
  = if decide (interior nRows nCols it)
    then
      let gid := it.1 * nCols + it.2 in
      Some (assign h next
              (<[Z.to_nat gid :=
                   stencil_cell nCols dtDIVdxy (deref h next) (deref h prev)
                                (deref h vel) gid]> (deref h next)))
    else Some h.
Proof.
  intros Hh [Hr Hc].
  destruct (grid_ok_bounds _ _ Hgrid) as [HR HC].
  destruct Hgrid as (HR1 & HC1 & Hsz). unfold INT_MAX in *.
  unfold iso_2dfd_iteration_global.
  rewrite !s32_small by lia.
  rewrite (u32_small nCols), (u32_small nRows) by lia.
  rewrite (u32_small (nCols - HALF_LENGTH)),
          (u32_small (nRows - HALF_LENGTH)) by (unfold HALF_LENGTH; lia).
  rewrite (u64_small nCols) by lia.
  rewrite interior_test. case_decide as Hi.
  - rewrite bool_decide_true by done.
    pose proof (interior_bounds it Hi) as Hb. cbv zeta in Hb.
    assert (0 ≤ it.1 * nCols) by (apply Z.mul_nonneg_nonneg; lia).
    rewrite (u64_small (it.1 * nCols)) by lia.
    rewrite (u64_small (it.1 * nCols + it.2)) by lia.
    rewrite !u64_small by lia.
    by apply update_point_spec.
  - by rewrite bool_decide_false by done.
Qed.

Lemma cpu_body_spec h it :
  heap_ok nRows nCols next prev vel h → interior nRows nCols it →
  cpu_body nCols dtDIVdxy vel next prev it h
  = let gid := it.1 * nCols + it.2 in
    Some (assign h next
            (<[Z.to_nat gid :=
                 stencil_cell nCols dtDIVdxy (deref h next) (deref h prev)
                              (deref h vel) gid]> (deref h next))).
Proof.
  intros Hh Hi.
  destruct (grid_ok_bounds _ _ Hgrid) as [HR HC].
  destruct Hgrid as (HR1 & HC1 & Hsz). unfold INT_MAX in *.
  pose proof (interior_bounds it Hi) as Hb. cbv zeta in Hb.
  assert (0 ≤ it.1 * nCols)
    by (apply Z.mul_nonneg_nonneg; unfold interior, HALF_LENGTH in Hi; lia).
  assert (0 ≤ it.2) by (unfold interior, HALF_LENGTH in Hi; lia).
  unfold cpu_body.
  rewrite (u32_small nCols) by lia.
  rewrite (u32_small (it.1 * nCols)) by lia.
  rewrite (u32_small (it.2 + it.1 * nCols)) by lia.
  rewrite (s32_small (it.2 + it.1 * nCols)) by lia.
  rewrite !s32_small by lia.
  replace (it.2 + it.1 * nCols) with (it.1 * nCols + it.2) by lia.
  by apply update_point_spec.
Qed.

Lemma cell_sweep_part_notin ran nx pv vl g :
  coords nCols g ∉ ran → 0 ≤ g →
  cell (sweep_part ran nRows nCols dtDIVdxy nx pv vl) g = cell nx g.
Proof.
  intros Hnd Hg. unfold cell, sweep_part.
  rewrite !list_lookup_total_alt, list_lookup_imap.
  destruct (nx !! Z.to_nat g); simpl; [|done].
  rewrite Z2Nat.id by done. rewrite bool_decide_false; [done|].
  by intros [_ ?].
Qed.

(** Running a kernel that meets the specification above over distinct
    work-items, from a state in which the items [ran] have run. *)
Lemma fold_kernel (kern : Z * Z → heap → option heap) l :
  ∀ ran h0,
    (∀ it h, it ∈ l → heap_ok nRows nCols next prev vel h →
       kern it h =
       if decide (interior nRows nCols it)
       then
         let gid := it.1 * nCols + it.2 in
         Some (assign h next
                 (<[Z.to_nat gid :=
                      stencil_cell nCols dtDIVdxy (deref h next)
                        (deref h prev) (deref h vel) gid]> (deref h next)))
       else Some h) →
    NoDup l →
    (∀ it, it ∈ l → in_range nRows nCols it) →
    (∀ it, it ∈ l → it ∉ ran) →
    heap_ok nRows nCols next prev vel h0 →
    fold_opt kern l
      (assign h0 next
         (sweep_part ran nRows nCols dtDIVdxy (deref h0 next) (deref h0 prev)
                     (deref h0 vel)))
    = Some (assign h0 next
              (sweep_part (l ++ ran) nRows nCols dtDIVdxy (deref h0 next)
                          (deref h0 prev) (deref h0 vel))).
Proof.
  induction l as [|it l IH]; intros ran h0 Hk Hnd Hr Hd Hh; [done|].
  apply NoDup_cons in Hnd as [Hit Hnd].
  assert (Hh' : heap_ok nRows nCols next prev vel (assign h0 next
            (sweep_part ran nRows nCols dtDIVdxy (deref h0 next)
               (deref h0 prev) (deref h0 vel)))).
  { apply heap_ok_assign; [done|]. by rewrite length_sweep_part. }
  destruct (Hr it) as [Hrow Hcol]; [by left|].
  destruct Hgrid as (HR1 & HC1 & Hsz).
  cbn [fold_opt]. rewrite Hk; [|by left|done].
  assert (Hext :
    sweep_part (l ++ it :: ran) nRows nCols dtDIVdxy (deref h0 next)
      (deref h0 prev) (deref h0 vel)
    = sweep_part ((it :: l) ++ ran) nRows nCols dtDIVdxy (deref h0 next)
        (deref h0 prev) (deref h0 vel)).
  { apply sweep_part_ext. intros it' _.
    rewrite !elem_of_app, !elem_of_cons. tauto. }
  rewrite <- Hext.
  assert (Hk' : ∀ it' h, it' ∈ l → heap_ok nRows nCols next prev vel h →
            kern it' h =
            if decide (interior nRows nCols it')
            then
              let gid := it'.1 * nCols + it'.2 in
              Some (assign h next
                      (<[Z.to_nat gid :=
                           stencil_cell nCols dtDIVdxy (deref h next)
                             (deref h prev) (deref h vel) gid]>
                         (deref h next)))
            else Some h).
  { intros. apply Hk; [by right | done]. }
  assert (Hd' : ∀ it', it' ∈ l → it' ∉ it :: ran).
  { intros it' Hin [->|?]%elem_of_cons; [done|].
    apply (Hd it'); [by right | done]. }
  assert (Hr' : ∀ it', it' ∈ l → in_range nRows nCols it').
  { intros. apply Hr. by right. }
  case_decide as Hi; cbn [mbind option_bind].
  - cbv zeta.
    rewrite deref_assign_eq, !deref_assign_ne, assign_assign by done.
    unfold stencil_cell at 1.
    rewrite cell_sweep_part_notin; cycle 1.
    { rewrite (coords_gid nCols it) by done. apply Hd. by left. }
    { apply Z.add_nonneg_nonneg; [apply Z.mul_nonneg_nonneg|]; lia. }
    fold (stencil_cell nCols dtDIVdxy (deref h0 next) (deref h0 prev)
            (deref h0 vel) (it.1 * nCols + it.2)).
    rewrite <- sweep_part_cons_interior; try done; try lia.
    + by apply IH.
    + apply Hd. by left.
  - rewrite <- (sweep_part_cons_halo nRows nCols dtDIVdxy it ran) by done.
    by apply IH.
Qed.
End KernelFacts.

Section RangeFacts.
Lemma elem_of_pairs (l1 l2 : list Z) (it : Z * Z) :
  it ∈ (i ← l1; j ← l2; [(i, j)]) ↔ it.1 ∈ l1 ∧ it.2 ∈ l2.
Proof.
  destruct it as [r c]. rewrite list_elem_of_bind. simpl. split.
  - intros (i & (j & Hj%list_elem_of_singleton & ?)%list_elem_of_bind & ?).
    by inversion Hj; subst.
  - intros [? ?]. exists r. split; [|done].
    apply list_elem_of_bind. exists c. split; [|done]. by left.
Qed.

Lemma NoDup_pairs (l1 l2 : list Z) :
  NoDup l1 → NoDup l2 → NoDup (i ← l1; j ← l2; [(i, j)]).
Proof.
  intros H1 H2. apply NoDup_bind; [| |done].
  - intros i1 i2 [r c] _ _ Hy1 Hy2.
    apply list_elem_of_bind in Hy1 as (j1 & Hj1%list_elem_of_singleton & _).
    apply list_elem_of_bind in Hy2 as (j2 & Hj2%list_elem_of_singleton & _).
    congruence.
  - intros i _. apply NoDup_bind; [| |done].
    + intros j1 j2 y _ _ Hy1%list_elem_of_singleton Hy2%list_elem_of_singleton.
      congruence.
    + intros. apply NoDup_singleton.
Qed.

Lemma elem_of_global_range nRows nCols it :
  it ∈ global_range nRows nCols ↔ 0 ≤ it.1 < nRows ∧ 0 ≤ it.2 < nCols.
Proof. unfold global_range. rewrite elem_of_pairs, !elem_of_seqZ. lia. Qed.

Lemma NoDup_global_range nRows nCols : NoDup (global_range nRows nCols).
Proof. apply NoDup_pairs; apply NoDup_seqZ. Qed.

Lemma elem_of_interior_range nRows nCols it :
  it ∈ interior_range nRows nCols ↔ interior nRows nCols it.
Proof.
  unfold interior_range, interior, HALF_LENGTH.
  rewrite elem_of_pairs, !elem_of_seqZ. lia.
Qed.

Lemma NoDup_interior_range nRows nCols : NoDup (interior_range nRows nCols).
Proof. apply NoDup_pairs; apply NoDup_seqZ. Qed.
End RangeFacts.

Section SweepRefinement.
Context {A : Arith}.
Context (nRows nCols : Z) (dtDIVdxy : F) (next prev vel : ptr).
Context (Hgrid : grid_ok nRows nCols).
Context (Hnp : next ≠ prev) (Hnv : next ≠ vel).
Implicit Types (h : heap).

(** One dispatch of the kernel over the global range, in any order. *)
Lemma parallel_for_sweep order h :
  heap_ok nRows nCols next prev vel h →
  order ≡ₚ global_range nRows nCols →
  parallel_for order
    (λ it, iso_2dfd_iteration_global it next prev vel dtDIVdxy
             (s32 nRows) (s32 nCols)) h
  = Some (assign h next
            (sweep nRows nCols dtDIVdxy (deref h next) (deref h prev)
                   (deref h vel))).
Proof.
  intros Hh Hperm. unfold parallel_for.
  pose proof (fold_kernel nRows nCols dtDIVdxy next prev vel Hgrid Hnp Hnv
    (λ it, iso_2dfd_iteration_global it next prev vel dtDIVdxy
             (s32 nRows) (s32 nCols)) order [] h) as Hf.
  rewrite sweep_part_nil, assign_deref, app_nil_r in Hf.
  rewrite Hf; try done.
  - do 2 f_equal. apply sweep_part_all. intros it Hi.
    rewrite Hperm. apply elem_of_global_range.
    unfold interior, HALF_LENGTH in Hi. lia.
  - intros it h' Hin Hh'. apply iso_2dfd_iteration_global_spec; try done.
    rewrite Hperm in Hin. by apply elem_of_global_range in Hin.
  - rewrite Hperm. apply NoDup_global_range.
  - intros it Hin. rewrite Hperm in Hin.
    by apply elem_of_global_range in Hin.
  - intros it _ []%elem_of_nil.
Qed.

(** The loop nest of the serial driver, with the local pointers [next]
    and [prev] as they are in the current time step. *)
Lemma cpu_loop_nest_sweep h :
  heap_ok nRows nCols next prev vel h →
  for_loop (Z.to_nat (u32 (u32 nRows - HALF_LENGTH))) 1
    (λ i, i <? u32 (u32 nRows - HALF_LENGTH)) (λ i, u32 (i + 1))
    (λ i h,
       for_loop (Z.to_nat (u32 (u32 nCols - HALF_LENGTH))) 1
         (λ j, j <? u32 (u32 nCols - HALF_LENGTH)) (λ j, u32 (j + 1))
         (λ j h,
            let gid := s32 (u32 (j + u32 (i * u32 nCols))) in
            update_point next prev vel dtDIVdxy gid
              (s32 (gid + 1)) (s32 (gid - 1))
              (s32 (gid + nCols)) (s32 (gid - nCols)) h)
         h)
    h
  = Some (assign h next
            (sweep nRows nCols dtDIVdxy (deref h next) (deref h prev)
                   (deref h vel))).
Proof.
  intros Hh.
  destruct (grid_ok_bounds _ _ Hgrid) as [HR HC].
  destruct Hgrid as (HR1 & HC1 & Hsz). unfold INT_MAX in *.
  assert (E1 : u32 (u32 nRows - HALF_LENGTH) = nRows - 1).
  { unfold HALF_LENGTH. rewrite (u32_small nRows), u32_small; lia. }
  assert (E2 : u32 (u32 nCols - HALF_LENGTH) = nCols - 1).
  { unfold HALF_LENGTH. rewrite (u32_small nCols), u32_small; lia. }
  rewrite E1, E2.
  rewrite (for_loop_up _ 1 (nRows - 1)); cycle 1.
  { intros i Hi. split; [apply Z.ltb_lt; lia | apply u32_small; lia]. }
  { apply Z.ltb_ge. lia. }
  { lia. }
  erewrite fold_opt_ext; cycle 1.
  { intros i h' Hi. apply elem_of_seqZ in Hi.
    apply (for_loop_up _ 1 (nCols - 1)).
    - intros j Hj. split; [apply Z.ltb_lt; lia | apply u32_small; lia].
    - apply Z.ltb_ge. lia.
    - lia. }
  replace (nRows - 1 - 1) with (nRows - 2) by lia.
  replace (nCols - 1 - 1) with (nCols - 2) by lia.
  rewrite (fold_opt_nested (λ it, cpu_body nCols dtDIVdxy vel next prev it)).
  fold (interior_range nRows nCols).
  change (fold_opt (λ it, cpu_body nCols dtDIVdxy vel next prev it))
    with (fold_opt (cpu_body nCols dtDIVdxy vel next prev)).
  pose proof (fold_kernel nRows nCols dtDIVdxy next prev vel Hgrid Hnp Hnv
    (cpu_body nCols dtDIVdxy vel next prev) (interior_range nRows nCols) [] h)
    as Hf.
  rewrite sweep_part_nil, assign_deref, app_nil_r in Hf.
  rewrite Hf; try done.
  - do 2 f_equal. apply sweep_part_all. intros it Hi.
    by apply elem_of_interior_range.
  - intros it h' Hin%elem_of_interior_range Hh'.
    rewrite decide_True by done. by apply (cpu_body_spec nRows).
  - apply NoDup_interior_range.
  - intros it Hin%elem_of_interior_range.
    unfold interior, HALF_LENGTH in Hin. split; lia.
  - intros it _ []%elem_of_nil.
Qed.
End SweepRefinement.

(** ** The time loops compute [time_steps] *)

Section DriverFacts.
Context {A : Arith}.
Context (nRows nCols : Z) (dtDIVdxy : F) (next prev vel : ptr).
Context (Hgrid : grid_ok nRows nCols).
Context (Hnp : next ≠ prev) (Hnv : next ≠ vel) (Hpv : prev ≠ vel).
Implicit Types (h : heap) (a b vl : list F).

#[local] Ltac ne := first [done | by apply not_eq_sym].
#[local] Ltac deref_simpl :=
  repeat (rewrite deref_assign_eq || rewrite deref_assign_ne by ne).

Lemma time_steps_grid n a b vl :
  is_grid nRows nCols a → is_grid nRows nCols b →
  is_grid nRows nCols (time_steps n nRows nCols dtDIVdxy a b vl).1 ∧
  is_grid nRows nCols (time_steps n nRows nCols dtDIVdxy a b vl).2.
Proof.
  intros Ha Hb. induction n as [|n [IHa IHb]]; [done|].
  simpl. unfold is_grid in *.
  destruct (Nat.even n); simpl; rewrite ?length_sweep; done.
Qed.

Lemma heap_ok_after_steps n h :
  heap_ok nRows nCols next prev vel h →
  heap_ok nRows nCols next prev vel (after_steps nRows nCols dtDIVdxy next prev vel n h).
Proof.
  intros (Hn & Hp & Hv). unfold after_steps, heap_ok.
  destruct (time_steps_grid n (deref h next) (deref h prev) (deref h vel))
    as [Ha Hb]; [done..|].
  by deref_simpl.
Qed.

Lemma heap_ok_swap h :
  heap_ok nRows nCols next prev vel h → heap_ok nRows nCols prev next vel h.
Proof. unfold heap_ok. tauto. Qed.

Lemma after_steps_0 h : after_steps nRows nCols dtDIVdxy next prev vel 0 h = h.
Proof. unfold after_steps. simpl. by rewrite !assign_deref. Qed.

(** An even step writes [next] from [prev]. *)
Lemma after_steps_even n h :
  Nat.even n = true →
  let hn := after_steps nRows nCols dtDIVdxy next prev vel n h in
  assign hn next
    (sweep nRows nCols dtDIVdxy (deref hn next) (deref hn prev) (deref hn vel))
  = after_steps nRows nCols dtDIVdxy next prev vel (S n) h.
Proof.
  intros He. cbv zeta. unfold after_steps. simpl. rewrite He. simpl.
  deref_simpl.
  rewrite (assign_comm _ next prev) by done.
  rewrite assign_assign. by rewrite (assign_comm _ prev next) by ne.
Qed.

(** An odd step writes [prev] from [next]. *)
Lemma after_steps_odd n h :
  Nat.even n = false →
  let hn := after_steps nRows nCols dtDIVdxy next prev vel n h in
  assign hn prev
    (sweep nRows nCols dtDIVdxy (deref hn prev) (deref hn next) (deref hn vel))
  = after_steps nRows nCols dtDIVdxy next prev vel (S n) h.
Proof.
  intros He. cbv zeta. unfold after_steps. simpl. rewrite He. simpl.
  deref_simpl.
  by rewrite assign_assign.
Qed.

Lemma parity_test (n : nat) : (Z.of_nat n mod 2 =? 0) = Nat.even n.
Proof.
  destruct (Nat.even n) eqn:He.
  - apply Nat.even_spec in He as [m ->]. apply Z.eqb_eq.
    rewrite Nat2Z.inj_mul, Z.mul_comm. apply Z_mod_mult.
  - apply Z.eqb_neq. rewrite <- Nat.negb_odd in He.
    apply negb_false_iff, Nat.odd_spec in He as [m ->].
    rewrite Nat2Z.inj_add, Nat2Z.inj_mul, Z.add_comm, Z.mul_comm.
    rewrite Z_mod_plus_full. done.
Qed.

(** The device time loop, whatever the order of the work-items. *)
Lemma device_time_loop_spec sched nIterations h :
  heap_ok nRows nCols next prev vel h →
  0 ≤ nIterations < 2 ^ 32 →
  (∀ k, 0 ≤ k < nIterations → sched k ≡ₚ global_range nRows nCols) →
  device_time_loop sched next prev vel dtDIVdxy nRows nCols nIterations h
  = Some (after_steps nRows nCols dtDIVdxy next prev vel (Z.to_nat nIterations) h).
Proof.
  intros Hh Hn Hsched. unfold device_time_loop.
  rewrite (for_loop_up _ 0 nIterations); cycle 1.
  { intros k Hk. split; [apply Z.ltb_lt; lia | apply u32_small; lia]. }
  { apply Z.ltb_ge. lia. }
  { lia. }
  rewrite Z.sub_0_r.
  rewrite <- (Z2Nat.id nIterations) at 1 by lia.
  assert (Hs : ∀ k, 0 ≤ k < Z.of_nat (Z.to_nat nIterations) →
                    sched k ≡ₚ global_range nRows nCols).
  { intros. apply Hsched. lia. }
  clear Hsched Hn. induction (Z.to_nat nIterations) as [|n IH].
  - simpl. by rewrite after_steps_0.
  - rewrite seqZ_S, fold_opt_app, IH by (intros; apply Hs; lia).
    cbn [mbind option_bind fold_opt]. rewrite Z.add_0_l, parity_test.
    pose proof (heap_ok_after_steps n h Hh) as Hh'.
    destruct (Nat.even n) eqn:He.
    + rewrite (parallel_for_sweep nRows nCols dtDIVdxy next prev vel)
        by first [done | apply Hs; lia].
      simpl. by rewrite after_steps_even.
    + rewrite (parallel_for_sweep nRows nCols dtDIVdxy prev next vel)
        by first [done | by apply not_eq_sym | by apply heap_ok_swap
                 | apply Hs; lia].
      simpl. by rewrite after_steps_odd.
Qed.

(** The serial driver; [nIterations] is the [int] it receives. *)
Lemma iso_2dfd_iteration_cpu_spec nIterations h :
  heap_ok nRows nCols next prev vel h →
  iso_2dfd_iteration_cpu next prev vel dtDIVdxy nRows nCols nIterations h
  = Some (after_steps nRows nCols dtDIVdxy next prev vel (Z.to_nat (u32 nIterations)) h).
Proof.
  intros Hh. unfold iso_2dfd_iteration_cpu.
  assert (Hn : 0 ≤ u32 nIterations < 2 ^ 32) by (apply Z.mod_pos_bound; lia).
  rewrite (for_loop_up _ 0 (u32 nIterations)); cycle 1.
  { intros k Hk. split; [apply Z.ltb_lt; lia | apply u32_small; lia]. }
  { apply Z.ltb_ge. lia. }
  { lia. }
  rewrite Z.sub_0_r.
  rewrite <- (Z2Nat.id (u32 nIterations)) at 1 by lia.
  clear Hn.
  match goal with |- ?x ≫= _ = _ =>
    assert (x = Some (if Nat.even (Z.to_nat (u32 nIterations))
                      then (next, prev,
                            after_steps nRows nCols dtDIVdxy next prev vel
                              (Z.to_nat (u32 nIterations)) h)
                      else (prev, next,
                            after_steps nRows nCols dtDIVdxy next prev vel
                              (Z.to_nat (u32 nIterations)) h)))
      as ->
  end; [|by destruct (Nat.even _)].
  induction (Z.to_nat (u32 nIterations)) as [|n IH].
  - simpl. by rewrite after_steps_0.
  - rewrite seqZ_S, fold_opt_app, IH.
    cbn [mbind option_bind fold_opt].
    pose proof (heap_ok_after_steps n h Hh) as Hh'.
    rewrite Nat.even_succ, <- Nat.negb_even.
    destruct (Nat.even n) eqn:He; simpl.
    + rewrite (cpu_loop_nest_sweep nRows nCols dtDIVdxy next prev vel)
        by done.
      simpl. by rewrite after_steps_even.
    + rewrite (cpu_loop_nest_sweep nRows nCols dtDIVdxy prev next vel)
        by first [done | by apply not_eq_sym | by apply heap_ok_swap].
      simpl. by rewrite after_steps_odd.
Qed.
End DriverFacts.

(** ** The validator scans the cells in order *)

Section RowMajor.
Lemma bind_singleton_fmap {X Y} (f : X → Y) (l : list X) :
  (l ≫= λ x, [f x]) = f <$> l.
Proof. induction l as [|x l IH]; [done|]. csimpl. by rewrite IH. Qed.

(** The work-items in row-major order are the offsets in order. *)
Lemma global_range_coords (nR : nat) (nC : Z) :
  0 ≤ nC →
  global_range (Z.of_nat nR) nC =
  coords nC <$> seqZ 0 (Z.of_nat nR * nC).
Proof.
  intros HnC. unfold global_range. induction nR as [|n IH].
  - done.
  - rewrite seqZ_S, bind_app, IH. csimpl. rewrite app_nil_r.
    replace (Z.of_nat (S n) * nC) with (Z.of_nat n * nC + nC) by lia.
    rewrite seqZ_app, fmap_app by lia. f_equal.
    rewrite Z.add_0_l, bind_singleton_fmap.
    rewrite (Z.add_comm 0), <- fmap_add_seqZ, <- list_fmap_compose.
    apply list_fmap_ext. intros i j Hj. apply lookup_seqZ in Hj as [-> Hj].
    simpl. symmetry.
    rewrite (Z.add_comm 0), Z.add_0_r.
    apply (coords_gid nC (Z.of_nat n, Z.of_nat i)). simpl. lia.
Qed.

Lemma global_range_lookup nR nC (k : nat) :
  0 ≤ nR → 0 ≤ nC → Z.of_nat k < nR * nC →
  global_range nR nC !! k = Some (coords nC (Z.of_nat k)).
Proof.
  intros HR HC Hk. rewrite <- (Z2Nat.id nR) by done.
  rewrite global_range_coords, list_lookup_fmap by done.
  rewrite lookup_seqZ_lt by lia. done.
Qed.

Lemma length_global_range nR nC :
  0 ≤ nR → 0 ≤ nC → length (global_range nR nC) = Z.to_nat (nR * nC).
Proof.
  intros HR HC. rewrite <- (Z2Nat.id nR) at 1 by done.
  rewrite global_range_coords, length_fmap, length_seqZ by done. lia.
Qed.
End RowMajor.

Section ValidatorFacts.
Context {A : Arith}.
Context (output reference : ptr) (dimx dimy radius : Z) (delta : F) (h : heap).
Context (Hx : 0 ≤ dimx < 2 ^ 63) (Hy : 0 ≤ dimy < 2 ^ 63).
Context (Hrad : 0 ≤ radius < 2 ^ 32).
Context (Hout : dimx * dimy ≤ Z.of_nat (length (deref h output))).
Context (Href : dimx * dimy ≤ Z.of_nat (length (deref h reference))).

(** The guard of the validator: the wrap-around of [dimx - radius] never
    shows. *)
Lemma compared_test ix iy :
  0 ≤ ix < dimx → 0 ≤ iy < dimy →
  (radius <=? ix) && (ix <? u64 (dimx - radius)) &&
  (radius <=? iy) && (iy <? u64 (dimy - radius))
  = bool_decide (compared dimx dimy radius ix iy).
Proof.
  intros Hix Hiy.
  assert (Hu : ∀ d i, 0 ≤ d < 2 ^ 63 → 0 ≤ i < d →
               (radius <=? i) && (i <? u64 (d - radius))
               = bool_decide (radius ≤ i < d - radius)).
  { intros d i Hd Hi. destruct (decide (radius ≤ d)).
    - rewrite u64_small by lia.
      destruct (bool_decide_reflect (radius ≤ i < d - radius)).
      + apply andb_true_iff. rewrite Z.leb_le, Z.ltb_lt. lia.
      + rewrite <- not_true_iff_false, andb_true_iff, Z.leb_le, Z.ltb_lt. lia.
    - rewrite bool_decide_false by lia.
      apply andb_false_iff. left. apply Z.leb_gt. lia. }
  rewrite <- andb_assoc, (Hu dimx ix), (Hu dimy iy) by done.
  unfold compared.
  destruct (bool_decide_reflect (radius ≤ ix < dimx - radius));
    destruct (bool_decide_reflect (radius ≤ iy < dimy - radius)); simpl;
    symmetry; (apply bool_decide_eq_true_2 || apply bool_decide_eq_false_2);
    tauto.
Qed.

Lemma we_prefix_offsets n :
  we_output (we_prefix (deref h output) (deref h reference) dimx dimy radius
               delta n) = Z.of_nat n ∧
  we_reference (we_prefix (deref h output) (deref h reference) dimx dimy
                  radius delta n) = Z.of_nat n.
Proof.
  induction n as [|n [IH1 IH2]]; [done|].
  unfold we_prefix in *. simpl. unfold we_step at 1 3.
  rewrite IH1. case_bool_decide; simpl; lia.
Qed.

Lemma within_epsilon_cell_spec (n : nat) :
  Z.of_nat n < dimx * dimy →
  let st := we_prefix (deref h output) (deref h reference) dimx dimy radius
              delta n in
  within_epsilon_cell output reference dimx dimy radius delta h
    (Z.of_nat n `div` dimx) (Z.of_nat n `mod` dimx) st
  = Some (we_prefix (deref h output) (deref h reference) dimx dimy radius
            delta (S n)).
Proof.
  intros Hn st. destruct (we_prefix_offsets n) as [Ho Hr]. fold st in Ho, Hr.
  assert (0 < dimx) by nia.
  assert (0 ≤ Z.of_nat n `mod` dimx < dimx) by (apply Z.mod_pos_bound; lia).
  assert (0 ≤ Z.of_nat n `div` dimx < dimy).
  { split; [apply Z.div_pos; lia|]. apply Z.div_lt_upper_bound; lia. }
  unfold within_epsilon_cell. rewrite compared_test by done.
  change (we_prefix _ _ _ _ _ _ (S n))
    with (we_step (deref h output) (deref h reference) dimx dimy radius
            delta st).
  unfold we_step. rewrite Ho, Hr.
  case_bool_decide; simpl.
  - rewrite !load_Some by lia. simpl.
    destruct (fgt _ delta); simpl;
      by rewrite ?orb_true_r, ?orb_false_r, ?app_nil_r, ?Ho, ?Hr.
  - by rewrite ?Ho, ?Hr.
Qed.

Lemma within_epsilon_spec :
  within_epsilon output reference dimx dimy radius delta h
  = let st := we_prefix (deref h output) (deref h reference) dimx dimy radius
                delta (Z.to_nat (dimx * dimy)) in
    Some (Validation (we_error st) (dsqrt (we_norm2 st)) (we_errFile st)).
Proof.
  unfold within_epsilon.
  rewrite (for_loop_up _ 0 dimy); cycle 1.
  { intros i Hi. split; [apply Z.ltb_lt; lia | apply u64_small; lia]. }
  { apply Z.ltb_ge. lia. }
  { lia. }
  erewrite fold_opt_ext; cycle 1.
  { intros i st Hi. apply (for_loop_up _ 0 dimx).
    - intros j Hj. split; [apply Z.ltb_lt; lia | apply u64_small; lia].
    - apply Z.ltb_ge. lia.
    - lia. }
  rewrite !Z.sub_0_r.
  rewrite (fold_opt_nested
    (λ it, within_epsilon_cell output reference dimx dimy radius delta h
             it.1 it.2)).
  fold (global_range dimy dimx).
  assert (Hfold : ∀ n : nat, Z.of_nat n ≤ dimy * dimx →
    fold_opt (λ it, within_epsilon_cell output reference dimx dimy radius
                      delta h it.1 it.2)
      (take n (global_range dimy dimx)) (WE false (dlit 0) [] 0 0)
    = Some (we_prefix (deref h output) (deref h reference) dimx dimy radius
              delta n)).
  { induction n as [|n IH]; intros Hn; [done|].
    rewrite (take_S_r _ _ (coords dimx (Z.of_nat n)))
      by (apply global_range_lookup; lia).
    rewrite fold_opt_app, IH by lia. cbn [mbind option_bind fold_opt].
    unfold coords. cbn [fst snd].
    rewrite within_epsilon_cell_spec by lia. done. }
  rewrite <- (firstn_all (global_range dimy dimx)).
  rewrite length_global_range by lia.
  rewrite Hfold by lia. simpl. by rewrite (Z.mul_comm dimy dimx).
Qed.
End ValidatorFacts.

(** ** Properties of [sweep] and [time_steps] *)

Section StepFacts.
Context {A : Arith}.
Context (nRows nCols : Z) (dtDIVdxy : F).
Implicit Types (a b nx pv vl : list F).

Lemma cell_sweep_interior nx pv vl g :
  0 ≤ g < Z.of_nat (length nx) → interior nRows nCols (coords nCols g) →
  cell (sweep nRows nCols dtDIVdxy nx pv vl) g
  = stencil_cell nCols dtDIVdxy nx pv vl g.
Proof.
  intros Hg Hi. unfold cell, sweep.
  rewrite list_lookup_total_alt, list_lookup_imap.
  destruct (lookup_lt_is_Some_2 nx (Z.to_nat g)) as [x ->]; [lia|]. simpl.
  rewrite Z2Nat.id by lia. by rewrite bool_decide_true.
Qed.



(** A step with an odd index leaves the first buffer alone, a step with an
    even index the second. *)
Lemma time_steps_odd_step n a b vl :
  Nat.even n = false →
  (time_steps (S n) nRows nCols dtDIVdxy a b vl).1
  = (time_steps n nRows nCols dtDIVdxy a b vl).1 ∧
  (time_steps (S n) nRows nCols dtDIVdxy a b vl).2
  = sweep nRows nCols dtDIVdxy (time_steps n nRows nCols dtDIVdxy a b vl).2
      (time_steps n nRows nCols dtDIVdxy a b vl).1 vl.
Proof. intros He. simpl. by rewrite He. Qed.

Lemma time_steps_even_step n a b vl :
  Nat.even n = true →
  (time_steps (S n) nRows nCols dtDIVdxy a b vl).1
  = sweep nRows nCols dtDIVdxy (time_steps n nRows nCols dtDIVdxy a b vl).1
      (time_steps n nRows nCols dtDIVdxy a b vl).2 vl ∧
  (time_steps (S n) nRows nCols dtDIVdxy a b vl).2
  = (time_steps n nRows nCols dtDIVdxy a b vl).2.
Proof. intros He. simpl. by rewrite He. Qed.
End StepFacts.

Section AfterSteps.
Context {A : Arith}.
Context (nRows nCols : Z) (dtDIVdxy : F) (next prev vel : ptr).
Context (Hnp : next ≠ prev) (Hnv : next ≠ vel) (Hpv : prev ≠ vel).

Lemma deref_after_steps n h :
  let ab := time_steps n nRows nCols dtDIVdxy
              (deref h next) (deref h prev) (deref h vel) in
  deref (after_steps nRows nCols dtDIVdxy next prev vel n h) next = ab.1 ∧
  deref (after_steps nRows nCols dtDIVdxy next prev vel n h) prev = ab.2 ∧
  deref (after_steps nRows nCols dtDIVdxy next prev vel n h) vel
  = deref h vel.
Proof.
  unfold after_steps. cbv zeta.
  rewrite deref_assign_ne, !deref_assign_eq, !deref_assign_ne
    by first [done | by apply not_eq_sym].
  done.
Qed.

Lemma deref_after_steps_other n h q :
  q ≠ next → q ≠ prev →
  deref (after_steps nRows nCols dtDIVdxy next prev vel n h) q = deref h q.
Proof.
  intros. unfold after_steps. cbv zeta.
  by rewrite !deref_assign_ne by first [done | by apply not_eq_sym].
Qed.
End AfterSteps.

Section ValidatorEqual.
Context {A : Arith}.

(** Two equal arrays: nothing is flagged, whatever cells are compared. *)
Lemma we_prefix_equal (l : list F) dimx dimy radius delta n :
  (∀ x, fgt (fabsf (fsub x x)) delta = false) →
  we_error (we_prefix l l dimx dimy radius delta n) = false ∧
  we_errFile (we_prefix l l dimx dimy radius delta n) = [].
Proof.
  intros Hlaw. induction n as [|n [IH1 IH2]]; [done|].
  unfold we_prefix in *. simpl. unfold we_step at 1 3.
  case_bool_decide; simpl; [|done].
  by rewrite Hlaw, IH1, IH2.
Qed.
End ValidatorEqual.

(** ** IEEE arithmetic *)

Section ArithFacts.
(** In IEEE arithmetic [x - x] is [+0] or a NaN, and neither exceeds a
    positive tolerance. *)
Lemma IEEE_self_difference (x : spec_float) :
  IEEE.gt (SFabs (SFsub 24 128 x x)) (IEEE.lit 24 128 0.1) = false.
Proof.
  destruct x as [[]|[]| |s m e]; try reflexivity.
  unfold SFsub. rewrite Z.sub_diag. reflexivity.
Qed.

(** The difference of a number with itself is [+0]. *)
Lemma IEEE_finite_self_difference (x : spec_float) :
  finite_float x = true → SFabs (SFsub 24 128 x x) = S754_zero false.
Proof.
  destruct x as [[]|[]| |s m e]; try done.
  intros _. unfold SFsub. by rewrite Z.sub_diag.
Qed.
End ArithFacts.

(** ** The two sweeps on every grid that [int] sizes describe *)

Section WideKernel.
Context {A : Arith}.
Context (nRows nCols : Z) (dtDIVdxy : F) (next prev vel : ptr).
Context (HR : 0 ≤ nRows ≤ INT_MAX) (HC : 0 ≤ nCols ≤ INT_MAX).
Context (Hnp : next ≠ prev) (Hnv : next ≠ vel).
Implicit Types (h : heap) (it : Z * Z).

(** An interior cell and its four neighbours are cells of the grid; the
    largest index used is at most [nRows * nCols - 2]. *)
Lemma interior_bounds_tight it :
  interior nRows nCols it →
  let gid := it.1 * nCols + it.2 in
  0 ≤ gid - nCols ∧ 0 ≤ gid - 1 ∧ gid + 1 < nRows * nCols ∧
  gid + nCols ≤ nRows * nCols - 2 ∧ 0 ≤ it.1 * nCols.
Proof.
  clear HR HC Hnp Hnv.
  unfold interior, HALF_LENGTH. destruct it as [r c]. simpl. intros [? ?].
  assert (1 * nCols ≤ r * nCols) by (apply Z.mul_le_mono_nonneg_r; lia).
  assert ((r + 1) * nCols ≤ (nRows - 1) * nCols)
    by (apply Z.mul_le_mono_nonneg_r; lia).
  lia.
Qed.

Lemma update_point_wide h it :
  heap_ok nRows nCols next prev vel h → interior nRows nCols it →
  let gid := it.1 * nCols + it.2 in
  update_point next prev vel dtDIVdxy gid (gid + 1) (gid - 1)
               (gid + nCols) (gid - nCols) h
  = Some (assign h next
            (<[Z.to_nat gid :=
                 stencil_cell nCols dtDIVdxy (deref h next) (deref h prev)
                              (deref h vel) gid]> (deref h next))).
Proof.
  clear HR HC.
  intros (Hn & Hp & Hv) Hi gid. unfold is_grid in *.
  pose proof (interior_bounds_tight it Hi) as Hb. cbv zeta in Hb.
  fold gid in Hb.
  assert (0 < nCols) by (unfold interior, HALF_LENGTH in Hi; lia).
  unfold update_point.
  rewrite !load_Some by lia. simpl.
  rewrite store_Some by lia. done.
Qed.

(** The kernel at a work-item of the global range: its index is a
    [size_t] and does not wrap. *)
Lemma kernel_wide h it :
  heap_ok nRows nCols next prev vel h → in_range nRows nCols it →
  iso_2dfd_iteration_global it next prev vel dtDIVdxy (s32 nRows) (s32 nCols) h
  = if decide (interior nRows nCols it)
    then
      let gid := it.1 * nCols + it.2 in
      Some (assign h next
              (<[Z.to_nat gid :=
                   stencil_cell nCols dtDIVdxy (deref h next) (deref h prev)
                                (deref h vel) gid]> (deref h next)))
    else Some h.
Proof.
  intros Hh [Hr Hc]. unfold INT_MAX in *.
  unfold iso_2dfd_iteration_global.
  rewrite !s32_small by lia.
  rewrite (u32_small nCols), (u32_small nRows) by lia.
  rewrite (u32_small (nCols - HALF_LENGTH)),
          (u32_small (nRows - HALF_LENGTH)) by (unfold HALF_LENGTH; lia).
  rewrite (u64_small nCols) by lia.
  rewrite interior_test. case_decide as Hi.
  - rewrite bool_decide_true by done.
    pose proof (interior_bounds_tight it Hi) as Hb. cbv zeta in Hb.
    assert (nRows * nCols ≤ 2 ^ 31 * 2 ^ 31) by nia.
    rewrite (u64_small (it.1 * nCols)) by lia.
    rewrite (u64_small (it.1 * nCols + it.2)) by lia.
    rewrite !u64_small by lia.
    by apply update_point_wide.
  - by rewrite bool_decide_false by done.
Qed.

(** Running a kernel that meets the specification above over distinct
    work-items, from a state in which the items [ran] have run. *)
Lemma fold_kernel_wide (kern : Z * Z → heap → option heap) l :
  ∀ ran h0,
    (∀ it h, it ∈ l → heap_ok nRows nCols next prev vel h →
       kern it h =
       if decide (interior nRows nCols it)
       then
         let gid := it.1 * nCols + it.2 in
         Some (assign h next
                 (<[Z.to_nat gid :=
                      stencil_cell nCols dtDIVdxy (deref h next)
                        (deref h prev) (deref h vel) gid]> (deref h next)))
       else Some h) →
    NoDup l →
    (∀ it, it ∈ l → in_range nRows nCols it) →
    (∀ it, it ∈ l → it ∉ ran) →
    heap_ok nRows nCols next prev vel h0 →
    fold_opt kern l
      (assign h0 next
         (sweep_part ran nRows nCols dtDIVdxy (deref h0 next) (deref h0 prev)
                     (deref h0 vel)))
    = Some (assign h0 next
              (sweep_part (l ++ ran) nRows nCols dtDIVdxy (deref h0 next)
                          (deref h0 prev) (deref h0 vel))).
Proof.
  clear HR HC.
  induction l as [|it l IH]; intros ran h0 Hk Hnd Hr Hd Hh; [done|].
  apply NoDup_cons in Hnd as [Hit Hnd].
  assert (Hh' : heap_ok nRows nCols next prev vel (assign h0 next
            (sweep_part ran nRows nCols dtDIVdxy (deref h0 next)
               (deref h0 prev) (deref h0 vel)))).
  { apply heap_ok_assign; [done..|]. by rewrite length_sweep_part. }
  destruct (Hr it) as [Hrow Hcol]; [by left|].
  cbn [fold_opt]. rewrite Hk; [|by left|done].
  assert (Hext :
    sweep_part (l ++ it :: ran) nRows nCols dtDIVdxy (deref h0 next)
      (deref h0 prev) (deref h0 vel)
    = sweep_part ((it :: l) ++ ran) nRows nCols dtDIVdxy (deref h0 next)
        (deref h0 prev) (deref h0 vel)).
  { apply sweep_part_ext. intros it' _.
    rewrite !elem_of_app, !elem_of_cons. tauto. }
  rewrite <- Hext.
  assert (Hk' : ∀ it' h, it' ∈ l → heap_ok nRows nCols next prev vel h →
            kern it' h =
            if decide (interior nRows nCols it')
            then
              let gid := it'.1 * nCols + it'.2 in
              Some (assign h next
                      (<[Z.to_nat gid :=
                           stencil_cell nCols dtDIVdxy (deref h next)
                             (deref h prev) (deref h vel) gid]>
                         (deref h next)))
            else Some h).
  { intros. apply Hk; [by right | done]. }
  assert (Hd' : ∀ it', it' ∈ l → it' ∉ it :: ran).
  { intros it' Hin [->|?]%elem_of_cons; [done|].
    apply (Hd it'); [by right | done]. }
  assert (Hr' : ∀ it', it' ∈ l → in_range nRows nCols it').
  { intros. apply Hr. by right. }
  case_decide as Hi; cbn [mbind option_bind].
  - cbv zeta.
    rewrite deref_assign_eq, !deref_assign_ne, assign_assign by done.
    unfold stencil_cell at 1.
    rewrite cell_sweep_part_notin; cycle 1.
    { rewrite (coords_gid nCols it) by done. apply Hd. by left. }
    { apply Z.add_nonneg_nonneg; [apply Z.mul_nonneg_nonneg|]; lia. }
    fold (stencil_cell nCols dtDIVdxy (deref h0 next) (deref h0 prev)
            (deref h0 vel) (it.1 * nCols + it.2)).
    rewrite <- sweep_part_cons_interior; try done; try lia.
    + by apply IH.
    + apply Hd. by left.
  - rewrite <- (sweep_part_cons_halo nRows nCols dtDIVdxy it ran) by done.
    by apply IH.
Qed.

(** One dispatch of the kernel over the global range, in any order. *)
Lemma parallel_for_wide order h :
  heap_ok nRows nCols next prev vel h →
  order ≡ₚ global_range nRows nCols →
  parallel_for order
    (λ it, iso_2dfd_iteration_global it next prev vel dtDIVdxy
             (s32 nRows) (s32 nCols)) h
  = Some (assign h next
            (sweep nRows nCols dtDIVdxy (deref h next) (deref h prev)
                   (deref h vel))).
Proof.
  intros Hh Hperm. unfold parallel_for.
  pose proof (fold_kernel_wide
    (λ it, iso_2dfd_iteration_global it next prev vel dtDIVdxy
             (s32 nRows) (s32 nCols)) order [] h) as Hf.
  rewrite sweep_part_nil, assign_deref, app_nil_r in Hf.
  rewrite Hf; try done.
  - do 2 f_equal. apply sweep_part_all. intros it Hi.
    rewrite Hperm. apply elem_of_global_range.
    unfold interior, HALF_LENGTH in Hi. lia.
  - intros it h' Hin Hh'. apply kernel_wide; try done.
    rewrite Hperm in Hin. by apply elem_of_global_range in Hin.
  - rewrite Hperm. apply NoDup_global_range.
  - intros it Hin. rewrite Hperm in Hin.
    by apply elem_of_global_range in Hin.
  - intros it _ []%elem_of_nil.
Qed.
End WideKernel.

Section WideSerial.
Context {A : Arith}.
Context (nRows nCols : Z) (dtDIVdxy : F) (next prev vel : ptr).
Context (HR : 1 ≤ nRows ≤ INT_MAX) (HC : 1 ≤ nCols ≤ INT_MAX).
Context (Hsize : nRows * nCols ≤ 2 ^ 31 + 1 ∨ nRows ≤ 2 ∨ nCols ≤ 2).
Context (Hnp : next ≠ prev) (Hnv : next ≠ vel).
Implicit Types (h : heap) (it : Z * Z).

(** The body of the serial loop nest at an interior point: no index
    wraps. *)
Lemma cpu_body_wide h it :
  heap_ok nRows nCols next prev vel h → interior nRows nCols it →
  cpu_body nCols dtDIVdxy vel next prev it h
  = let gid := it.1 * nCols + it.2 in
    Some (assign h next
            (<[Z.to_nat gid :=
                 stencil_cell nCols dtDIVdxy (deref h next) (deref h prev)
                              (deref h vel) gid]> (deref h next))).
Proof.
  intros Hh Hi. unfold INT_MAX in *.
  pose proof (interior_bounds_tight nRows nCols it Hi) as Hb. cbv zeta in Hb.
  assert (0 ≤ it.2 ∧ 3 ≤ nRows ∧ 3 ≤ nCols)
    by (unfold interior, HALF_LENGTH in Hi; lia).
  assert (nRows * nCols ≤ 2 ^ 31 + 1) by lia.
  unfold cpu_body.
  rewrite (u32_small nCols) by lia.
  rewrite (u32_small (it.1 * nCols)) by lia.
  rewrite (u32_small (it.2 + it.1 * nCols)) by lia.
  rewrite (s32_small (it.2 + it.1 * nCols)) by lia.
  rewrite !s32_small by lia.
  replace (it.2 + it.1 * nCols) with (it.1 * nCols + it.2) by lia.
  by apply (update_point_wide nRows).
Qed.

(** The loop nest of the serial driver, with the local pointers [next]
    and [prev] as they are in the current time step. *)
Lemma cpu_loop_nest_wide h :
  heap_ok nRows nCols next prev vel h →
  for_loop (Z.to_nat (u32 (u32 nRows - HALF_LENGTH))) 1
    (λ i, i <? u32 (u32 nRows - HALF_LENGTH)) (λ i, u32 (i + 1))
    (λ i h,
       for_loop (Z.to_nat (u32 (u32 nCols - HALF_LENGTH))) 1
         (λ j, j <? u32 (u32 nCols - HALF_LENGTH)) (λ j, u32 (j + 1))
         (λ j h,
            let gid := s32 (u32 (j + u32 (i * u32 nCols))) in
            update_point next prev vel dtDIVdxy gid
              (s32 (gid + 1)) (s32 (gid - 1))
              (s32 (gid + nCols)) (s32 (gid - nCols)) h)
         h)
    h
  = Some (assign h next
            (sweep nRows nCols dtDIVdxy (deref h next) (deref h prev)
                   (deref h vel))).
Proof.
  intros Hh. unfold INT_MAX in *.
  assert (E1 : u32 (u32 nRows - HALF_LENGTH) = nRows - 1).
  { unfold HALF_LENGTH. rewrite (u32_small nRows), u32_small; lia. }
  assert (E2 : u32 (u32 nCols - HALF_LENGTH) = nCols - 1).
  { unfold HALF_LENGTH. rewrite (u32_small nCols), u32_small; lia. }
  rewrite E1, E2.
  rewrite (for_loop_up _ 1 (nRows - 1)); cycle 1.
  { intros i Hi. split; [apply Z.ltb_lt; lia | apply u32_small; lia]. }
  { apply Z.ltb_ge. lia. }
  { lia. }
  erewrite fold_opt_ext; cycle 1.
  { intros i h' Hi. apply elem_of_seqZ in Hi.
    apply (for_loop_up _ 1 (nCols - 1)).
    - intros j Hj. split; [apply Z.ltb_lt; lia | apply u32_small; lia].
    - apply Z.ltb_ge. lia.
    - lia. }
  replace (nRows - 1 - 1) with (nRows - 2) by lia.
  replace (nCols - 1 - 1) with (nCols - 2) by lia.
  rewrite (fold_opt_nested (λ it, cpu_body nCols dtDIVdxy vel next prev it)).
  fold (interior_range nRows nCols).
  change (fold_opt (λ it, cpu_body nCols dtDIVdxy vel next prev it))
    with (fold_opt (cpu_body nCols dtDIVdxy vel next prev)).
  pose proof (fold_kernel_wide nRows nCols dtDIVdxy next prev vel Hnp Hnv
    (cpu_body nCols dtDIVdxy vel next prev) (interior_range nRows nCols) [] h)
    as Hf.
  rewrite sweep_part_nil, assign_deref, app_nil_r in Hf.
  rewrite Hf; try done.
  - do 2 f_equal. apply sweep_part_all. intros it Hi.
    by apply elem_of_interior_range.
  - intros it h' Hin%elem_of_interior_range Hh'.
    rewrite decide_True by done. by apply cpu_body_wide.
  - apply NoDup_interior_range.
  - intros it Hin%elem_of_interior_range.
    unfold interior, HALF_LENGTH in Hin. split; lia.
  - intros it _ []%elem_of_nil.
Qed.
End WideSerial.

Section WideDrivers.
Context {A : Arith}.
Context (nRows nCols : Z) (dtDIVdxy : F) (next prev vel : ptr).
Context (Hnp : next ≠ prev) (Hnv : next ≠ vel) (Hpv : prev ≠ vel).
Implicit Types (h : heap).

(** The device time loop on every grid that [int] sizes describe,
    whatever the order of the work-items. *)
Lemma device_time_loop_wide sched nIterations h :
  0 ≤ nRows ≤ INT_MAX → 0 ≤ nCols ≤ INT_MAX →
  heap_ok nRows nCols next prev vel h →
  0 ≤ nIterations < 2 ^ 32 →
  (∀ k, 0 ≤ k < nIterations → sched k ≡ₚ global_range nRows nCols) →
  device_time_loop sched next prev vel dtDIVdxy nRows nCols nIterations h
  = Some (after_steps nRows nCols dtDIVdxy next prev vel
            (Z.to_nat nIterations) h).
Proof.
  intros HR HC Hh Hn Hsched. unfold device_time_loop.
  rewrite (for_loop_up _ 0 nIterations); cycle 1.
  { intros k Hk. split; [apply Z.ltb_lt; lia | apply u32_small; lia]. }
  { apply Z.ltb_ge. lia. }
  { lia. }
  rewrite Z.sub_0_r.
  rewrite <- (Z2Nat.id nIterations) at 1 by lia.
  assert (Hs : ∀ k, 0 ≤ k < Z.of_nat (Z.to_nat nIterations) →
                    sched k ≡ₚ global_range nRows nCols).
  { intros. apply Hsched. lia. }
  clear Hsched Hn. induction (Z.to_nat nIterations) as [|n IH].
  - simpl. by rewrite after_steps_0.
  - rewrite seqZ_S, fold_opt_app, IH by (intros; apply Hs; lia).
    cbn [mbind option_bind fold_opt]. rewrite Z.add_0_l, parity_test.
    assert (Hh' : heap_ok nRows nCols next prev vel
                    (after_steps nRows nCols dtDIVdxy next prev vel n h))
      by (by apply heap_ok_after_steps).
    destruct (Nat.even n) eqn:He.
    + rewrite (parallel_for_wide nRows nCols dtDIVdxy next prev vel)
        by first [done | apply Hs; lia].
      simpl. by rewrite after_steps_even.
    + rewrite (parallel_for_wide nRows nCols dtDIVdxy prev next vel)
        by first [done | by apply not_eq_sym | by apply heap_ok_swap
                 | apply Hs; lia].
      simpl. by rewrite after_steps_odd.
Qed.

(** The serial driver on every grid on which none of its indices wraps;
    [nIterations] is the [int] it receives. *)
Lemma iso_2dfd_iteration_cpu_wide nIterations h :
  1 ≤ nRows ≤ INT_MAX → 1 ≤ nCols ≤ INT_MAX →
  nRows * nCols ≤ 2 ^ 31 + 1 ∨ nRows ≤ 2 ∨ nCols ≤ 2 →
  heap_ok nRows nCols next prev vel h →
  iso_2dfd_iteration_cpu next prev vel dtDIVdxy nRows nCols nIterations h
  = Some (after_steps nRows nCols dtDIVdxy next prev vel
            (Z.to_nat (u32 nIterations)) h).
Proof.
  intros HR HC Hsize Hh. unfold iso_2dfd_iteration_cpu.
  assert (Hn : 0 ≤ u32 nIterations < 2 ^ 32) by (apply Z.mod_pos_bound; lia).
  rewrite (for_loop_up _ 0 (u32 nIterations)); cycle 1.
  { intros k Hk. split; [apply Z.ltb_lt; lia | apply u32_small; lia]. }
  { apply Z.ltb_ge. lia. }
  { lia. }
  rewrite Z.sub_0_r.
  rewrite <- (Z2Nat.id (u32 nIterations)) at 1 by lia.
  clear Hn.
  match goal with |- ?x ≫= _ = _ =>
    assert (x = Some (if Nat.even (Z.to_nat (u32 nIterations))
                      then (next, prev,
                            after_steps nRows nCols dtDIVdxy next prev vel
                              (Z.to_nat (u32 nIterations)) h)
                      else (prev, next,
                            after_steps nRows nCols dtDIVdxy next prev vel
                              (Z.to_nat (u32 nIterations)) h)))
      as ->
  end; [|by destruct (Nat.even _)].
  induction (Z.to_nat (u32 nIterations)) as [|n IH].
  - simpl. by rewrite after_steps_0.
  - rewrite seqZ_S, fold_opt_app, IH.
    cbn [mbind option_bind fold_opt].
    assert (Hh' : heap_ok nRows nCols next prev vel
                    (after_steps nRows nCols dtDIVdxy next prev vel n h))
      by (by apply heap_ok_after_steps).
    rewrite Nat.even_succ, <- Nat.negb_even.
    destruct (Nat.even n) eqn:He; simpl.
    + rewrite (cpu_loop_nest_wide nRows nCols dtDIVdxy next prev vel)
        by done.
      simpl. by rewrite after_steps_even.
    + rewrite (cpu_loop_nest_wide nRows nCols dtDIVdxy prev next vel)
        by first [done | by apply not_eq_sym | by apply heap_ok_swap].
      simpl. by rewrite after_steps_odd.
Qed.
End WideDrivers.

(** ** Where the [int] index of the serial driver wraps *)

(** On a grid with interior points and at least [2^31 + 2] cells there is
    an interior point [(i, j)] whose index below, [gid + nCols], lies
    between [2^31] and [2^32]. *)
Lemma band_point (nRows nCols : Z) :
  3 ≤ nRows ≤ INT_MAX → 3 ≤ nCols ≤ INT_MAX →
  2 ^ 31 + 2 ≤ nRows * nCols →
  ∃ i j, 1 ≤ i ≤ nRows - 2 ∧ 1 ≤ j ≤ nCols - 2 ∧
         2 ^ 31 ≤ (i + 1) * nCols + j < 2 ^ 32.
Proof.
  unfold INT_MAX. intros HR HC Hbig.
  destruct (decide (2 ^ 31 ≤ 2 * nCols + 1)) as [Hfirst|Hfirst].
  { exists 1, 1. lia. }
  pose proof (Z.div_mod (2 ^ 31) nCols ltac:(lia)) as Hdm.
  pose proof (Z.mod_pos_bound (2 ^ 31) nCols ltac:(lia)) as Hr.
  set (q := 2 ^ 31 `div` nCols) in *. set (r := 2 ^ 31 `mod` nCols) in *.
  assert (Hq2 : 2 ≤ q) by nia.
  destruct (decide (r = 0)) as [Hr0|Hr0].
  { exists (q - 1), 1. assert (q < nRows) by nia. nia. }
  destruct (decide (r = nCols - 1)) as [Hr1|Hr1].
  { exists q, 1. assert (q + 1 < nRows) by nia. nia. }
  exists (q - 1), r. assert (q < nRows) by nia. nia.
Qed.

Section SerialFault.
Context {A : Arith}.
Context (next prev vel : ptr) (dtDIVdxy : F) (nRows nCols : Z).
Context (HR : 3 ≤ nRows ≤ INT_MAX) (HC : 3 ≤ nCols ≤ INT_MAX).

(** The body of the serial loop nest at such a point faults in every
    state: [gid] or [gid + nCols] is a negative [int]. *)
Lemma cpu_body_fault i j h :
  1 ≤ i ≤ nRows - 2 → 1 ≤ j ≤ nCols - 2 →
  2 ^ 31 ≤ (i + 1) * nCols + j < 2 ^ 32 →
  (let gid := s32 (u32 (j + u32 (i * u32 nCols))) in
   update_point next prev vel dtDIVdxy gid (s32 (gid + 1)) (s32 (gid - 1))
     (s32 (gid + nCols)) (s32 (gid - nCols)) h) = None.
Proof.
  unfold INT_MAX in *. intros Hi Hj Hband. cbv zeta.
  assert (Hm : 0 ≤ i * nCols) by nia.
  rewrite (u32_small nCols) by lia.
  rewrite (u32_small (i * nCols)) by nia.
  rewrite (u32_small (j + i * nCols)) by nia.
  set (g := j + i * nCols).
  assert (Hg : 0 ≤ g < 2 ^ 32 ∧ 2 ^ 31 ≤ g + nCols < 2 ^ 32) by (unfold g; nia).
  assert (Hneg : ∀ x, 2 ^ 31 ≤ x < 2 ^ 32 → s32 x < 0).
  { intros x Hx. unfold s32.
    replace (x + 2 ^ 31) with (x - 2 ^ 31 + 1 * 2 ^ 32) by lia.
    rewrite Z_mod_plus_full, Z.mod_small; lia. }
  assert (Hload : ∀ x, x < 0 → load h prev x = None).
  { intros x Hx. apply load_None. lia. }
  unfold update_point.
  destruct (decide (g < 2 ^ 31)) as [Hlt|Hge].
  - rewrite (s32_small g) by lia.
    destruct (load h prev (s32 (g + 1))); [|done].
    destruct (load h prev g); [|done].
    destruct (load h prev (s32 (g - 1))); [|done].
    cbn [mbind option_bind].
    rewrite (Hload (s32 (g + nCols))); [done|]. apply Hneg. lia.
  - destruct (load h prev (s32 (s32 g + 1))); [|done].
    cbn [mbind option_bind].
    rewrite (Hload (s32 g)); [done|]. apply Hneg. lia.
Qed.

(** On a grid with interior points and at least [2^31 + 2] cells the
    serial driver faults in its first time step, whatever the arrays
    are. *)
Lemma iso_2dfd_iteration_cpu_fault nIterations h :
  2 ^ 31 + 2 ≤ nRows * nCols →
  1 ≤ u32 nIterations →
  iso_2dfd_iteration_cpu next prev vel dtDIVdxy nRows nCols nIterations h
  = None.
Proof.
  intros Hbig Hn.
  destruct (band_point nRows nCols HR HC Hbig) as (i0 & j0 & Hi & Hj & Hband).
  unfold INT_MAX in *.
  unfold iso_2dfd_iteration_cpu.
  rewrite for_loop_fault; [done| |].
  { apply Z.ltb_lt. lia. }
  apply bind_None. left.
  unfold HALF_LENGTH.
  rewrite (u32_small nRows), (u32_small nCols) by lia.
  rewrite (u32_small (nRows - 1)), (u32_small (nCols - 1)) by lia.
  rewrite (for_loop_up _ 1 (nRows - 1)); cycle 1.
  { intros i Hi'. split; [apply Z.ltb_lt; lia | apply u32_small; lia]. }
  { apply Z.ltb_ge. lia. }
  { lia. }
  apply (fold_opt_fault _ _ i0).
  { apply elem_of_seqZ. lia. }
  intros st.
  rewrite (for_loop_up _ 1 (nCols - 1)); cycle 1.
  { intros j Hj'. split; [apply Z.ltb_lt; lia | apply u32_small; lia]. }
  { apply Z.ltb_ge. lia. }
  { lia. }
  apply (fold_opt_fault _ _ j0).
  { apply elem_of_seqZ. lia. }
  intros st'.
  pose proof (cpu_body_fault i0 j0 st' Hi Hj Hband) as Hf. cbv zeta in Hf.
  rewrite (u32_small nCols) in Hf by lia. exact Hf.
Qed.
End SerialFault.

Section SerialIdle.
Context {A : Arith}.

End SerialIdle.

(** * The claims *)

(** [run] proves [e = v] by evaluating the closed term [e]; when [v] has
    holes they are filled with what [e] evaluates to. *)
Ltac run :=
  lazymatch goal with
  | |- ?e = _ =>
      let v := eval vm_compute in e in
      transitivity v; [vm_cast_no_check (eq_refl v) | reflexivity]
  end.

(** [run_eq] proves [e = v] for closed [e] and [v] by evaluating both. *)
Ltac run_eq :=
  lazymatch goal with
  | |- ?e = _ =>
      let v := eval vm_compute in e in vm_cast_no_check (@eq_refl _ v)
  end.

(** ** C1: cross-mode equivalence *)

(** C1, amended.  For a grid with at least one row and one column that has at
    most [2^31 + 1] cells or no interior point (the grids on which the [int]
    index of the serial driver does not wrap) and for every iteration count,
    the device time loop (the kernel dispatched over all work-items in any
    order at each step, buffer roles alternating with the parity of the step)
    and the serial driver, started from identical [prev], [next] and [vel]
    fields, both return, and leave identical fields: the device's [next_base]
    equals the serial [next_cpu] at every point, and so do the two
    [prev_base].  Hence the validator, run on [next_base] and [next_cpu],
    reports [error = false] and writes no diagnostic, in every arithmetic in
    which the difference of a value with itself does not exceed the tolerance.
    ([main_validates] follows the two runs through [main], with the
    initialization before each of them.) *)
Theorem cross_mode_equivalence `{A : Arith} (sched : Z → list (Z * Z))
    (nRows nCols nIterations : Z) (dtDIVdxy delta : F) (h : heap) :
  1 ≤ nRows ≤ INT_MAX → 1 ≤ nCols ≤ INT_MAX →
  nRows * nCols ≤ 2 ^ 31 + 1 ∨ nRows ≤ 2 ∨ nCols ≤ 2 →
  0 ≤ nIterations < 2 ^ 32 →
  (∀ k, 0 ≤ k < nIterations → sched k ≡ₚ global_range nRows nCols) →
  is_grid nRows nCols (deref h next_base) →
  is_grid nRows nCols (deref h prev_base) →
  is_grid nRows nCols (deref h vel_base) →
  deref h next_cpu = deref h next_base →
  (∀ x, fgt (fabsf (fsub x x)) delta = false) →
  ∃ hd hs,
    device_time_loop sched next_base prev_base vel_base dtDIVdxy
      nRows nCols nIterations h = Some hd ∧
    iso_2dfd_iteration_cpu next_cpu prev_base vel_base dtDIVdxy
      (s32 nRows) (s32 nCols) (s32 nIterations) h = Some hs ∧
    deref hd next_base = deref hs next_cpu ∧
    deref hd prev_base = deref hs prev_base ∧
    ∀ hv,
      deref hv next_base = deref hd next_base →
      deref hv next_cpu = deref hs next_cpu →
      ∃ v,
        within_epsilon next_base next_cpu nRows nCols HALF_LENGTH delta hv
        = Some v ∧
        val_error v = false ∧ val_errFile v = [].
Proof.
  intros HR HC Hsize Hn Hsched Hnx Hpv Hvl Heq Hlaw.
  eexists _, _. split_and!.
  - apply (device_time_loop_wide nRows nCols);
      done || unfold INT_MAX in *; lia.
  - unfold INT_MAX in *. rewrite !s32_small by lia.
    apply (iso_2dfd_iteration_cpu_wide nRows nCols);
      try (done || unfold INT_MAX; lia).
    unfold heap_ok. by rewrite Heq.
  - rewrite u32_s32, u32_small by done.
    destruct (deref_after_steps nRows nCols dtDIVdxy next_base prev_base
                vel_base ltac:(done) ltac:(done) ltac:(done)
                (Z.to_nat nIterations) h) as (-> & _ & _).
    destruct (deref_after_steps nRows nCols dtDIVdxy next_cpu prev_base
                vel_base ltac:(done) ltac:(done) ltac:(done)
                (Z.to_nat nIterations) h) as (-> & _ & _).
    by rewrite Heq.
  - rewrite u32_s32, u32_small by done.
    destruct (deref_after_steps nRows nCols dtDIVdxy next_base prev_base
                vel_base ltac:(done) ltac:(done) ltac:(done)
                (Z.to_nat nIterations) h) as (_ & -> & _).
    destruct (deref_after_steps nRows nCols dtDIVdxy next_cpu prev_base
                vel_base ltac:(done) ltac:(done) ltac:(done)
                (Z.to_nat nIterations) h) as (_ & -> & _).
    by rewrite Heq.
  - intros hv Hv1 Hv2.
    assert (Hsame : deref hv next_base = deref hv next_cpu).
    { rewrite Hv1, Hv2. rewrite u32_s32, u32_small by done.
      destruct (deref_after_steps nRows nCols dtDIVdxy next_base prev_base
                  vel_base ltac:(done) ltac:(done) ltac:(done)
                  (Z.to_nat nIterations) h) as (-> & _ & _).
      destruct (deref_after_steps nRows nCols dtDIVdxy next_cpu prev_base
                  vel_base ltac:(done) ltac:(done) ltac:(done)
                  (Z.to_nat nIterations) h) as (-> & _ & _).
      by rewrite Heq. }
    assert (Hlen : is_grid nRows nCols (deref hv next_base)).
    { rewrite Hv1.
      destruct (deref_after_steps nRows nCols dtDIVdxy next_base prev_base
                  vel_base ltac:(done) ltac:(done) ltac:(done)
                  (Z.to_nat nIterations) h) as (-> & _ & _).
      by apply time_steps_grid. }
    unfold is_grid, INT_MAX in *.
    rewrite within_epsilon_spec;
      [|lia|lia|unfold HALF_LENGTH; lia|lia|rewrite <- Hsame; lia].
    cbv zeta. rewrite <- Hsame.
    eexists. split; [done|]. simpl. by apply we_prefix_equal.
Qed.

Lemma cross_mode_equivalence_witness :
  ∃ hd hs : @heap IEEE.arith,
    device_time_loop (λ k, Sample.backwards k 3 3) next_base prev_base vel_base
      Sample.dtDIVdxy 3 3 5 Sample.heap3 = Some hd ∧
    iso_2dfd_iteration_cpu next_cpu prev_base vel_base Sample.dtDIVdxy
      (s32 3) (s32 3) (s32 5) Sample.heap3 = Some hs ∧
    deref hd next_base = deref hs next_cpu ∧
    deref hd prev_base = deref hs prev_base ∧
    ∀ hv,
      deref hv next_base = deref hd next_base →
      deref hv next_cpu = deref hs next_cpu →
      ∃ v,
        within_epsilon next_base next_cpu 3 3 HALF_LENGTH (flit 0.1) hv
        = Some v ∧
        val_error v = false ∧ val_errFile v = [].
Proof.
  apply cross_mode_equivalence.
  - unfold INT_MAX. lia.
  - unfold INT_MAX. lia.
  - lia.
  - lia.
  - intros k _. apply reverse_Permutation.
  - reflexivity.
  - reflexivity.
  - reflexivity.
  - reflexivity.
  - exact IEEE_self_difference.
Defined.

(** C1, as stated, fails: on the grid of 46342 x 46342 cells, and on a grid
    without rows, the device loop completes its time step and the serial
    driver, started from the same arrays, faults: there is no serial field
    to agree with. *)
Lemma cross_mode_serial_faults :
  (∀ (A : Arith) (x : F),
     let n := 46342 * 46342 in
     let field := replicate (Z.to_nat n) x in
     let h := Heap field field field field in
     (∃ hd,
        device_time_loop (λ k, global_range 46342 46342)
          next_base prev_base vel_base Sample.dtDIVdxy 46342 46342 1 h
        = Some hd) ∧
     iso_2dfd_iteration_cpu next_cpu prev_base vel_base Sample.dtDIVdxy
       (s32 46342) (s32 46342) (s32 1) h = None) ∧
  (let h : @heap IEEE.arith := Heap [] [] [] [] in
   device_time_loop (λ k, global_range 0 5) next_base prev_base vel_base
     Sample.dtDIVdxy 0 5 1 h = Some h ∧
   iso_2dfd_iteration_cpu next_cpu prev_base vel_base Sample.dtDIVdxy
     (s32 0) (s32 5) (s32 1) h = None).
Proof.
  split.
  - intros A x n field h. split.
    + eexists.
      apply (device_time_loop_wide 46342 46342);
        [discriminate|discriminate|discriminate
        |unfold INT_MAX; lia|unfold INT_MAX; lia| |lia|done].
      assert (Hlen : is_grid 46342 46342 field).
      { unfold is_grid, field. rewrite length_replicate. unfold n. lia. }
      unfold heap_ok. split_and!; exact Hlen.
    + rewrite !(s32_small 46342), (s32_small 1) by lia.
      apply iso_2dfd_iteration_cpu_fault.
      * unfold INT_MAX. lia.
      * unfold INT_MAX. lia.
      * lia.
      * rewrite u32_small; lia.
  - cbv zeta. split.
    + reflexivity.
    + change (s32 0) with 0. change (s32 5) with 5. change (s32 1) with 1.
      unfold iso_2dfd_iteration_cpu.
      rewrite for_loop_fault; [done|by vm_compute|].
      apply bind_None. left.
      apply for_loop_fault; [by vm_compute|].
      apply for_loop_fault; [by vm_compute|].
      done.
Qed.

(** ** C3: halo invariance *)



(** ** C2: the stencil formula *)

(** C2, as stated, fails in [float] arithmetic: the value the code stores
    is not the value of the formula.  On the 3 x 3 grid [Sample.stencil3]
    one step of either driver stores [8522826 * 2^-26] at the interior
    point, and the formula
    [2*p - n + ((p_r - 2*p + p_l) + (p_d - 2*p + p_u)) * dtDIVdxy * v],
    each operation taken in [float] from left to right, gives
    [8522825 * 2^-26]. *)
Lemma stencil_formula_not_in_float :
  let h : @heap IEEE.arith := Sample.stencil3 in
  let dtDIVdxy : F := Sample.dtDIVdxy in
  let p := cell (deref h prev_base) 4 in
  let p_r := cell (deref h prev_base) (4 + 1) in
  let p_l := cell (deref h prev_base) (4 - 1) in
  let p_d := cell (deref h prev_base) (4 + 3) in
  let p_u := cell (deref h prev_base) (4 - 3) in
  let n := cell (deref h next_base) 4 in
  let v := cell (deref h vel_base) 4 in
  let formula :=
    fadd (fsub (fmul (flit 2) p) n)
         (fmul (fmul (fadd (fadd (fsub p_r (fmul (flit 2) p)) p_l)
                           (fadd (fsub p_d (fmul (flit 2) p)) p_u))
                     dtDIVdxy)
               v) in
  ∃ h' : @heap IEEE.arith,
    device_time_loop (λ k, Sample.row_major k 3 3) next_base prev_base
      vel_base dtDIVdxy 3 3 1 h = Some h' ∧
    iso_2dfd_iteration_cpu next_base prev_base vel_base dtDIVdxy
      (s32 3) (s32 3) (s32 1) h = Some h' ∧
    cell (deref h' next_base) 4 = S754_finite false 8522826 (-26) ∧
    formula = S754_finite false 8522825 (-26) ∧
    cell (deref h' next_base) 4 ≠ formula.
Proof.
  cbv zeta. eexists. split; [run|].
  split; [run_eq|].
  split_and!.
  - by vm_compute.
  - by vm_compute.
  - by vm_compute.
Qed.

(** C2, amended.  In every arithmetic, IEEE included, on every grid on which
    the serial driver returns: one time step of the device loop and one time
    step of the serial driver return the same heap, in which every interior
    point [gid = row * nCols + col] of [next] holds [2.0f * prev[gid] -
    next[gid] + value], computed in [float], where [value] is a [float] that
    starts as [0.0], to which [prev[gid+1] - 2.0*prev[gid] + prev[gid-1]] and
    then [prev[gid+nCols] - 2.0*prev[gid] + prev[gid-nCols]] are added, each
    sum taken in [double] and rounded to [float] when stored, and which is
    then multiplied by the [float] product [dtDIVdxy * vel[gid]]; here
    [dtDIVdxy = (DT*DT)/(DXY*DXY)] in [float], [DT = 0.002f], [DXY = 20.0f],
    and [prev], [next] and [vel] on the right are the arrays before the step:
    the update reads the old content of [next]. *)
Theorem stencil_update_formula `{A : Arith} (sched : Z → list (Z * Z))
    (nRows nCols : Z) (next prev vel : ptr) (h : heap) :
  next ≠ prev → next ≠ vel → prev ≠ vel →
  1 ≤ nRows ≤ INT_MAX → 1 ≤ nCols ≤ INT_MAX →
  nRows * nCols ≤ 2 ^ 31 + 1 ∨ nRows ≤ 2 ∨ nCols ≤ 2 →
  sched 0 ≡ₚ global_range nRows nCols →
  heap_ok nRows nCols next prev vel h →
  let dtDIVdxy :=
    fdiv (fmul (flit 0.002) (flit 0.002)) (fmul (flit 20.0) (flit 20.0)) in
  ∃ h',
    device_time_loop sched next prev vel dtDIVdxy nRows nCols 1 h = Some h' ∧
    iso_2dfd_iteration_cpu next prev vel dtDIVdxy
      (s32 nRows) (s32 nCols) (s32 1) h = Some h' ∧
    ∀ row col,
      HALF_LENGTH ≤ row < nRows - HALF_LENGTH →
      HALF_LENGTH ≤ col < nCols - HALF_LENGTH →
      let gid := row * nCols + col in
      let prev_ := cell (deref h prev) in
      let next_ := cell (deref h next) in
      let vel_ := cell (deref h vel) in
      let value0 := d2f (dlit 0.0) in
      let value1 :=
        d2f (dadd (f2d value0)
               (dadd (dsub (f2d (prev_ (gid + 1)))
                           (dmul (dlit 2.0) (f2d (prev_ gid))))
                     (f2d (prev_ (gid - 1))))) in
      let value2 :=
        d2f (dadd (f2d value1)
               (dadd (dsub (f2d (prev_ (gid + nCols)))
                           (dmul (dlit 2.0) (f2d (prev_ gid))))
                     (f2d (prev_ (gid - nCols))))) in
      let value3 := fmul value2 (fmul dtDIVdxy (vel_ gid)) in
      cell (deref h' next) gid
      = fadd (fsub (fmul (flit 2.0) (prev_ gid)) (next_ gid)) value3.
Proof.
  intros Hnp Hnv Hpv HR HC Hsize Hsched Hh dtDIVdxy.
  exists (after_steps nRows nCols dtDIVdxy next prev vel 1 h).
  split_and!.
  - apply (device_time_loop_wide nRows nCols);
      try (done || unfold INT_MAX in *; lia).
    intros k Hk. by replace k with 0 by lia.
  - unfold INT_MAX in *. rewrite !s32_small by lia.
    apply (iso_2dfd_iteration_cpu_wide nRows nCols);
      done || unfold INT_MAX; lia.
  - intros row col Hrow Hcol. cbv zeta.
    destruct (deref_after_steps nRows nCols dtDIVdxy
                next prev vel Hnp Hnv Hpv 1 h) as (-> & _ & _).
    cbn [time_steps Nat.even fst snd].
    pose proof (interior_bounds_tight nRows nCols (row, col)) as Hb.
    simpl in Hb. destruct Hb as (? & ? & ? & ? & ?); [done|].
    destruct Hh as (Hn & _ & _). unfold is_grid in Hn.
    rewrite cell_sweep_interior.
    + reflexivity.
    + lia.
    + pose proof (coords_gid nCols (row, col)) as Hc. simpl in Hc.
      rewrite Hc; [done | unfold HALF_LENGTH in *; lia].
Qed.

Lemma stencil_update_formula_witness :
  let h : @heap IEEE.arith := Sample.stencil3 in
  let dtDIVdxy :=
    fdiv (fmul (flit 0.002) (flit 0.002)) (fmul (flit 20.0) (flit 20.0)) in
  ∃ h',
    device_time_loop (λ k, Sample.backwards k 3 3) next_base prev_base
      vel_base dtDIVdxy 3 3 1 h = Some h' ∧
    iso_2dfd_iteration_cpu next_base prev_base vel_base dtDIVdxy
      (s32 3) (s32 3) (s32 1) h = Some h' ∧
    ∀ row col,
      HALF_LENGTH ≤ row < 3 - HALF_LENGTH →
      HALF_LENGTH ≤ col < 3 - HALF_LENGTH →
      let gid := row * 3 + col in
      let prev_ := cell (deref h prev_base) in
      let next_ := cell (deref h next_base) in
      let vel_ := cell (deref h vel_base) in
      let value0 := d2f (dlit 0.0) in
      let value1 :=
        d2f (dadd (f2d value0)
               (dadd (dsub (f2d (prev_ (gid + 1)))
                           (dmul (dlit 2.0) (f2d (prev_ gid))))
                     (f2d (prev_ (gid - 1))))) in
      let value2 :=
        d2f (dadd (f2d value1)
               (dadd (dsub (f2d (prev_ (gid + 3)))
                           (dmul (dlit 2.0) (f2d (prev_ gid))))
                     (f2d (prev_ (gid - 3))))) in
      let value3 := fmul value2 (fmul dtDIVdxy (vel_ gid)) in
      cell (deref h' next_base) gid
      = fadd (fsub (fmul (flit 2.0) (prev_ gid)) (next_ gid)) value3.
Proof.
  apply (stencil_update_formula (A := IEEE.arith)).
  - discriminate.
  - discriminate.
  - discriminate.
  - unfold INT_MAX. lia.
  - unfold INT_MAX. lia.
  - lia.
  - apply reverse_Permutation.
  - unfold heap_ok, is_grid. simpl. lia.
Defined.

(** ** [initialize] *)

Section HeapExt.
Context {A : Arith}.

Lemma heap_ext (h h' : heap) : (∀ q, deref h q = deref h' q) → h = h'.
Proof.
  intros Hq. destruct h, h'.
  pose proof (Hq prev_base). pose proof (Hq next_base).
  pose proof (Hq next_cpu). pose proof (Hq vel_base). simpl in *. congruence.
Qed.

Lemma deref_assign h p q l :
  deref (assign h p l) q = if decide (p = q) then l else deref h q.
Proof.
  case_decide as Hpq; [subst; apply deref_assign_eq | by apply deref_assign_ne].
Qed.
End HeapExt.

Section FillFacts.
Context {A : Arith}.
Context (nRows nCols : Z).
Implicit Types (l : list F) (cells : list (Z * Z)).

Lemma length_fill_cells cells w l :
  length (fill_cells cells w nCols l) = length l.
Proof. unfold fill_cells. by rewrite length_imap. Qed.

Lemma fill_cells_nil w l : fill_cells [] w nCols l = l.
Proof.
  unfold fill_cells. apply list_eq. intros n. rewrite list_lookup_imap.
  by destruct (l !! n).
Qed.

Lemma cell_fill_cells cells w l g :
  0 ≤ g < Z.of_nat (length l) →
  cell (fill_cells cells w nCols l) g
  = if bool_decide (coords nCols g ∈ cells) then w else cell l g.
Proof.
  intros Hg. unfold cell, fill_cells.
  rewrite !list_lookup_total_alt, list_lookup_imap.
  destruct (lookup_lt_is_Some_2 l (Z.to_nat g)) as [x ->]; [lia|]. simpl.
  by rewrite Z2Nat.id by lia.
Qed.

(** Storing [w] in one more cell. *)
Lemma fill_cells_cons it cells w l :
  0 < nCols → 0 ≤ it.1 → 0 ≤ it.2 < nCols →
  fill_cells cells w nCols (<[Z.to_nat (it.1 * nCols + it.2) := w]> l)
  = fill_cells (it :: cells) w nCols l.
Proof.
  intros HnC Hr Hc. apply list_eq. intros n. unfold fill_cells.
  rewrite !list_lookup_imap.
  assert (0 ≤ it.1 * nCols + it.2).
  { apply Z.add_nonneg_nonneg; [apply Z.mul_nonneg_nonneg|]; lia. }
  destruct (decide (n = Z.to_nat (it.1 * nCols + it.2))) as [->|Hne].
  - destruct (decide (Z.to_nat (it.1 * nCols + it.2) < length l)%nat)
      as [Hlt|Hge].
    + rewrite list_lookup_insert_eq by done.
      destruct (lookup_lt_is_Some_2 l _ Hlt) as [x ->]. simpl.
      rewrite Z2Nat.id by done.
      rewrite (bool_decide_true (_ ∈ it :: _)).
      * by destruct (bool_decide _).
      * rewrite (coords_gid nCols it) by done. by left.
    + rewrite list_insert_ge by lia. by rewrite (lookup_ge_None_2 l) by lia.
  - rewrite list_lookup_insert_ne by done.
    destruct (l !! n); simpl; [|done]. f_equal.
    erewrite bool_decide_ext; [done|]. rewrite elem_of_cons.
    split; [by right|]. intros [Heq|?]; [|done].
    exfalso. apply Hne. pose proof (gid_coords nCols (Z.of_nat n) HnC) as Hg.
    rewrite Heq in Hg. lia.
Qed.

Lemma fill_cells_ext cells cells' w l :
  (∀ it, it ∈ cells ↔ it ∈ cells') →
  fill_cells cells w nCols l = fill_cells cells' w nCols l.
Proof.
  intros Hc. unfold fill_cells. apply imap_ext. intros n x _. simpl.
  by erewrite bool_decide_ext.
Qed.

(** Storing [w] in every cell of the grid. *)
Lemma fill_cells_all w l :
  0 ≤ nRows → 0 ≤ nCols → is_grid nRows nCols l →
  fill_cells (global_range nRows nCols) w nCols l = replicate (length l) w.
Proof.
  intros HR HC Hl. unfold is_grid in Hl. apply list_eq. intros n.
  unfold fill_cells. rewrite list_lookup_imap.
  destruct (decide (n < length l)%nat) as [Hlt|Hge].
  - destruct (lookup_lt_is_Some_2 l _ Hlt) as [x ->]. simpl.
    rewrite lookup_replicate_2 by done.
    assert (0 < nCols) by nia.
    rewrite bool_decide_true; [done|]. apply elem_of_global_range.
    unfold coords. simpl. split.
    + split; [apply Z.div_pos; lia|]. apply Z.div_lt_upper_bound; lia.
    + apply Z.mod_pos_bound. lia.
  - rewrite (lookup_ge_None_2 l) by lia. simpl. symmetry.
    apply lookup_replicate_None. lia.
Qed.
End FillFacts.

Section InitFacts.
Context {A : Arith}.
Context (ptr_prev ptr_next ptr_vel : ptr) (nRows nCols : Z).
Context (Hpn : ptr_prev ≠ ptr_next) (Hpv : ptr_prev ≠ ptr_vel)
        (Hnv : ptr_next ≠ ptr_vel).
Context (HR : 0 ≤ nRows ≤ INT_MAX) (HC : 0 ≤ nCols ≤ INT_MAX).
Implicit Types (h : heap) (cells : list (Z * Z)).

#[local] Ltac heap_eq :=
  apply heap_ext; intros ?; rewrite ?deref_assign;
  repeat case_decide; subst; try done; try congruence.

Lemma in_range_index it :
  in_range nRows nCols it →
  0 < nCols ∧ 0 ≤ it.1 * nCols + it.2 < nRows * nCols.
Proof.
  clear HR HC Hpn Hpv Hnv.
  unfold in_range. destruct it as [r c]. simpl. intros [? ?].
  assert (r * nCols ≤ (nRows - 1) * nCols)
    by (apply Z.mul_le_mono_nonneg_r; lia).
  assert (0 ≤ r * nCols) by (apply Z.mul_nonneg_nonneg; lia).
  lia.
Qed.

(** A loop that stores [w] through [p] in the cells [cells]. *)
Lemma fold_store p w cells h :
  (∀ it, it ∈ cells → in_range nRows nCols it) →
  is_grid nRows nCols (deref h p) →
  fold_opt (λ it h, store h p (it.1 * nCols + it.2) w) cells h
  = Some (assign h p (fill_cells cells w nCols (deref h p))).
Proof.
  clear HR HC Hpn Hpv Hnv. revert h. induction cells as [|it cells IH]; intros h Hin Hl.
  - simpl. by rewrite fill_cells_nil, assign_deref.
  - destruct (in_range_index it) as [HnC Hidx]; [apply Hin; by left|].
    unfold is_grid in Hl. cbn [fold_opt]. cbv beta.
    rewrite store_Some by lia. cbn [mbind option_bind].
    rewrite IH; cycle 1.
    { intros. apply Hin. by right. }
    { unfold is_grid. by rewrite deref_assign_eq, length_insert. }
    rewrite deref_assign_eq, assign_assign.
    rewrite fill_cells_cons; [done | done | |];
      destruct (Hin it) as [? ?]; first [by left | lia].
Qed.

Lemma zero_body_spec idx h :
  0 ≤ idx < Z.of_nat (length (deref h ptr_prev)) →
  0 ≤ idx < Z.of_nat (length (deref h ptr_next)) →
  0 ≤ idx < Z.of_nat (length (deref h ptr_vel)) →
  zero_body ptr_prev ptr_next ptr_vel idx h
  = Some (assign
            (assign
               (assign h ptr_prev
                  (<[Z.to_nat idx := flit 0.0]> (deref h ptr_prev)))
               ptr_next (<[Z.to_nat idx := flit 0.0]> (deref h ptr_next)))
            ptr_vel
            (<[Z.to_nat idx := fmul (flit 1500.0) (flit 1500.0)]>
               (deref h ptr_vel))).
Proof.
  intros H1 H2 H3. unfold zero_body.
  rewrite store_Some by lia. cbn [mbind option_bind].
  rewrite store_Some by (rewrite deref_assign_ne by done; lia).
  cbn [mbind option_bind].
  rewrite store_Some by (rewrite !deref_assign_ne by done; lia).
  by rewrite !deref_assign_ne by done.
Qed.

(** The first loop nest, over the cells [cells]. *)
Lemma fold_zero cells h :
  (∀ it, it ∈ cells → in_range nRows nCols it) →
  is_grid nRows nCols (deref h ptr_prev) →
  is_grid nRows nCols (deref h ptr_next) →
  is_grid nRows nCols (deref h ptr_vel) →
  fold_opt (λ it, zero_body ptr_prev ptr_next ptr_vel (it.1 * nCols + it.2))
    cells h
  = Some (assign
            (assign
               (assign h ptr_prev
                  (fill_cells cells (flit 0.0) nCols (deref h ptr_prev)))
               ptr_next (fill_cells cells (flit 0.0) nCols (deref h ptr_next)))
            ptr_vel
            (fill_cells cells (fmul (flit 1500.0) (flit 1500.0)) nCols
               (deref h ptr_vel))).
Proof.
  revert h. induction cells as [|it cells IH]; intros h Hin Hl1 Hl2 Hl3.
  - simpl. by rewrite !fill_cells_nil, !assign_deref.
  - destruct (in_range_index it) as [HnC Hidx]; [apply Hin; by left|].
    destruct (Hin it) as [Hr Hc]; [by left|].
    unfold is_grid in *. cbn [fold_opt]. cbv beta.
    rewrite zero_body_spec by lia. cbn [mbind option_bind].
    rewrite IH; cycle 1.
    { intros. apply Hin. by right. }
    { rewrite !deref_assign.
      repeat case_decide; subst; try congruence; by rewrite length_insert. }
    { rewrite !deref_assign.
      repeat case_decide; subst; try congruence; by rewrite length_insert. }
    { rewrite !deref_assign.
      repeat case_decide; subst; try congruence; by rewrite length_insert. }
    f_equal.
    rewrite <- !(fill_cells_cons nCols it cells) by lia.
    heap_eq.
Qed.

(** The counter of a wavelet loop on an axis of [n] cells. *)
Lemma wavelet_loop {S} (n s : Z) (body : Z → S → option S) st :
  0 ≤ n ≤ INT_MAX → 0 ≤ s ≤ 11 →
  for_loop (Z.to_nat (u64 (n `div` 2 + u64 s)))
    (s32 (u64 (n `div` 2 - u64 s)))
    (λ i, u64 i <? u64 (n `div` 2 + u64 s)) (λ i, s32 (i + 1)) body st
  = fold_opt body (wavelet_span n s) st.
Proof.
  unfold INT_MAX. intros Hn Hs.
  assert (0 ≤ n `div` 2 < 2 ^ 30).
  { split; [apply Z.div_pos; lia|]. apply Z.div_lt_upper_bound; lia. }
  rewrite s32_u64_sub by lia.
  rewrite (u64_small s) by lia.
  rewrite (u64_small (n `div` 2 + s)) by lia.
  unfold wavelet_span. case_decide as Hle.
  - rewrite (for_loop_up _ (n `div` 2 - s) (n `div` 2 + s)); cycle 1.
    { intros i Hi. split.
      - apply Z.ltb_lt. rewrite u64_small; lia.
      - apply s32_small. lia. }
    { rewrite Z.max_r by lia. apply Z.ltb_ge. rewrite u64_small; lia. }
    { lia. }
    f_equal. f_equal. lia.
  - apply for_loop_none. apply Z.ltb_ge. rewrite u64_neg; lia.
Qed.

Lemma elem_of_wavelet_span n s i :
  0 ≤ n → 0 ≤ s →
  i ∈ wavelet_span n s ↔ s ≤ n `div` 2 ∧ n `div` 2 - s ≤ i < n `div` 2 + s.
Proof.
  intros Hn Hs. unfold wavelet_span. case_decide.
  - rewrite elem_of_seqZ. lia.
  - rewrite elem_of_nil. lia.
Qed.

Lemma wavelet_span_range n s i :
  0 ≤ n → 0 ≤ s → i ∈ wavelet_span n s → 0 ≤ i < n.
Proof.
  intros Hn Hs [Hle Hi]%elem_of_wavelet_span; [|done..].
  pose proof (Z.mul_div_le n 2). lia.
Qed.

Lemma wavelet_square_range s it :
  0 ≤ s → it ∈ wavelet_square nRows nCols s → in_range nRows nCols it.
Proof.
  intros Hs [Hi Hk]%elem_of_pairs.
  split; eapply wavelet_span_range; try apply Hi; try apply Hk; lia.
Qed.
End InitFacts.

Section InitializeSpec.
Context {A : Arith}.
Context (ptr_prev ptr_next ptr_vel : ptr) (nRows nCols : Z).
Context (Hpn : ptr_prev ≠ ptr_next) (Hpv : ptr_prev ≠ ptr_vel)
        (Hnv : ptr_next ≠ ptr_vel).
Context (HR : 0 ≤ nRows ≤ INT_MAX) (HC : 0 ≤ nCols ≤ INT_MAX).
Implicit Types (h : heap).

Lemma cell_index i k :
  0 ≤ i < nRows → 0 ≤ k < nCols →
  u64 (u64 (i * nCols) + u64 k) = i * nCols + k ∧
  u64 (u64 (u64 i * nCols) + u64 k) = i * nCols + k.
Proof.
  unfold INT_MAX in *. intros Hi Hk.
  assert (0 ≤ i * nCols) by (apply Z.mul_nonneg_nonneg; lia).
  assert (i * nCols ≤ (2 ^ 31) * (2 ^ 31))
    by (apply Z.mul_le_mono_nonneg; lia).
  rewrite (u64_small i), (u64_small k), (u64_small (i * nCols)) by lia.
  rewrite u64_small by lia. done.
Qed.

Lemma length_wavelet : length wavelet = 12%nat.
Proof. done. Qed.

(** The wavelet loop nest for one value of [s]. *)
Lemma wavelet_step s h :
  0 ≤ s ≤ 11 → is_grid nRows nCols (deref h ptr_prev) →
  for_loop (Z.to_nat (u64 (nRows `div` 2 + u64 s)))
    (s32 (u64 (nRows `div` 2 - u64 s)))
    (λ i, u64 i <? u64 (nRows `div` 2 + u64 s)) (λ i, s32 (i + 1))
    (λ i h,
       let offset := u64 (u64 i * nCols) in
       for_loop (Z.to_nat (u64 (nCols `div` 2 + u64 s)))
         (s32 (u64 (nCols `div` 2 - u64 s)))
         (λ k, u64 k <? u64 (nCols `div` 2 + u64 s)) (λ k, s32 (k + 1))
         (λ k h,
            w ← wavelet !! Z.to_nat s;
            store h ptr_prev (u64 (offset + u64 k)) w)
         h)
    h
  = Some (assign h ptr_prev
            (fill_cells (wavelet_square nRows nCols s)
               (wavelet !!! Z.to_nat s) nCols (deref h ptr_prev))).
Proof.
  intros Hs Hl.
  rewrite wavelet_loop by done.
  erewrite fold_opt_ext; cycle 1.
  { intros i h' Hi. apply wavelet_span_range in Hi; [|lia..].
    cbv zeta. rewrite wavelet_loop by done.
    apply fold_opt_ext. intros k h'' Hk.
    apply wavelet_span_range in Hk; [|lia..].
    destruct (cell_index i k) as [_ ->]; [done..|].
    rewrite (list_lookup_lookup_total_lt wavelet (Z.to_nat s))
      by (rewrite length_wavelet; lia).
    cbn [mbind option_bind]. reflexivity. }
  rewrite (fold_opt_nested
    (λ it h, store h ptr_prev (it.1 * nCols + it.2) (wavelet !!! Z.to_nat s))).
  fold (wavelet_square nRows nCols s).
  apply (fold_store nRows); [|done].
  intros it Hit. apply (wavelet_square_range nRows nCols) in Hit; [done..|lia].
Qed.

Lemma length_wavelet_fill ss l :
  length (wavelet_fill nRows nCols ss l) = length l.
Proof.
  revert l. induction ss as [|s ss IH]; intros l; [done|].
  simpl. by rewrite IH, length_fill_cells.
Qed.

(** [initialize] never faults, and leaves [prev], [next] and [vel] as
    follows. *)
Lemma initialize_spec h :
  is_grid nRows nCols (deref h ptr_prev) →
  is_grid nRows nCols (deref h ptr_next) →
  is_grid nRows nCols (deref h ptr_vel) →
  initialize ptr_prev ptr_next ptr_vel nRows nCols h
  = Some (assign
            (assign
               (assign h ptr_prev (initial_prev nRows nCols))
               ptr_next (replicate (Z.to_nat (nRows * nCols)) (flit 0.0)))
            ptr_vel
            (replicate (Z.to_nat (nRows * nCols))
               (fmul (flit 1500.0) (flit 1500.0)))).
Proof.
  intros Hl1 Hl2 Hl3. unfold initialize. unfold INT_MAX in *.
  (* the arrays are set to zero and to the squared velocity *)
  rewrite (for_loop_up _ 0 nRows); cycle 1.
  { intros i Hi. split; [apply Z.ltb_lt; lia | apply u64_small; lia]. }
  { apply Z.ltb_ge. lia. }
  { lia. }
  erewrite fold_opt_ext; cycle 1.
  { intros i h' Hi. apply elem_of_seqZ in Hi.
    cbv zeta. rewrite (for_loop_up _ 0 nCols); cycle 1.
    { intros k Hk. split.
      - apply Z.ltb_lt. rewrite u64_small; lia.
      - apply s32_small; lia. }
    { rewrite Z.max_r by lia. apply Z.ltb_ge. rewrite u64_small; lia. }
    { lia. }
    apply fold_opt_ext. intros k h'' Hk. apply elem_of_seqZ in Hk.
    destruct (cell_index i k) as [-> _]; [lia..|].
    fold (zero_body ptr_prev ptr_next ptr_vel (i * nCols + k) h'').
    reflexivity. }
  rewrite !Z.sub_0_r.
  rewrite (fold_opt_nested
    (λ it, zero_body ptr_prev ptr_next ptr_vel (it.1 * nCols + it.2))).
  fold (global_range nRows nCols).
  rewrite (fold_zero ptr_prev ptr_next ptr_vel nRows nCols) by
    first [done | by intros it ?%elem_of_global_range].
  rewrite !fill_cells_all by (done || lia).
  unfold is_grid in *.
  replace (length (deref h ptr_prev)) with (Z.to_nat (nRows * nCols)) by lia.
  replace (length (deref h ptr_next)) with (Z.to_nat (nRows * nCols)) by lia.
  replace (length (deref h ptr_vel)) with (Z.to_nat (nRows * nCols)) by lia.
  cbn [mbind option_bind].
  (* the source is added *)
  rewrite (for_loop_trace _ _ _ _ _ [11; 10; 9; 8; 7; 6; 5; 4; 3; 2; 1; 0]);
    cycle 1.
  { repeat (apply trace_step; [reflexivity|]). by apply trace_stop. }
  { simpl. lia. }
  set (h1 := assign _ ptr_vel _).
  assert (Hfold : ∀ ss h',
    (∀ s, s ∈ ss → 0 ≤ s ≤ 11) → is_grid nRows nCols (deref h' ptr_prev) →
    fold_opt
      (λ s h,
         for_loop (Z.to_nat (u64 (nRows `div` 2 + u64 s)))
           (s32 (u64 (nRows `div` 2 - u64 s)))
           (λ i, u64 i <? u64 (nRows `div` 2 + u64 s)) (λ i, s32 (i + 1))
           (λ i h,
              let offset := u64 (u64 i * nCols) in
              for_loop (Z.to_nat (u64 (nCols `div` 2 + u64 s)))
                (s32 (u64 (nCols `div` 2 - u64 s)))
                (λ k, u64 k <? u64 (nCols `div` 2 + u64 s)) (λ k, s32 (k + 1))
                (λ k h,
                   w ← wavelet !! Z.to_nat s;
                   store h ptr_prev (u64 (offset + u64 k)) w)
                h)
           h)
      ss h'
    = Some (assign h' ptr_prev
              (wavelet_fill nRows nCols ss (deref h' ptr_prev)))).
  { induction ss as [|s ss IH]; intros h' Hss Hl.
    - simpl. by rewrite assign_deref.
    - cbn [fold_opt]. cbv beta.
      rewrite wavelet_step by (done || apply Hss; by left).
      cbn [mbind option_bind]. rewrite IH; cycle 1.
      { intros. apply Hss. by right. }
      { unfold is_grid. by rewrite deref_assign_eq, length_fill_cells. }
      by rewrite deref_assign_eq, assign_assign. }
  rewrite Hfold; cycle 1.
  { intros s Hs. repeat (apply elem_of_cons in Hs as [->|Hs]; [lia|]).
    by apply elem_of_nil in Hs. }
  { unfold h1, is_grid. rewrite !deref_assign_ne, deref_assign_eq by done.
    rewrite length_replicate. lia. }
  f_equal. unfold h1.
  rewrite !deref_assign_ne, deref_assign_eq by done.
  apply heap_ext; intros q; rewrite ?deref_assign;
    repeat case_decide; subst; try done; congruence.
Qed.
End InitializeSpec.

Section Symmetry.
Context {A : Arith}.
Context (nRows nCols : Z).
Context (HR : 0 ≤ nRows) (HC : 0 ≤ nCols).
Context (HRe : nRows `mod` 2 = 0) (HCe : nCols `mod` 2 = 0).

Lemma coords_pair r c :
  0 ≤ c < nCols → coords nCols (r * nCols + c) = (r, c).
Proof. intros. by apply (coords_gid nCols (r, c)). Qed.

Lemma wavelet_span_symmetric n s i :
  0 ≤ n → n `mod` 2 = 0 → 0 ≤ s →
  i ∈ wavelet_span n s ↔ n - 1 - i ∈ wavelet_span n s.
Proof.
  intros Hn He Hs. rewrite !elem_of_wavelet_span by done.
  pose proof (Z.div_mod n 2). lia.
Qed.

Lemma fill_cells_symmetric s w l :
  0 ≤ s → is_grid nRows nCols l →
  rotation_symmetric nRows nCols l →
  rotation_symmetric nRows nCols
    (fill_cells (wavelet_square nRows nCols s) w nCols l).
Proof.
  intros Hs Hl Hsym i j Hi Hj. unfold is_grid in Hl.
  assert (Hidx : ∀ r c, 0 ≤ r < nRows → 0 ≤ c < nCols →
            0 ≤ r * nCols + c < nRows * nCols).
  { intros r c Hr Hc.
    assert (r * nCols ≤ (nRows - 1) * nCols)
      by (apply Z.mul_le_mono_nonneg_r; lia).
    assert (0 ≤ r * nCols) by (apply Z.mul_nonneg_nonneg; lia). lia. }
  rewrite !cell_fill_cells by (rewrite Hl; apply Hidx; lia).
  rewrite !coords_pair by lia.
  rewrite (Hsym i j) by done.
  erewrite bool_decide_ext; [done|].
  unfold wavelet_square. rewrite !elem_of_pairs. simpl.
  by rewrite (wavelet_span_symmetric nRows s i),
             (wavelet_span_symmetric nCols s j).
Qed.

Lemma wavelet_fill_symmetric ss l :
  (∀ s, s ∈ ss → 0 ≤ s) → is_grid nRows nCols l →
  rotation_symmetric nRows nCols l →
  rotation_symmetric nRows nCols (wavelet_fill nRows nCols ss l).
Proof.
  revert l. induction ss as [|s ss IH]; intros l Hss Hl Hsym; [done|].
  simpl. apply IH.
  - intros. apply Hss. by right.
  - unfold is_grid. by rewrite length_fill_cells.
  - apply fill_cells_symmetric; [apply Hss; by left | done..].
Qed.

Lemma initial_prev_symmetric :
  rotation_symmetric nRows nCols (initial_prev nRows nCols).
Proof.
  unfold initial_prev. apply wavelet_fill_symmetric.
  - intros s Hs. repeat (apply elem_of_cons in Hs as [->|Hs]; [lia|]).
    by apply elem_of_nil in Hs.
  - unfold is_grid. rewrite length_replicate.
    assert (0 ≤ nRows * nCols) by (apply Z.mul_nonneg_nonneg; lia). lia.
  - intros i j Hi Hj. unfold cell.
    assert (Hidx : ∀ r c, 0 ≤ r < nRows → 0 ≤ c < nCols →
              0 ≤ r * nCols + c < nRows * nCols).
    { intros r c Hr Hc.
      assert (r * nCols ≤ (nRows - 1) * nCols)
        by (apply Z.mul_le_mono_nonneg_r; lia).
      assert (0 ≤ r * nCols) by (apply Z.mul_nonneg_nonneg; lia). lia. }
    pose proof (Hidx i j Hi Hj).
    pose proof (Hidx (nRows - 1 - i) (nCols - 1 - j)).
    rewrite !lookup_total_replicate_2 by lia. done.
Qed.
End Symmetry.

(** ** C10: the indices written by [initialize] *)

(** C10, as stated, fails: on the 10 x 10 grid [initialize] returns, so that
    every index it writes is inside the arrays, although 10 < 22. *)
Lemma initialize_10x10_in_bounds :
  ¬ (is_Some (@Sample.initialized IEEE.arith 10 10) ↔ 22 ≤ 10 ∧ 22 ≤ 10).
Proof.
  intros [Hin _]. assert (22 ≤ 10 ∧ 22 ≤ 10) as [? _]; [|lia].
  apply Hin. unfold is_Some. eexists. run.
Qed.

(** C10, amended.  For every grid size that an [int] holds, [initialize]
    returns: every index it writes lies inside the arrays.  For a given [s]
    the wavelet loops write the cells of the square
    [[nRows/2 - s, nRows/2 + s) x [nCols/2 - s, nCols/2 + s)] when
    [s <= nRows/2] and [s <= nCols/2], and these lie inside the grid; they
    write nothing otherwise.  [prev] holds the squares written in the order
    [s = 11, ..., 0] over zeros. *)
Theorem initialize_in_bounds `{A : Arith} (ptr_prev ptr_next ptr_vel : ptr)
    (nRows nCols : Z) (h : heap) :
  ptr_prev ≠ ptr_next → ptr_prev ≠ ptr_vel → ptr_next ≠ ptr_vel →
  0 ≤ nRows ≤ INT_MAX → 0 ≤ nCols ≤ INT_MAX →
  is_grid nRows nCols (deref h ptr_prev) →
  is_grid nRows nCols (deref h ptr_next) →
  is_grid nRows nCols (deref h ptr_vel) →
  (∃ h',
     initialize ptr_prev ptr_next ptr_vel nRows nCols h = Some h' ∧
     deref h' ptr_prev = initial_prev nRows nCols) ∧
  (∀ s i k,
     0 ≤ s ≤ 11 →
     (i, k) ∈ wavelet_square nRows nCols s ↔
     (s ≤ nRows `div` 2 ∧ s ≤ nCols `div` 2) ∧
     nRows `div` 2 - s ≤ i < nRows `div` 2 + s ∧
     nCols `div` 2 - s ≤ k < nCols `div` 2 + s) ∧
  (∀ s i k,
     0 ≤ s ≤ 11 → (i, k) ∈ wavelet_square nRows nCols s →
     0 ≤ i < nRows ∧ 0 ≤ k < nCols ∧ 0 ≤ i * nCols + k < nRows * nCols).
Proof.
  intros Hpn Hpv Hnv HR HC Hl1 Hl2 Hl3. split_and!.
  - eexists. split; [by apply initialize_spec|].
    by rewrite !deref_assign_ne, deref_assign_eq by done.
  - intros s i k Hs. unfold wavelet_square.
    rewrite elem_of_pairs, !elem_of_wavelet_span by lia. simpl. lia.
  - intros s i k Hs Hin.
    apply (wavelet_square_range nRows nCols) in Hin as [Hi Hk]; [|lia..].
    simpl in *.
    destruct (in_range_index nRows nCols (i, k)) as [_ ?]; [done|].
    done.
Qed.

Lemma initialize_in_bounds_witness :
  let h : @heap IEEE.arith :=
    Heap (new_float 100) (new_float 100) (new_float 100) (new_float 100) in
  (∃ h',
     initialize prev_base next_base vel_base 10 10 h = Some h' ∧
     deref h' prev_base = initial_prev 10 10) ∧
  (∀ s i k,
     0 ≤ s ≤ 11 →
     (i, k) ∈ wavelet_square 10 10 s ↔
     (s ≤ 10 `div` 2 ∧ s ≤ 10 `div` 2) ∧
     10 `div` 2 - s ≤ i < 10 `div` 2 + s ∧
     10 `div` 2 - s ≤ k < 10 `div` 2 + s) ∧
  (∀ s i k,
     0 ≤ s ≤ 11 → (i, k) ∈ wavelet_square 10 10 s →
     0 ≤ i < 10 ∧ 0 ≤ k < 10 ∧ 0 ≤ i * 10 + k < 10 * 10).
Proof.
  apply (initialize_in_bounds (A := IEEE.arith)).
  - discriminate.
  - discriminate.
  - discriminate.
  - unfold INT_MAX. lia.
  - unfold INT_MAX. lia.
  - reflexivity.
  - reflexivity.
  - reflexivity.
Defined.

(** ** C9: symmetry of the initial field *)

(** C9, as stated, fails on a grid with an odd number of rows and columns:
    on the 3 x 3 grid cell (0, 0) holds [wavelet[1]] and the cell opposite
    to it, (2, 2), holds zero. *)
Lemma initialize_3x3_not_symmetric :
  ∃ h : @heap IEEE.arith,
    Sample.initialized 3 3 = Some h ∧
    cell (deref h prev_base) (0 * 3 + 0)
    ≠ cell (deref h prev_base) ((3 - 1 - 0) * 3 + (3 - 1 - 0)).
Proof. eexists. split; [run|]. vm_compute. discriminate. Qed.

(** C9, amended.  For every grid with an even number of rows and an even
    number of columns (that an [int] holds), [initialize] returns and the
    [prev] field it leaves is invariant under the rotation by 180 degrees
    about the grid centre:
    [prev[i*nCols + j] = prev[(nRows-1-i)*nCols + (nCols-1-j)]]. *)
Theorem initialize_symmetric `{A : Arith} (ptr_prev ptr_next ptr_vel : ptr)
    (nRows nCols : Z) (h : heap) :
  ptr_prev ≠ ptr_next → ptr_prev ≠ ptr_vel → ptr_next ≠ ptr_vel →
  0 ≤ nRows ≤ INT_MAX → 0 ≤ nCols ≤ INT_MAX →
  nRows `mod` 2 = 0 → nCols `mod` 2 = 0 →
  is_grid nRows nCols (deref h ptr_prev) →
  is_grid nRows nCols (deref h ptr_next) →
  is_grid nRows nCols (deref h ptr_vel) →
  ∃ h',
    initialize ptr_prev ptr_next ptr_vel nRows nCols h = Some h' ∧
    ∀ i j, 0 ≤ i < nRows → 0 ≤ j < nCols →
      cell (deref h' ptr_prev) (i * nCols + j)
      = cell (deref h' ptr_prev) ((nRows - 1 - i) * nCols + (nCols - 1 - j)).
Proof.
  intros Hpn Hpv Hnv HR HC HRe HCe Hl1 Hl2 Hl3.
  eexists. split; [by apply initialize_spec|].
  rewrite !deref_assign_ne, deref_assign_eq by done.
  apply initial_prev_symmetric; lia.
Qed.

Lemma initialize_symmetric_witness :
  let h : @heap IEEE.arith :=
    Heap (new_float 100) (new_float 100) (new_float 100) (new_float 100) in
  ∃ h',
    initialize prev_base next_base vel_base 10 10 h = Some h' ∧
    ∀ i j, 0 ≤ i < 10 → 0 ≤ j < 10 →
      cell (deref h' prev_base) (i * 10 + j)
      = cell (deref h' prev_base) ((10 - 1 - i) * 10 + (10 - 1 - j)).
Proof.
  apply (initialize_symmetric (A := IEEE.arith)).
  - discriminate.
  - discriminate.
  - discriminate.
  - unfold INT_MAX. lia.
  - unfold INT_MAX. lia.
  - reflexivity.
  - reflexivity.
  - reflexivity.
  - reflexivity.
  - reflexivity.
Defined.

(** ** C6: the validator detects one differing cell *)

Section SingleDifference.
Context {A : Arith}.
Context (dimx dimy radius ix iy : Z) (out ref : list F) (delta z d : F).
Context (Hcmp : compared dimx dimy radius ix iy).
Context (Hrad : 0 ≤ radius).

Let p : Z := iy * dimx + ix.

(** At every compared cell other than [p] the difference is [z], which does
    not exceed the tolerance and whose square adds nothing to the sum; at
    [p] it is [d], which exceeds the tolerance. *)
Context (Hquiet : ∀ q, 0 ≤ q → q ≠ p →
                   compared dimx dimy radius (q `mod` dimx) (q `div` dimx) →
                   fabsf (fsub (cell ref q) (cell out q)) = z).
Context (Hloud : fabsf (fsub (cell ref p) (cell out p)) = d).
Context (Hz : fgt z delta = false) (Hd : fgt d delta = true).
Context (Hz0 : dadd (dlit 0) (f2d (fmul z z)) = dlit 0).
Context (HzN : dadd (dadd (dlit 0) (f2d (fmul d d))) (f2d (fmul z z))
               = dadd (dlit 0) (f2d (fmul d d))).

Implicit Types (st : we_state).

Lemma single_p_coords : 0 ≤ p ∧ p `div` dimx = iy ∧ p `mod` dimx = ix.
Proof.
  unfold compared in Hcmp. unfold p.
  assert (0 ≤ iy * dimx) by (apply Z.mul_nonneg_nonneg; lia).
  pose proof (coords_gid dimx (iy, ix)) as Hc. unfold coords in Hc.
  simpl in Hc. split; [lia|]. specialize (Hc ltac:(lia)).
  split; [exact (f_equal fst Hc) | exact (f_equal snd Hc)].
Qed.

(** A cell other than [p] leaves the verdict and the diagnostics alone, and
    the sum too when it is one of the two values the sum takes. *)
Lemma single_we_step_quiet st :
  0 ≤ we_output st → we_output st ≠ p →
  we_norm2 st = dlit 0 ∨ we_norm2 st = dadd (dlit 0) (f2d (fmul d d)) →
  we_step out ref dimx dimy radius delta st
  = WE (we_error st) (we_norm2 st) (we_errFile st)
       (we_output st + 1) (we_output st + 1).
Proof.
  intros H0 Hne Hsum. unfold we_step. case_bool_decide as Hc; [|done].
  rewrite (Hquiet _ H0 Hne Hc). rewrite Hz, orb_false_r, app_nil_r.
  f_equal. by destruct Hsum as [-> | ->].
Qed.

(** The cell [p]. *)
Lemma single_we_step_loud st :
  we_output st = p →
  we_step out ref dimx dimy radius delta st
  = WE true (dadd (we_norm2 st) (f2d (fmul d d)))
       (we_errFile st ++ [Diag ix iy (cell out p) (cell ref p) d])
       (p + 1) (p + 1).
Proof.
  intros Hst. destruct single_p_coords as (_ & Hy & Hx).
  unfold we_step. rewrite Hst. cbv zeta. rewrite Hx, Hy.
  rewrite bool_decide_true by done. rewrite Hloud, Hd.
  by rewrite orb_true_r.
Qed.

Lemma single_we_prefix (n : nat) :
  we_prefix out ref dimx dimy radius delta n
  = if decide (Z.of_nat n ≤ p)
    then WE false (dlit 0) [] (Z.of_nat n) (Z.of_nat n)
    else WE true (dadd (dlit 0) (f2d (fmul d d)))
            [Diag ix iy (cell out p) (cell ref p) d]
            (Z.of_nat n) (Z.of_nat n).
Proof.
  induction n as [|n IH].
  - destruct single_p_coords as (? & _). by rewrite decide_True by lia.
  - change (we_prefix out ref dimx dimy radius delta (S n))
      with (we_step out ref dimx dimy radius delta
              (we_prefix out ref dimx dimy radius delta n)).
    rewrite IH. destruct (decide (Z.of_nat n = p)) as [Hn|Hn].
    + rewrite decide_True, decide_False by lia.
      rewrite single_we_step_loud by done. simpl.
      do 2 f_equal; lia.
    + case_decide.
      * rewrite decide_True by lia.
        rewrite single_we_step_quiet by (simpl; (lia || by left)).
        simpl. f_equal; lia.
      * rewrite decide_False by lia.
        rewrite single_we_step_quiet by (simpl; (lia || by right)).
        simpl. f_equal; lia.
Qed.
End SingleDifference.

(** C6, as stated, fails in the arithmetic of the program: on a 3 x 3
    grid whose centre cells differ by [0.2f] the verdict is [error = true]
    and there is one record, but the norm is not 0.2.  It is the square
    root, taken in [double], of the square, rounded to [float], of the
    difference: rounded to [float] it is [0.2f]; as a [double] it is
    [7205759658806472 * 2^-55], which prints as 0.20000000707805143,
    neither the [double] 0.2 nor the [float] 0.2. *)
Lemma validator_single_difference_IEEE :
  let h : @heap IEEE.arith :=
    Heap [] (flit <$> [0; 0; 0; 0; 0.2; 0; 0; 0; 0]%Q) (replicate 9 (flit 0)) []
  in
  ∃ v,
    within_epsilon next_base next_cpu 3 3 1 (flit 0.1) h = Some v ∧
    val_error v = true ∧
    val_errFile v = [Diag 1 1 (flit 0.2) (flit 0) (flit 0.2)] ∧
    val_norm v = dsqrt (f2d (fmul (flit 0.2) (flit 0.2))) ∧
    val_norm v = S754_finite false 7205759658806472 (-55) ∧
    d2f (val_norm v) = flit 0.2 ∧
    val_norm v ≠ dlit 0.2 ∧
    val_norm v ≠ f2d (flit 0.2).
Proof.
  cbv zeta. eexists. split; [run|]. split; [vm_compute; reflexivity|].
  split; [run_eq|]. split_and!.
  - vm_compute. reflexivity.
  - vm_compute. reflexivity.
  - vm_compute. reflexivity.
  - vm_compute. discriminate.
  - vm_compute. discriminate.
Qed.

(** C6, amended.  In IEEE arithmetic: two grids of [dimy] rows of [dimx] cells
    that hold the same number at every cell the validator compares except one,
    [(ix, iy)], where the difference computed by the validator,
    [fabsf(reference - output)], is [0.2f], checked with tolerance [0.1f]: the
    validator returns [error = true] and writes exactly one diagnostic record,
    for that cell; the Euclidean norm it computes is the [double]
    [sqrt((double)(0.2f * 0.2f))], that is [7205759658806472 * 2^-55]
    (0.20000000707805143), which is [0.2f] when rounded to [float] and is not
    the [double] 0.2. *)
Theorem validator_detects_single_difference (output reference : ptr)
    (dimx dimy radius ix iy : Z) (h : @heap IEEE.arith) :
  0 ≤ dimx < 2 ^ 63 → 0 ≤ dimy < 2 ^ 63 → 0 ≤ radius < 2 ^ 32 →
  Z.of_nat (length (deref h output)) = dimx * dimy →
  Z.of_nat (length (deref h reference)) = dimx * dimy →
  radius ≤ ix < dimx - radius → radius ≤ iy < dimy - radius →
  let p := iy * dimx + ix in
  let out := cell (A := IEEE.arith) (deref h output) in
  let ref := cell (A := IEEE.arith) (deref h reference) in
  (∀ q, 0 ≤ q → q ≠ p →
     compared dimx dimy radius (q `mod` dimx) (q `div` dimx) →
     out q = ref q ∧ finite_float (out q) = true) →
  @fabsf IEEE.arith (fsub (ref p) (out p)) = flit 0.2 →
  ∃ v,
    within_epsilon (A := IEEE.arith) output reference dimx dimy radius
      (flit 0.1) h = Some v ∧
    val_error v = true ∧
    val_errFile v = [Diag ix iy (out p) (ref p) (flit 0.2)] ∧
    val_norm v = dsqrt (f2d (fmul (flit 0.2) (flit 0.2))) ∧
    val_norm v = S754_finite false 7205759658806472 (-55) ∧
    d2f (val_norm v) = flit 0.2 ∧
    val_norm v ≠ dlit 0.2.
Proof.
  intros Hx Hy Hrad Hlo Hlr Hix Hiy p out ref Hsame Hdiff.
  rewrite within_epsilon_spec by lia. cbv zeta.
  rewrite (single_we_prefix (A := IEEE.arith) dimx dimy radius ix iy
             (deref h output) (deref h reference) (flit 0.1)
             (S754_zero false) (flit 0.2)); cycle 1.
  { done. }
  { lia. }
  { intros q Hq Hne Hc. destruct (Hsame q Hq Hne Hc) as [He Hf].
    unfold out, ref in He, Hf. rewrite <- He.
    by apply IEEE_finite_self_difference. }
  { exact Hdiff. }
  { by vm_compute. }
  { by vm_compute. }
  { by vm_compute. }
  { by vm_compute. }
  assert (iy * dimx + ix < dimx * dimy).
  { assert (iy * dimx ≤ (dimy - 1) * dimx)
      by (apply Z.mul_le_mono_nonneg_r; lia). lia. }
  rewrite decide_False by lia.
  eexists. split; [reflexivity|]. cbn [val_error val_errFile val_norm
    we_error we_errFile we_norm2].
  split_and!.
  - reflexivity.
  - reflexivity.
  - by vm_compute.
  - by vm_compute.
  - by vm_compute.
  - by vm_compute.
Qed.

Lemma validator_detects_single_difference_witness :
  let h : @heap IEEE.arith :=
    Heap []
      (flit <$> [9; 9; 9; 9; 9; 0.2; 1.5; 9; 9; 2.5; 3.5; 9; 9; 9; 9; 9]%Q)
      (flit <$> [0; 0; 0; 0; 0; 0.4; 1.5; 0; 0; 2.5; 3.5; 0; 0; 0; 0; 0]%Q)
      [] in
  let out := cell (A := IEEE.arith) (deref h next_base) in
  let ref := cell (A := IEEE.arith) (deref h next_cpu) in
  ∃ v,
    within_epsilon (A := IEEE.arith) next_base next_cpu 4 4 1 (flit 0.1) h
    = Some v ∧
    val_error v = true ∧
    val_errFile v = [Diag 1 1 (out (1 * 4 + 1)) (ref (1 * 4 + 1)) (flit 0.2)] ∧
    val_norm v = dsqrt (f2d (fmul (flit 0.2) (flit 0.2))) ∧
    val_norm v = S754_finite false 7205759658806472 (-55) ∧
    d2f (val_norm v) = flit 0.2 ∧
    val_norm v ≠ dlit 0.2.
Proof.
  intros h.
  apply (validator_detects_single_difference next_base next_cpu 4 4 1 1 1 h).
  - lia.
  - lia.
  - lia.
  - reflexivity.
  - reflexivity.
  - lia.
  - lia.
  - intros q Hq Hne [Hqx Hqy].
    pose proof (Z.div_mod q 4 ltac:(lia)) as Hdm.
    assert (Hc : q = 6 ∨ q = 9 ∨ q = 10) by lia.
    destruct Hc as [->|[->| ->]]; split; reflexivity.
  - vm_compute. reflexivity.
Defined.

(** ** C7: the 10 x 10 scenario *)

(** C7, as stated, fails: after initialization of the 10 x 10 grid and one
    sweep, the halo cell (0, 0) of [prev] does not hold 0.0.  The square
    written for [s = 5] covers the whole grid, halo included. *)
Lemma scenario_10x10_halo_not_zero :
  ∃ h0 h1 : @heap IEEE.arith,
    Sample.initialized 10 10 = Some h0 ∧
    device_time_loop (λ k, Sample.row_major k 10 10)
      next_base prev_base vel_base Sample.dtDIVdxy 10 10 1 h0 = Some h1 ∧
    cell (deref h1 prev_base) (0 * 10 + 0) ≠ flit 0.0.
Proof. eexists _, _. split_and!; [run | run |]. vm_compute. discriminate. Qed.

(** C7, amended.  For the 10 x 10 grid and one iteration, in IEEE
    arithmetic: after [initialize] and one sweep, by the device loop or by
    the serial driver, cell (5, 5) of [next] holds the value the stencil
    gives from the initialized values of [prev] at (5, 5), which is
    [wavelet[1] = -0.041464937f], and at its four neighbours ([wavelet[1]]
    on the left and above, [wavelet[2] = -0.067372555f] on the right and
    below), from the old [next], which is zero, and from the velocity
    [1500^2]: the [float] [-11287136 * 2^-27], which prints as
    -0.0840957165; every halo cell of [next] holds 0.0; every halo cell of
    [prev] holds [wavelet[5] = 0.416998396f], which is not 0.0. *)
Theorem scenario_10x10_one_step :
  ∃ h0 h1 : @heap IEEE.arith,
    Sample.initialized 10 10 = Some h0 ∧
    device_time_loop (λ k, Sample.row_major k 10 10)
      next_base prev_base vel_base Sample.dtDIVdxy 10 10 1 h0 = Some h1 ∧
    iso_2dfd_iteration_cpu next_base prev_base vel_base Sample.dtDIVdxy
      (s32 10) (s32 10) (s32 1) h0 = Some h1 ∧
    let w1 : F := flit (-0.041464937) in
    let w2 : F := flit (-0.067372555) in
    let w5 : F := flit 0.416998396 in
    let v : F := fmul (flit 1500.0) (flit 1500.0) in
    let dtDIVdxy : F :=
      fdiv (fmul (flit 0.002) (flit 0.002)) (fmul (flit 20.0) (flit 20.0)) in
    (cell (deref h0 prev_base) (5 * 10 + 5) = w1 ∧
     cell (deref h0 prev_base) (5 * 10 + 5 + 1) = w2 ∧
     cell (deref h0 prev_base) (5 * 10 + 5 - 1) = w1 ∧
     cell (deref h0 prev_base) (5 * 10 + 5 + 10) = w2 ∧
     cell (deref h0 prev_base) (5 * 10 + 5 - 10) = w1 ∧
     cell (deref h0 next_base) (5 * 10 + 5) = flit 0.0 ∧
     cell (deref h0 vel_base) (5 * 10 + 5) = v) ∧
    (let value0 := d2f (dlit 0.0) in
     let value1 :=
       d2f (dadd (f2d value0)
              (dadd (dsub (f2d w2) (dmul (dlit 2.0) (f2d w1))) (f2d w1))) in
     let value2 :=
       d2f (dadd (f2d value1)
              (dadd (dsub (f2d w2) (dmul (dlit 2.0) (f2d w1))) (f2d w1))) in
     let value3 := fmul value2 (fmul dtDIVdxy v) in
     cell (deref h1 next_base) (5 * 10 + 5)
     = fadd (fsub (fmul (flit 2.0) w1) (flit 0.0)) value3) ∧
    cell (deref h1 next_base) (5 * 10 + 5) = S754_finite true 11287136 (-27) ∧
    cell (deref h1 next_base) (5 * 10 + 5) = flit (-0.0840957165) ∧
    Forall (λ it, cell (deref h1 next_base) (it.1 * 10 + it.2) = flit 0.0)
           (halo_range 10 10) ∧
    Forall (λ it, cell (deref h1 prev_base) (it.1 * 10 + it.2) = w5)
           (halo_range 10 10) ∧
    w5 ≠ flit 0.0.
Proof.
  eexists _, _. split; [run|]. split; [run|]. split; [run|].
  cbv zeta. split_and!.
  - vm_compute. reflexivity.
  - vm_compute. reflexivity.
  - vm_compute. reflexivity.
  - vm_compute. reflexivity.
  - vm_compute. reflexivity.
  - vm_compute. reflexivity.
  - vm_compute. reflexivity.
  - vm_compute. reflexivity.
  - vm_compute. reflexivity.
  - vm_compute. reflexivity.
  - vm_compute. repeat constructor.
  - vm_compute. repeat constructor.
  - vm_compute. discriminate.
Qed.

(** ** C4: the array that is written to the output file *)

(** After an even number of steps the array behind [b_next] is as it was
    one step earlier: the last step, whose index is odd, wrote the other
    array. *)
Lemma device_time_loop_even_count `{A : Arith} (sched : Z → list (Z * Z))
    (nRows nCols : Z) (dtDIVdxy : F) (next prev vel : ptr) (h : heap) (m : nat) :
  next ≠ prev → next ≠ vel → prev ≠ vel →
  grid_ok nRows nCols →
  2 * Z.of_nat m + 2 < 2 ^ 32 →
  (∀ k, sched k ≡ₚ global_range nRows nCols) →
  heap_ok nRows nCols next prev vel h →
  ∃ h1 h2,
    device_time_loop sched next prev vel dtDIVdxy nRows nCols
      (2 * Z.of_nat m + 1) h = Some h1 ∧
    device_time_loop sched next prev vel dtDIVdxy nRows nCols
      (2 * Z.of_nat m + 2) h = Some h2 ∧
    deref h2 next = deref h1 next ∧
    deref h2 prev
    = sweep nRows nCols dtDIVdxy (deref h1 prev) (deref h1 next) (deref h1 vel).
Proof.
  intros Hnp Hnv Hpv Hgrid Hm Hsched Hh.
  eexists _, _. split_and!.
  - apply (device_time_loop_spec nRows nCols); try done. lia.
  - apply (device_time_loop_spec nRows nCols); try done. lia.
  - replace (Z.to_nat (2 * Z.of_nat m + 2))
      with (S (Z.to_nat (2 * Z.of_nat m + 1))) by lia.
    destruct (deref_after_steps nRows nCols dtDIVdxy next prev vel
                Hnp Hnv Hpv (S (Z.to_nat (2 * Z.of_nat m + 1))) h)
      as (-> & _ & _).
    destruct (deref_after_steps nRows nCols dtDIVdxy next prev vel
                Hnp Hnv Hpv (Z.to_nat (2 * Z.of_nat m + 1)) h)
      as (-> & _ & _).
    apply time_steps_odd_step.
    replace (Z.to_nat (2 * Z.of_nat m + 1)) with (S (2 * m)) by lia.
    rewrite Nat.even_succ, <- Nat.negb_even, Nat.even_mul. done.
  - replace (Z.to_nat (2 * Z.of_nat m + 2))
      with (S (Z.to_nat (2 * Z.of_nat m + 1))) by lia.
    destruct (deref_after_steps nRows nCols dtDIVdxy next prev vel
                Hnp Hnv Hpv (S (Z.to_nat (2 * Z.of_nat m + 1))) h)
      as (_ & -> & _).
    destruct (deref_after_steps nRows nCols dtDIVdxy next prev vel
                Hnp Hnv Hpv (Z.to_nat (2 * Z.of_nat m + 1)) h)
      as (-> & -> & ->).
    apply time_steps_odd_step.
    replace (Z.to_nat (2 * Z.of_nat m + 1)) with (S (2 * m)) by lia.
    rewrite Nat.even_succ, <- Nat.negb_even, Nat.even_mul. done.
Qed.

(** C4: the program run as [iso2dfd 4 4 2], in IEEE arithmetic.  The array
    written to [wavefield_snapshot.bin] is [next_base] as the first step
    left it, the same file as [iso2dfd 4 4 1] writes; the second, last
    step wrote [prev_base], which differs from it. *)
Theorem snapshot_after_two_steps :
  ∃ (out1 out2 : @outcome IEEE.arith) (h0 h1 h2 : @heap IEEE.arith),
    main StdLib.stoi Sample.row_major ["iso2dfd"; "4"; "4"; "1"]%string
    = Some out1 ∧
    main StdLib.stoi Sample.row_major ["iso2dfd"; "4"; "4"; "2"]%string
    = Some out2 ∧
    Sample.initialized 4 4 = Some h0 ∧
    device_time_loop (λ k, Sample.row_major k 4 4)
      next_base prev_base vel_base Sample.dtDIVdxy 4 4 1 h0 = Some h1 ∧
    device_time_loop (λ k, Sample.row_major k 4 4)
      next_base prev_base vel_base Sample.dtDIVdxy 4 4 2 h0 = Some h2 ∧
    wavefield_snapshot out2 = Some (deref h2 next_base) ∧
    deref h2 next_base = deref h1 next_base ∧
    wavefield_snapshot out2 = wavefield_snapshot out1 ∧
    deref h2 prev_base
    = sweep 4 4 Sample.dtDIVdxy (deref h1 prev_base) (deref h1 next_base)
        (deref h1 vel_base) ∧
    deref h2 prev_base ≠ deref h1 prev_base ∧
    deref h2 prev_base ≠ deref h2 next_base.
Proof.
  eexists _, _, _, _, _. split_and!.
  - run.
  - run.
  - run.
  - run.
  - run.
  - vm_compute. reflexivity.
  - vm_compute. reflexivity.
  - vm_compute. reflexivity.
  - vm_compute. reflexivity.
  - vm_compute. discriminate.
  - vm_compute. discriminate.
Qed.

(** ** C5: the cells the validator compares *)

(** C5: the validator called as [main] calls it, with [(nRows, nCols) =
    (3, 4)], in IEEE arithmetic.  [output] holds 1 .. 12 and [reference]
    zeros, so that every cell that is compared is reported, with the value
    found in [output].  The validator reports the cells at offsets 4 and 7,
    which are the halo cells (1, 0) and (1, 3) of the 3 x 4 grid, as
    [(ix, iy) = (1, 1)] and [(1, 2)]; the interior cells, at offsets 5 and
    6, are not compared, and a difference of 100 in one of them goes
    unnoticed. *)
Theorem validator_on_3x4_grid :
  let out : list (@F IEEE.arith) :=
    flit <$> [1; 2; 3; 4; 5; 6; 7; 8; 9; 10; 11; 12]%Q in
  let ref : list (@F IEEE.arith) := replicate 12 (flit 0) in
  let bad : list (@F IEEE.arith) := <[5%nat := flit 100]> ref in
  (∃ v,
     within_epsilon next_base next_cpu 3 4 HALF_LENGTH (flit 0.1)
       (Heap [] out ref []) = Some v ∧
     val_error v = true ∧
     val_errFile v = [Diag 1 1 (flit 5) (flit 0) (flit 5);
                      Diag 1 2 (flit 8) (flit 0) (flit 8)]) ∧
  (cell out 4 = flit 5 ∧ cell out 7 = flit 8 ∧
   coords 4 4 = (1, 0) ∧ coords 4 7 = (1, 3) ∧
   ¬ interior 3 4 (1, 0) ∧ ¬ interior 3 4 (1, 3)) ∧
  (interior_range 3 4 = [(1, 1); (1, 2)] ∧
   coords 4 5 = (1, 1) ∧ coords 4 6 = (1, 2)) ∧
  (∃ v,
     within_epsilon next_base next_cpu 3 4 HALF_LENGTH (flit 0.1)
       (Heap [] bad ref []) = Some v ∧
     val_error v = false ∧ val_errFile v = []).
Proof.
  cbv zeta. split_and!.
  - eexists. split_and!; [run | vm_compute; reflexivity | run_eq].
  - vm_compute. reflexivity.
  - vm_compute. reflexivity.
  - reflexivity.
  - reflexivity.
  - unfold interior, HALF_LENGTH. simpl. lia.
  - unfold interior, HALF_LENGTH. simpl. lia.
  - reflexivity.
  - reflexivity.
  - reflexivity.
  - eexists. split_and!; [run | vm_compute; reflexivity | run_eq].
Qed.

(** ** What the functions leave alone *)

Section Frame.
Context {A : Arith}.

Lemma for_loop_invariant {S} (P : S → Prop) fuel init cond inc
    (body : Z → S → option S) st st' :
  (∀ i st st', P st → body i st = Some st' → P st') →
  P st → for_loop fuel init cond inc body st = Some st' → P st'.
Proof.
  intros Hbody. revert init st.
  induction fuel as [|fuel IH]; intros init st HP; simpl.
  - destruct (cond init); [done|]. by intros [= <-].
  - destruct (cond init); [|by intros [= <-]].
    destruct (body init st) as [st1|] eqn:Hb; [|done]. simpl.
    apply IH. by eapply Hbody.
Qed.

Lemma store_frame h p i v h' q :
  q ≠ p → store h p i v = Some h' → deref h' q = deref h q.
Proof.
  intros Hq. unfold store. case_decide; [|done]. intros [= <-].
  by rewrite deref_assign_ne.
Qed.

Lemma update_point_frame next prev vel dt gid gid_r gid_l gid_d gid_u h h' q :
  q ≠ next →
  update_point next prev vel dt gid gid_r gid_l gid_d gid_u h = Some h' →
  deref h' q = deref h q.
Proof.
  intros Hq. unfold update_point. intros Hu.
  repeat (match type of Hu with
          | (?x ≫= _) = Some _ =>
              destruct x; [cbn [mbind option_bind] in Hu | done]
          end).
  by eapply store_frame.
Qed.

(** [initialize] writes the three arrays it is given and no other. *)
Lemma initialize_frame ptr_prev ptr_next ptr_vel nRows nCols h h' q :
  q ≠ ptr_prev → q ≠ ptr_next → q ≠ ptr_vel →
  initialize ptr_prev ptr_next ptr_vel nRows nCols h = Some h' →
  deref h' q = deref h q.
Proof.
  intros Hp Hn Hv. unfold initialize.
  destruct (for_loop _ 0 _ _ _ h) as [h1|] eqn:H1; [|done].
  cbn [mbind option_bind]. intros H2.
  assert (Hq1 : deref h1 q = deref h q).
  { revert H1. apply (for_loop_invariant (λ x, deref x q = deref h q)); [|done].
    intros i st st' Hst.
    apply (for_loop_invariant (λ x, deref x q = deref h q)); [|done].
    intros k st0 st0' Hst0 Hb.
    destruct (store st0 _ _ _) as [s1|] eqn:E1; [|done].
    cbn [mbind option_bind] in Hb.
    destruct (store s1 _ _ _) as [s2|] eqn:E2; [|done].
    cbn [mbind option_bind] in Hb.
    apply (store_frame _ _ _ _ _ q) in E1, E2, Hb; [|done..]. congruence. }
  rewrite <- Hq1. revert H2.
  apply (for_loop_invariant (λ x, deref x q = deref h1 q)); [|done].
  intros s st st' Hst.
  apply (for_loop_invariant (λ x, deref x q = deref h1 q)); [|done].
  intros i st0 st0' Hst0.
  apply (for_loop_invariant (λ x, deref x q = deref h1 q)); [|done].
  intros k st1 st1' Hst1 Hb.
  destruct (wavelet !! Z.to_nat s); [|done]. cbn [mbind option_bind] in Hb.
  apply (store_frame _ _ _ _ _ q) in Hb; [|done]. congruence.
Qed.

(** The serial driver writes the two arrays it swaps and no other. *)
Lemma iso_2dfd_iteration_cpu_frame next prev vel dt nRows nCols nIterations
    h h' q :
  q ≠ next → q ≠ prev →
  iso_2dfd_iteration_cpu next prev vel dt nRows nCols nIterations h = Some h' →
  deref h' q = deref h q.
Proof.
  intros Hn Hp. unfold iso_2dfd_iteration_cpu.
  destruct (for_loop _ 0 _ _ _ _) as [st|] eqn:Hloop; [|done].
  cbn [mbind option_bind]. intros [= <-]. revert Hloop.
  apply (for_loop_invariant
           (λ st : ptr * ptr * heap,
              (st.1.1 = next ∨ st.1.1 = prev) ∧
              (st.1.2 = next ∨ st.1.2 = prev) ∧ deref st.2 q = deref h q));
    [|by split_and!; [left|right|]].
  intros k [[n p] hk] st' (Hptr & Hptr' & Hq). simpl in Hptr, Hptr', Hq.
  destruct (for_loop _ 1 _ _ _ hk) as [hk'|] eqn:Hnest; [|done].
  cbn [mbind option_bind]. intros [= <-]. simpl.
  split_and!; [done..|].
  - rewrite <- Hq. revert Hnest.
    apply (for_loop_invariant (λ x, deref x q = deref hk q)); [|done].
    intros i st0 st0' Hst0.
    apply (for_loop_invariant (λ x, deref x q = deref hk q)); [|done].
    intros j st1 st1' Hst1 Hb. cbv zeta in Hb.
    apply (update_point_frame _ _ _ _ _ _ _ _ _ _ _ q) in Hb; [congruence|].
    destruct Hptr; congruence.
Qed.
End Frame.

(** ** C8: the exit status *)

(** C8, as stated, fails: [4abc] is not a number, yet [std::stoi] reads it
    as 4 and the program runs as it does for [4 4 1]: it does not print
    the usage message, and it exits with code 0. *)
Lemma non_numeric_argument_accepted :
  ∃ out : @outcome IEEE.arith,
    main StdLib.stoi Sample.row_major ["iso2dfd"; "4abc"; "4"; "1"]%string
    = Some out ∧
    main StdLib.stoi Sample.row_major ["iso2dfd"; "4"; "4"; "1"]%string
    = Some out ∧
    exit_code out = 0 ∧
    (Text " Incorrect parameters " ∉ stdout out) ∧
    (Text "Final wavefields from device and CPU are equivalent: Success"
     ∈ stdout out).
Proof.
  eexists. split; [run|]. split; [run_eq|].
  cbn [exit_code stdout]. split; [reflexivity|]. split.
  - intros Hin. repeat (apply elem_of_cons in Hin as [Heq|Hin];
      [discriminate Heq|]). by apply elem_of_nil in Hin.
  - repeat constructor.
Qed.

(** C8, amended.  Whatever [std::stoi] accepts and whatever the dispatch
    order: when one of the three arguments is missing or makes [std::stoi]
    throw, the program prints the usage message (the five lines below, with
    the name the program was started under) and nothing else, exits with
    code 1 and writes no file; and when the three arguments are read and
    the run completes, the exit code is 0 if the validator, run on
    [next_base] and [next_cpu] as they are written to the two output files,
    reports [error = false], and 1 if it reports [error = true]; the
    verdict printed agrees with it, and the first line of the usage message
    is not printed. *)
Theorem exit_status `{A : Arith} (stoi : string → option Z)
    (sched : Z → Z → Z → list (Z * Z)) (argv : list string)
    (programName : string) (args : list string) :
  argv = programName :: args →
  ((stoi_arg stoi argv 1 = None ∨ stoi_arg stoi argv 2 = None ∨
    stoi_arg stoi argv 3 = None) →
   main stoi sched argv
   = Some (Outcome 1
             [Text " Incorrect parameters ";
              Text (" Usage: " +:+ programName +:+ " n1 n2 Iterations ");
              Text EmptyString;
              Text " n1 n2      : Grid sizes for the stencil ";
              Text " Iterations : No. of timesteps. "]
             None None None)) ∧
  (∀ n1 n2 n3 out,
     stoi_arg stoi argv 1 = Some n1 → stoi_arg stoi argv 2 = Some n2 →
     stoi_arg stoi argv 3 = Some n3 →
     main stoi sched argv = Some out →
     ∃ h v,
       within_epsilon next_base next_cpu (u64 n1) (u64 n2) HALF_LENGTH
         (flit 0.1) h = Some v ∧
       wavefield_snapshot out = Some (deref h next_base) ∧
       wavefield_snapshot_cpu out = Some (deref h next_cpu) ∧
       error_diff out = Some (val_errFile v) ∧
       exit_code out = (if val_error v then 1 else 0) ∧
       (if val_error v
        then Text "Final wavefields from device and CPU are different: Error "
        else Text "Final wavefields from device and CPU are equivalent: Success")
       ∈ stdout out ∧
       Text " Incorrect parameters " ∉ stdout out).
Proof.
  intros ->. split.
  - intros Hbad. unfold main.
    destruct (stoi_arg stoi (programName :: args) 1) as [n1|] eqn:H1;
      [|done].
    destruct (stoi_arg stoi (programName :: args) 2) as [n2|] eqn:H2;
      [|done].
    destruct (stoi_arg stoi (programName :: args) 3) as [n3|] eqn:H3;
      [|done].
    by destruct Hbad as [?|[?|?]].
  - intros n1 n2 n3 out H1 H2 H3. unfold main. rewrite H1, H2, H3.
    cbn [mbind option_bind].
    destruct (initialize _ _ _ _ _ _) as [h1|]; [|done]. cbn [mbind option_bind].
    destruct (device_time_loop _ _ _ _ _ _ _ _ _) as [h2|]; [|done].
    cbn [mbind option_bind].
    destruct (initialize _ _ _ _ _ _) as [h3|] eqn:Hinit; [|done].
    cbn [mbind option_bind].
    destruct (iso_2dfd_iteration_cpu _ _ _ _ _ _ _ _) as [h4|] eqn:Hcpu;
      [|done].
    cbn [mbind option_bind].
    destruct (within_epsilon _ _ _ _ _ _ _) as [v|] eqn:Hv; [|done].
    cbn [mbind option_bind]. intros [= <-].
    exists h4, v. split_and!; try done.
    + simpl. f_equal.
      apply (initialize_frame _ _ _ _ _ _ _ next_base) in Hinit; [|done..].
      apply (iso_2dfd_iteration_cpu_frame _ _ _ _ _ _ _ _ _ next_base) in Hcpu;
        [|done..].
      unfold deref in Hinit, Hcpu. congruence.
    + simpl. destruct (val_error v); simpl; repeat constructor.
    + cbn [stdout]. intros Hin.
      destruct (val_error v); cbn [app] in Hin;
        repeat (apply elem_of_cons in Hin as [Heq|Hin]; [discriminate Heq|]);
        by apply elem_of_nil in Hin.
Qed.

Lemma exit_status_witness :
  main (A := IEEE.arith) StdLib.stoi Sample.row_major
    ["iso2dfd"; "ten"; "4"; "1"]%string
  = Some (Outcome 1
            [Text " Incorrect parameters ";
             Text (" Usage: " +:+ "iso2dfd" +:+ " n1 n2 Iterations ");
             Text EmptyString;
             Text " n1 n2      : Grid sizes for the stencil ";
             Text " Iterations : No. of timesteps. "]
            None None None) ∧
  ∃ out h v,
    main (A := IEEE.arith) StdLib.stoi Sample.row_major
      ["iso2dfd"; "4"; "4"; "3"]%string = Some out ∧
    within_epsilon next_base next_cpu (u64 4) (u64 4) HALF_LENGTH
      (flit 0.1) h = Some v ∧
    wavefield_snapshot out = Some (deref h next_base) ∧
    wavefield_snapshot_cpu out = Some (deref h next_cpu) ∧
    error_diff out = Some (val_errFile v) ∧
    exit_code out = (if val_error v then 1 else 0) ∧
    (if val_error v
     then Text "Final wavefields from device and CPU are different: Error "
     else Text "Final wavefields from device and CPU are equivalent: Success")
    ∈ stdout out ∧
    Text " Incorrect parameters " ∉ stdout out.
Proof.
  split.
  - apply (exit_status (A := IEEE.arith) StdLib.stoi Sample.row_major
             ["iso2dfd"; "ten"; "4"; "1"]%string "iso2dfd"
             ["ten"; "4"; "1"]%string eq_refl).
    left. reflexivity.
  - assert (∃ out, main (A := IEEE.arith) StdLib.stoi Sample.row_major
                       ["iso2dfd"; "4"; "4"; "3"]%string = Some out)
      as [out Hm] by (eexists; run).
    destruct (proj2 (exit_status (A := IEEE.arith) StdLib.stoi
                       Sample.row_major ["iso2dfd"; "4"; "4"; "3"]%string
                       "iso2dfd" ["4"; "4"; "3"]%string eq_refl)
                4 4 3 out eq_refl eq_refl eq_refl Hm) as (h & v & Hv).
    exists out, h, v. split; [exact Hm | exact Hv].
Defined.

(** ** The whole program *)

(** [main] on three arguments that [std::stoi] reads as the sizes of a grid
    whose cell count fits the [int] index of the serial driver and as an
    iteration count that is not negative: the program completes, the device
    run and the serial run leave the same field in [next_base] and
    [next_cpu], the validator has nothing to report and the exit code is
    0. *)
Lemma main_validates `{A : Arith} (stoi : string → option Z)
    (sched : Z → Z → Z → list (Z * Z)) (prog a1 a2 a3 : string)
    (n1 n2 n3 : Z) :
  stoi a1 = Some n1 → stoi a2 = Some n2 → stoi a3 = Some n3 →
  grid_ok n1 n2 → 0 ≤ n3 < 2 ^ 31 →
  (∀ k, sched k n1 n2 ≡ₚ global_range n1 n2) →
  (∀ x, fgt (fabsf (fsub x x)) (flit 0.1) = false) →
  ∃ out,
    main stoi sched [prog; a1; a2; a3] = Some out ∧
    exit_code out = 0 ∧
    error_diff out = Some [] ∧
    wavefield_snapshot out = wavefield_snapshot_cpu out.
Proof.
  intros H1 H2 H3 Hgrid Hn Hsched Hlaw.
  destruct (grid_ok_bounds _ _ Hgrid) as [HR HC].
  pose proof Hgrid as (HR1 & HC1 & Hsz). unfold INT_MAX in *.
  assert (HR' : 0 ≤ n1 ≤ INT_MAX) by (unfold INT_MAX; lia).
  assert (HC' : 0 ≤ n2 ≤ INT_MAX) by (unfold INT_MAX; lia).
  unfold main, stoi_arg. simpl. rewrite H1, H2, H3. simpl.
  rewrite !(u64_small n1), !(u64_small n2), !(u32_small n3) by lia.
  rewrite (u64_small (n1 * n2)) by lia.
  rewrite !s32_small by lia.
  set (dt := fdiv (fmul DT DT) (fmul DXY DXY)).
  set (h0 := Heap _ _ _ _).
  assert (Hlen0 : ∀ q, is_grid n1 n2 (deref h0 q)).
  { intros q. unfold is_grid, h0, new_float.
    destruct q; simpl; rewrite length_replicate; lia. }
  (* the first initialization *)
  rewrite (initialize_spec prev_base next_base vel_base n1 n2
             ltac:(done) ltac:(done) ltac:(done) HR' HC' h0) by apply Hlen0.
  cbn [mbind option_bind].
  set (P := initial_prev n1 n2).
  set (Zr := replicate (Z.to_nat (n1 * n2)) (flit 0.0)).
  set (V := replicate (Z.to_nat (n1 * n2)) (fmul (flit 1500.0) (flit 1500.0))).
  assert (HP : is_grid n1 n2 P).
  { unfold is_grid, P, initial_prev.
    rewrite length_wavelet_fill, length_replicate. lia. }
  assert (HZ : is_grid n1 n2 Zr).
  { unfold is_grid, Zr. rewrite length_replicate. lia. }
  assert (HV : is_grid n1 n2 V).
  { unfold is_grid, V. rewrite length_replicate. lia. }
  set (h1 := assign (assign (assign h0 prev_base P) next_base Zr) vel_base V).
  assert (Hh1 : heap_ok n1 n2 next_base prev_base vel_base h1).
  { unfold heap_ok, h1. simpl. done. }
  (* the device run *)
  rewrite (device_time_loop_spec n1 n2 dt next_base prev_base vel_base Hgrid
             ltac:(done) ltac:(done) ltac:(done)) by (done || lia).
  cbn [mbind option_bind].
  set (h2 := after_steps n1 n2 dt next_base prev_base vel_base (Z.to_nat n3) h1).
  assert (Hh2 : heap_ok n1 n2 next_base prev_base vel_base h2)
    by (by apply heap_ok_after_steps).
  destruct (deref_after_steps n1 n2 dt next_base prev_base vel_base
              ltac:(done) ltac:(done) ltac:(done) (Z.to_nat n3) h1)
    as (Hd2n & _ & _).
  fold h2 in Hd2n. cbv zeta in Hd2n.
  assert (Hd2c : deref h2 next_cpu = deref h0 next_cpu).
  { unfold h2. by rewrite deref_after_steps_other. }
  (* the second initialization *)
  rewrite (initialize_spec prev_base next_cpu vel_base n1 n2
             ltac:(done) ltac:(done) ltac:(done) HR' HC' h2);
    [|apply Hh2|rewrite Hd2c; apply Hlen0|apply Hh2].
  cbn [mbind option_bind]. fold P Zr V.
  set (h3 := assign (assign (assign h2 prev_base P) next_cpu Zr) vel_base V).
  assert (Hh3 : heap_ok n1 n2 next_cpu prev_base vel_base h3).
  { unfold heap_ok, h3. simpl. done. }
  (* the serial run *)
  rewrite (iso_2dfd_iteration_cpu_spec n1 n2 dt next_cpu prev_base vel_base
             Hgrid ltac:(done) ltac:(done) ltac:(done)) by done.
  cbn [mbind option_bind]. rewrite (u32_small n3) by lia.
  set (h4 := after_steps n1 n2 dt next_cpu prev_base vel_base (Z.to_nat n3) h3).
  destruct (deref_after_steps n1 n2 dt next_cpu prev_base vel_base
              ltac:(done) ltac:(done) ltac:(done) (Z.to_nat n3) h3)
    as (Hd4c & _ & _).
  fold h4 in Hd4c. cbv zeta in Hd4c.
  assert (Hd4n : deref h4 next_base = deref h2 next_base).
  { unfold h4. by rewrite deref_after_steps_other. }
  assert (Hsame : deref h4 next_base = deref h4 next_cpu).
  { rewrite Hd4n, Hd2n, Hd4c. done. }
  (* the validator *)
  assert (Hlen4 : is_grid n1 n2 (deref h4 next_base)).
  { rewrite Hd4n. apply Hh2. }
  unfold is_grid in Hlen4.
  rewrite within_epsilon_spec;
    [|lia|lia|unfold HALF_LENGTH; lia|lia|rewrite <- Hsame; lia].
  cbv zeta. rewrite <- Hsame. cbn [mbind option_bind].
  destruct (we_prefix_equal (deref h4 next_base) n1 n2 HALF_LENGTH (flit 0.1)
              (Z.to_nat (n1 * n2)) Hlaw) as [He Hf].
  eexists. split; [done|].
  cbn [exit_code error_diff wavefield_snapshot wavefield_snapshot_cpu
       val_error val_errFile].
  rewrite He, Hf.
  split; [done|]. split; [done|].
  change (Some (deref h2 next_base) = Some (deref h4 next_cpu)).
  by rewrite <- Hsame, Hd4n.
Qed.

(** * Further properties *)

(** ** The initial field *)

Section Rings.
Context {A : Arith}.
Context (nRows nCols : Z).
Context (HR : 0 ≤ nRows) (HC : 0 ≤ nCols).

Lemma wavelet_square_ring s i k :
  0 ≤ s →
  (i, k) ∈ wavelet_square nRows nCols s ↔
  s ≤ nRows `div` 2 ∧ s ≤ nCols `div` 2 ∧ ring nRows nCols i k ≤ s.
Proof.
  intros Hs. unfold wavelet_square.
  rewrite elem_of_pairs, !elem_of_wavelet_span by lia. simpl.
  unfold ring, ring_axis. repeat case_decide; lia.
Qed.

Lemma cell_initial_prev i k :
  0 ≤ i < nRows → 0 ≤ k < nCols →
  cell (initial_prev nRows nCols) (i * nCols + k)
  = let s := ring nRows nCols i k in
    if decide (s ≤ 11 ∧ s ≤ nRows `div` 2 ∧ s ≤ nCols `div` 2)
    then wavelet !!! Z.to_nat s else flit 0.0.
Proof.
  intros Hi Hk.
  destruct (in_range_index nRows nCols (i, k)) as [HnC Hg]; [done|].
  simpl in Hg.
  unfold initial_prev, wavelet_fill. cbn [foldl].
  rewrite !cell_fill_cells
    by (rewrite ?length_fill_cells, length_replicate; lia).
  pose proof (coords_gid nCols (i, k)) as Hc. simpl in Hc.
  rewrite Hc by lia. clear Hc.
  assert (Hzero : cell (replicate (Z.to_nat (nRows * nCols)) (flit 0.0))
                    (i * nCols + k) = flit 0.0).
  { unfold cell. rewrite list_lookup_total_alt, lookup_replicate_2; [done|lia]. }
  rewrite Hzero. cbv zeta. clear Hzero.
  assert (Hr : 1 ≤ ring nRows nCols i k).
  { unfold ring, ring_axis. repeat case_decide; lia. }
  assert (Hsq : ∀ s, 0 ≤ s →
            bool_decide ((i, k) ∈ wavelet_square nRows nCols s)
            = bool_decide (s ≤ nRows `div` 2 ∧ s ≤ nCols `div` 2 ∧
                           ring nRows nCols i k ≤ s)).
  { intros s Hs. apply bool_decide_ext. by apply wavelet_square_ring. }
  rewrite !Hsq by lia. clear Hsq.
  generalize dependent (ring nRows nCols i k). intros r Hr.
  generalize (nRows `div` 2) (nCols `div` 2). intros hr hc.
  clear -Hr. generalize (@wavelet A). intros w.
  destruct (decide (r ≤ 11 ∧ r ≤ hr ∧ r ≤ hc)) as [Hd|Hd].
  - assert (Hc : r = 1 ∨ r = 2 ∨ r = 3 ∨ r = 4 ∨ r = 5 ∨ r = 6 ∨ r = 7 ∨
                 r = 8 ∨ r = 9 ∨ r = 10 ∨ r = 11) by lia.
    repeat destruct Hc as [->|Hc]; [..|subst r];
      repeat (first [rewrite bool_decide_true by lia
                    | rewrite bool_decide_false by lia]); reflexivity.
  - repeat (rewrite bool_decide_false by lia). reflexivity.
Qed.
End Rings.

(** X1.  The wavelet loops of [initialize] leave concentric square rings: the
    cell [(i, k)] of [prev] holds [wavelet[s]] for its ring [s], when the
    ring is at most 11 and fits the grid ([s <= nRows/2] and
    [s <= nCols/2]), and 0.0 otherwise.  [wavelet[0]] is stored nowhere. *)
Theorem initialize_rings `{A : Arith} (ptr_prev ptr_next ptr_vel : ptr)
    (nRows nCols : Z) (h : heap) :
  ptr_prev ≠ ptr_next → ptr_prev ≠ ptr_vel → ptr_next ≠ ptr_vel →
  0 ≤ nRows ≤ INT_MAX → 0 ≤ nCols ≤ INT_MAX →
  is_grid nRows nCols (deref h ptr_prev) →
  is_grid nRows nCols (deref h ptr_next) →
  is_grid nRows nCols (deref h ptr_vel) →
  ∃ h',
    initialize ptr_prev ptr_next ptr_vel nRows nCols h = Some h' ∧
    ∀ i k, 0 ≤ i < nRows → 0 ≤ k < nCols →
      cell (deref h' ptr_prev) (i * nCols + k)
      = let s := ring nRows nCols i k in
        if decide (s ≤ 11 ∧ s ≤ nRows `div` 2 ∧ s ≤ nCols `div` 2)
        then wavelet !!! Z.to_nat s else flit 0.0.
Proof.
  intros Hpn Hpv Hnv HR HC Hl1 Hl2 Hl3.
  eexists. split; [by apply initialize_spec|].
  rewrite !deref_assign_ne, deref_assign_eq by done.
  intros i k Hi Hk. apply cell_initial_prev; lia.
Qed.

Lemma initialize_rings_witness :
  let h : @heap IEEE.arith :=
    Heap (new_float 100) (new_float 100) (new_float 100) (new_float 100) in
  ∃ h',
    initialize prev_base next_base vel_base 10 10 h = Some h' ∧
    ∀ i k, 0 ≤ i < 10 → 0 ≤ k < 10 →
      cell (deref h' prev_base) (i * 10 + k)
      = let s := ring 10 10 i k in
        if decide (s ≤ 11 ∧ s ≤ 10 `div` 2 ∧ s ≤ 10 `div` 2)
        then wavelet !!! Z.to_nat s else flit 0.0.
Proof.
  apply (initialize_rings (A := IEEE.arith)).
  - discriminate.
  - discriminate.
  - discriminate.
  - unfold INT_MAX. lia.
  - unfold INT_MAX. lia.
  - reflexivity.
  - reflexivity.
  - reflexivity.
Defined.

(** X2.  [initialize] overwrites the three arrays it is given and nothing else:
    [next] is all 0.0, [vel] is all [1500.0f * 1500.0f], every other array is
    as it was, and what the three arrays held before has no influence on
    the result. *)
Theorem initialize_overwrites `{A : Arith} (ptr_prev ptr_next ptr_vel : ptr)
    (nRows nCols : Z) (h : heap) :
  ptr_prev ≠ ptr_next → ptr_prev ≠ ptr_vel → ptr_next ≠ ptr_vel →
  0 ≤ nRows ≤ INT_MAX → 0 ≤ nCols ≤ INT_MAX →
  is_grid nRows nCols (deref h ptr_prev) →
  is_grid nRows nCols (deref h ptr_next) →
  is_grid nRows nCols (deref h ptr_vel) →
  ∃ r,
    initialize ptr_prev ptr_next ptr_vel nRows nCols h = Some r ∧
    deref r ptr_next = replicate (Z.to_nat (nRows * nCols)) (flit 0.0) ∧
    deref r ptr_vel
    = replicate (Z.to_nat (nRows * nCols)) (fmul (flit 1500.0) (flit 1500.0)) ∧
    (∀ q, q ≠ ptr_prev → q ≠ ptr_next → q ≠ ptr_vel →
          deref r q = deref h q) ∧
    ∀ h2,
      is_grid nRows nCols (deref h2 ptr_prev) →
      is_grid nRows nCols (deref h2 ptr_next) →
      is_grid nRows nCols (deref h2 ptr_vel) →
      ∃ r2,
        initialize ptr_prev ptr_next ptr_vel nRows nCols h2 = Some r2 ∧
        deref r2 ptr_prev = deref r ptr_prev ∧
        deref r2 ptr_next = deref r ptr_next ∧
        deref r2 ptr_vel = deref r ptr_vel.
Proof.
  intros Hpn Hpv Hnv HR HC Hl1 Hl2 Hl3.
  eexists. split; [by apply initialize_spec|]. split_and!.
  - by rewrite deref_assign_ne, deref_assign_eq by done.
  - by rewrite deref_assign_eq.
  - intros q ? ? ?. by rewrite !deref_assign_ne by done.
  - intros h2 H1 H2 H3.
    eexists. split; [by apply initialize_spec|].
    rewrite !deref_assign_eq.
    rewrite !(deref_assign_ne _ ptr_vel ptr_next) by done.
    rewrite !(deref_assign_ne _ ptr_vel ptr_prev) by done.
    rewrite !deref_assign_eq.
    rewrite !(deref_assign_ne _ ptr_next ptr_prev) by done.
    by rewrite !deref_assign_eq.
Qed.

Lemma initialize_overwrites_witness :
  let h : @heap IEEE.arith :=
    Heap (flit <$> [1; 2; 3; 4; 5; 6]%Q) (flit <$> [6; 5; 4; 3; 2; 1]%Q)
         [flit 7] (replicate 6 (flit 8)) in
  ∃ r,
    initialize prev_base next_base vel_base 2 3 h = Some r ∧
    deref r next_base = replicate (Z.to_nat (2 * 3)) (flit 0.0) ∧
    deref r vel_base
    = replicate (Z.to_nat (2 * 3)) (fmul (flit 1500.0) (flit 1500.0)) ∧
    (∀ q, q ≠ prev_base → q ≠ next_base → q ≠ vel_base →
          deref r q = deref h q) ∧
    ∀ h2,
      is_grid 2 3 (deref h2 prev_base) →
      is_grid 2 3 (deref h2 next_base) →
      is_grid 2 3 (deref h2 vel_base) →
      ∃ r2,
        initialize prev_base next_base vel_base 2 3 h2 = Some r2 ∧
        deref r2 prev_base = deref r prev_base ∧
        deref r2 next_base = deref r next_base ∧
        deref r2 vel_base = deref r vel_base.
Proof.
  apply (initialize_overwrites (A := IEEE.arith)).
  - discriminate.
  - discriminate.
  - discriminate.
  - unfold INT_MAX. lia.
  - unfold INT_MAX. lia.
  - reflexivity.
  - reflexivity.
  - reflexivity.
Defined.

Section ValidatorReport.
Context {A : Arith}.
Context (out ref : list F) (dimx dimy radius : Z) (delta : F).

Let cmp (p : Z) : Prop :=
  compared dimx dimy radius (p `mod` dimx) (p `div` dimx).
Let big (p : Z) : Prop := fgt (difference_at out ref p) delta = true.

Lemma we_prefix_report (n : nat) :
  let ps := filter cmp (seqZ 0 (Z.of_nat n)) in
  we_prefix out ref dimx dimy radius delta n
  = WE (bool_decide (filter big ps ≠ [])) (norm2_of out ref ps)
       (diag_at out ref dimx <$> filter big ps) (Z.of_nat n) (Z.of_nat n).
Proof.
  induction n as [|n IH]; [done|].
  change (we_prefix _ _ _ _ _ _ (S n))
    with (we_step out ref dimx dimy radius delta
            (we_prefix out ref dimx dimy radius delta n)).
  rewrite IH. clear IH. cbv zeta.
  rewrite seqZ_S, Z.add_0_l, filter_app.
  set (ps := filter cmp (seqZ 0 (Z.of_nat n))).
  unfold we_step. cbn [we_output we_error we_norm2 we_errFile].
  rewrite filter_cons, filter_nil. fold (cmp (Z.of_nat n)).
  destruct (decide (cmp (Z.of_nat n))) as [Hc|Hc].
  - rewrite bool_decide_true by done.
    rewrite filter_app, filter_cons, filter_nil.
    fold (difference_at out ref (Z.of_nat n)).
    unfold norm2_of at 2. rewrite foldl_app. cbn [foldl].
    fold (norm2_of out ref ps). fold (diag_at out ref dimx (Z.of_nat n)).
    rewrite fmap_app.
    destruct (decide (big (Z.of_nat n))) as [Hb|Hb].
    + unfold big in Hb. rewrite Hb, orb_true_r. f_equal; [|lia..].
      symmetry. apply bool_decide_eq_true_2. by destruct (filter big ps).
    + unfold big in Hb. apply not_true_is_false in Hb.
      rewrite Hb, orb_false_r, !app_nil_r. f_equal; lia.
  - rewrite bool_decide_false by done. rewrite !app_nil_r. f_equal; lia.
Qed.
End ValidatorReport.

(** ** The report of the validator *)

(** X3.  What the validator returns, when the two arrays hold at least
    [dimx * dimy] cells: the diagnostics are the lines for the compared
    cells whose difference exceeds [delta], in the order of their offsets;
    [error] is true when there is such a cell and false otherwise; the norm
    is the square root of the sum, taken in the order of the offsets, of
    the squares of the differences at the compared cells.  The compared
    cells are those at the offsets [p] with [radius <= p mod dimx <
    dimx - radius] and [radius <= p / dimx < dimy - radius]. *)
Theorem validator_report `{A : Arith} (output reference : ptr)
    (dimx dimy radius : Z) (delta : F) (h : heap) :
  0 ≤ dimx < 2 ^ 63 → 0 ≤ dimy < 2 ^ 63 → 0 ≤ radius < 2 ^ 32 →
  dimx * dimy ≤ Z.of_nat (length (deref h output)) →
  dimx * dimy ≤ Z.of_nat (length (deref h reference)) →
  let out := deref h output in
  let ref := deref h reference in
  let reported :=
    filter (λ p, fgt (difference_at out ref p) delta = true)
           (compared_offsets dimx dimy radius) in
  within_epsilon output reference dimx dimy radius delta h
  = Some (Validation (bool_decide (reported ≠ []))
            (dsqrt (norm2_of out ref (compared_offsets dimx dimy radius)))
            (diag_at out ref dimx <$> reported)) ∧
  ∀ p, p ∈ compared_offsets dimx dimy radius ↔
       0 ≤ p < dimx * dimy ∧
       radius ≤ p `mod` dimx < dimx - radius ∧
       radius ≤ p `div` dimx < dimy - radius.
Proof.
  intros Hx Hy Hrad Hout Href out ref reported. split.
  - rewrite within_epsilon_spec by done. cbv zeta.
    rewrite we_prefix_report. cbv zeta.
    rewrite Z2Nat.id by lia. done.
  - intros p. unfold compared_offsets, compared.
    rewrite list_elem_of_filter, elem_of_seqZ. lia.
Qed.

Lemma validator_report_witness :
  let h : @heap IEEE.arith :=
    Heap [] (flit <$> [0; 0; 0; 0; 1; 0; 0; 0; 0; 0; 0; 0]%Q)
         (replicate 12 (flit 0)) [] in
  let out := deref h next_base in
  let ref := deref h next_cpu in
  let reported :=
    filter (λ p, fgt (difference_at out ref p) (flit 0.1) = true)
           (compared_offsets 3 4 1) in
  within_epsilon next_base next_cpu 3 4 1 (flit 0.1) h
  = Some (Validation (bool_decide (reported ≠ []))
            (dsqrt (norm2_of out ref (compared_offsets 3 4 1)))
            (diag_at out ref 3 <$> reported)) ∧
  ∀ p, p ∈ compared_offsets 3 4 1 ↔
       0 ≤ p < 3 * 4 ∧
       1 ≤ p `mod` 3 < 3 - 1 ∧
       1 ≤ p `div` 3 < 4 - 1.
Proof.
  apply (validator_report (A := IEEE.arith) next_base next_cpu 3 4 1).
  - lia.
  - lia.
  - lia.
  - simpl. lia.
  - simpl. lia.
Defined.

(** X4.  When [dimx <= 2 * radius] or [dimy <= 2 * radius] the grid has no
    interior: the validator compares nothing and returns [error = false],
    a zero norm and no diagnostic, whatever the two arrays hold. *)
Theorem validator_no_interior `{A : Arith} (output reference : ptr)
    (dimx dimy radius : Z) (delta : F) (h : heap) :
  0 ≤ dimx < 2 ^ 63 → 0 ≤ dimy < 2 ^ 63 → 0 ≤ radius < 2 ^ 32 →
  dimx * dimy ≤ Z.of_nat (length (deref h output)) →
  dimx * dimy ≤ Z.of_nat (length (deref h reference)) →
  dimx ≤ 2 * radius ∨ dimy ≤ 2 * radius →
  within_epsilon output reference dimx dimy radius delta h
  = Some (Validation false (dsqrt (dlit 0)) []).
Proof.
  intros Hx Hy Hrad Hout Href Hsmall.
  rewrite within_epsilon_spec by done. cbv zeta.
  rewrite we_prefix_report. cbv zeta.
  assert (filter
            (λ p, compared dimx dimy radius (p `mod` dimx) (p `div` dimx))
            (seqZ 0 (Z.of_nat (Z.to_nat (dimx * dimy)))) = []) as ->.
  { apply elem_of_nil_inv. intros p [Hp _]%list_elem_of_filter.
    unfold compared in Hp. lia. }
  done.
Qed.

Lemma validator_no_interior_witness :
  let h : @heap IEEE.arith :=
    Heap [] (flit <$> [1; 2; 3; 4; 5; 6]%Q) (replicate 6 (flit 0)) [] in
  within_epsilon next_base next_cpu 2 3 1 (flit 0.1) h
  = Some (Validation false (dsqrt (dlit 0)) []).
Proof.
  apply (validator_no_interior (A := IEEE.arith) next_base next_cpu 2 3 1).
  - lia.
  - lia.
  - lia.
  - simpl. lia.
  - simpl. lia.
  - left. lia.
Defined.

Section ReportExt.
Context {A : Arith}.
Context (out ref out' ref' : list F) (dimx : Z) (delta : F).

Lemma report_ext (ps : list Z) :
  (∀ p, p ∈ ps → cell out p = cell out' p ∧ cell ref p = cell ref' p) →
  filter (λ p, fgt (difference_at out ref p) delta = true) ps
  = filter (λ p, fgt (difference_at out' ref' p) delta = true) ps ∧
  norm2_of out ref ps = norm2_of out' ref' ps ∧
  diag_at out ref dimx
    <$> filter (λ p, fgt (difference_at out ref p) delta = true) ps
  = diag_at out' ref' dimx
    <$> filter (λ p, fgt (difference_at out' ref' p) delta = true) ps.
Proof.
  intros Heq.
  assert (Hd : ∀ p, p ∈ ps → difference_at out ref p = difference_at out' ref' p).
  { intros p Hp. unfold difference_at. by destruct (Heq p Hp) as [-> ->]. }
  split_and!.
  - clear Heq. induction ps as [|p ps IH]; [done|].
    rewrite !filter_cons, (Hd p) by left.
    rewrite IH by (intros; apply Hd; by right). done.
  - unfold norm2_of. generalize (dlit 0). clear Heq.
    induction ps as [|p ps IH]; intros acc; [done|].
    cbn [foldl]. rewrite (Hd p) by left.
    apply IH. intros. apply Hd. by right.
  - induction ps as [|p ps IH]; [done|].
    rewrite !filter_cons, (Hd p) by left.
    assert (Hps : ∀ q, q ∈ ps →
              cell out q = cell out' q ∧ cell ref q = cell ref' q)
      by (intros; apply Heq; by right).
    assert (Hds : ∀ q, q ∈ ps →
              difference_at out ref q = difference_at out' ref' q)
      by (intros; apply Hd; by right).
    specialize (IH Hps Hds).
    case_decide; [|done]. rewrite !fmap_cons, IH. f_equal.
    unfold diag_at. rewrite (Hd p) by left.
    by destruct (Heq p ltac:(left)) as [-> ->].
Qed.
End ReportExt.

(** X5.  The validator reads the cells it compares and no other: two pairs of
    arrays that agree on the compared cells get the same verdict, the same
    norm and the same diagnostics. *)
Theorem validator_reads_compared_only `{A : Arith} (output reference : ptr)
    (dimx dimy radius : Z) (delta : F) (h h2 : heap) :
  0 ≤ dimx < 2 ^ 63 → 0 ≤ dimy < 2 ^ 63 → 0 ≤ radius < 2 ^ 32 →
  dimx * dimy ≤ Z.of_nat (length (deref h output)) →
  dimx * dimy ≤ Z.of_nat (length (deref h reference)) →
  dimx * dimy ≤ Z.of_nat (length (deref h2 output)) →
  dimx * dimy ≤ Z.of_nat (length (deref h2 reference)) →
  (∀ ix iy,
     radius ≤ ix < dimx - radius → radius ≤ iy < dimy - radius →
     cell (deref h output) (iy * dimx + ix)
     = cell (deref h2 output) (iy * dimx + ix) ∧
     cell (deref h reference) (iy * dimx + ix)
     = cell (deref h2 reference) (iy * dimx + ix)) →
  within_epsilon output reference dimx dimy radius delta h
  = within_epsilon output reference dimx dimy radius delta h2 ∧
  is_Some (within_epsilon output reference dimx dimy radius delta h).
Proof.
  intros Hx Hy Hrad Ho Hr Ho2 Hr2 Heq.
  rewrite !within_epsilon_spec by done. cbv zeta.
  rewrite !we_prefix_report. cbv zeta.
  split; [|done].
  destruct (report_ext (deref h output) (deref h reference)
              (deref h2 output) (deref h2 reference) dimx delta
              (filter
                 (λ p, compared dimx dimy radius (p `mod` dimx) (p `div` dimx))
                 (seqZ 0 (Z.of_nat (Z.to_nat (dimx * dimy))))))
    as (E1 & E2 & E3).
  { intros p [Hc Hp]%list_elem_of_filter. unfold compared in Hc.
    assert (0 < dimx) by lia.
    replace p with (p `div` dimx * dimx + p `mod` dimx)
      by (pose proof (Z.div_mod p dimx); lia).
    apply Heq; lia. }
  cbn [we_error we_norm2 we_errFile]. by rewrite E3, E2, E1.
Qed.

Lemma validator_reads_compared_only_witness :
  let h : @heap IEEE.arith :=
    Heap [] (flit <$> [1; 2; 3; 4; 5; 6; 7; 8; 9]%Q)
         (replicate 9 (flit 0)) [] in
  let h2 : @heap IEEE.arith :=
    Heap [] (flit <$> [0; 0; 0; 0; 5; 0; 0; 0; 0]%Q)
         (flit <$> [9; 8; 7; 6; 0; 4; 3; 2; 1]%Q) [] in
  within_epsilon next_base next_cpu 3 3 1 (flit 0.1) h
  = within_epsilon next_base next_cpu 3 3 1 (flit 0.1) h2 ∧
  is_Some (within_epsilon next_base next_cpu 3 3 1 (flit 0.1) h).
Proof.
  apply (validator_reads_compared_only (A := IEEE.arith)).
  - lia.
  - lia.
  - lia.
  - simpl. lia.
  - simpl. lia.
  - simpl. lia.
  - simpl. lia.
  - intros ix iy Hix Hiy.
    assert (ix = 1) as -> by lia. assert (iy = 1) as -> by lia.
    split; reflexivity.
Defined.

(** ** Work-items do not interfere *)

(** X6.  The kernel instances of a set of work-items commute: run in any order,
    they leave the same heap, in which the interior cells among them hold
    the stencil of the values before the dispatch, and every other cell is
    unchanged.  No work-item reads a cell that another one writes. *)
Theorem kernel_instances_commute `{A : Arith} (l l' : list (Z * Z))
    (nRows nCols : Z) (dtDIVdxy : F) (next prev vel : ptr) (h : heap) :
  next ≠ prev → next ≠ vel →
  grid_ok nRows nCols →
  heap_ok nRows nCols next prev vel h →
  NoDup l → l ≡ₚ l' →
  (∀ it, it ∈ l → 0 ≤ it.1 < nRows ∧ 0 ≤ it.2 < nCols) →
  let kernel it :=
    iso_2dfd_iteration_global it next prev vel dtDIVdxy
      (s32 nRows) (s32 nCols) in
  let h' :=
    assign h next
      (sweep_part l nRows nCols dtDIVdxy (deref h next) (deref h prev)
         (deref h vel)) in
  parallel_for l kernel h = Some h' ∧ parallel_for l' kernel h = Some h'.
Proof.
  intros Hnp Hnv Hgrid Hh Hnd Hperm Hr kernel h'.
  assert (Hrun : ∀ l0, NoDup l0 → (∀ it, it ∈ l0 → in_range nRows nCols it) →
            parallel_for l0 kernel h
            = Some (assign h next
                      (sweep_part l0 nRows nCols dtDIVdxy (deref h next)
                         (deref h prev) (deref h vel)))).
  { intros l0 Hnd0 Hr0. unfold parallel_for.
    pose proof (fold_kernel nRows nCols dtDIVdxy next prev vel Hgrid Hnp Hnv
                  kernel l0 [] h) as Hf.
    rewrite sweep_part_nil, assign_deref, app_nil_r in Hf.
    apply Hf; try done.
    - intros it h0 Hin Hh0.
      by apply iso_2dfd_iteration_global_spec; [..|apply Hr0].
    - intros it _. apply not_elem_of_nil. }
  split.
  - by apply Hrun.
  - rewrite Hrun.
    + unfold h'. do 2 f_equal. apply sweep_part_ext.
      intros it _. by rewrite Hperm.
    + by rewrite <- Hperm.
    + intros it Hin. apply Hr. by rewrite Hperm.
Qed.

Lemma kernel_instances_commute_witness :
  let h := @Sample.heap3 IEEE.arith in
  let kernel it :=
    iso_2dfd_iteration_global it next_base prev_base vel_base
      Sample.dtDIVdxy (s32 3) (s32 3) in
  let h' :=
    assign h next_base
      (sweep_part [(1, 1); (0, 2)] 3 3 Sample.dtDIVdxy (deref h next_base)
         (deref h prev_base) (deref h vel_base)) in
  parallel_for [(1, 1); (0, 2)] kernel h = Some h' ∧
  parallel_for [(0, 2); (1, 1)] kernel h = Some h'.
Proof.
  apply (kernel_instances_commute (A := IEEE.arith)).
  - discriminate.
  - discriminate.
  - unfold grid_ok, INT_MAX. lia.
  - unfold heap_ok, is_grid. simpl. lia.
  - apply NoDup_cons. split; [|apply NoDup_singleton].
    intros Hin%list_elem_of_singleton. discriminate.
  - apply perm_swap.
  - intros it [->|[->|[]%elem_of_nil]%elem_of_cons]%elem_of_cons; simpl; lia.
Defined.

(** ** More on the two drivers *)

Section MoreSteps.
Context {A : Arith}.
Context (nRows nCols : Z) (dtDIVdxy : F).
Implicit Types (a b nx pv vl : list F).

(** Without interior points a sweep changes nothing. *)
Lemma sweep_no_interior nx pv vl :
  nRows ≤ 2 ∨ nCols ≤ 2 → sweep nRows nCols dtDIVdxy nx pv vl = nx.
Proof.
  intros Hsmall. unfold sweep. apply list_eq. intros n.
  rewrite list_lookup_imap. destruct (nx !! n); simpl; [|done].
  rewrite bool_decide_false; [done|].
  unfold interior, HALF_LENGTH, coords. simpl. lia.
Qed.

Lemma time_steps_no_interior n a b vl :
  nRows ≤ 2 ∨ nCols ≤ 2 →
  time_steps n nRows nCols dtDIVdxy a b vl = (a, b).
Proof.
  intros Hsmall. induction n as [|n IH]; [done|].
  simpl. rewrite IH. simpl. rewrite !sweep_no_interior by done.
  by destruct (Nat.even n).
Qed.

End MoreSteps.

Section MoreAfterSteps.
Context {A : Arith}.
Context (nRows nCols : Z) (dtDIVdxy : F) (next prev vel : ptr).
Context (Hnp : next ≠ prev) (Hnv : next ≠ vel) (Hpv : prev ≠ vel).

Lemma after_steps_no_interior n h :
  nRows ≤ 2 ∨ nCols ≤ 2 →
  after_steps nRows nCols dtDIVdxy next prev vel n h = h.
Proof.
  intros Hsmall. unfold after_steps. cbv zeta.
  rewrite time_steps_no_interior by done. simpl.
  by rewrite !assign_deref.
Qed.

End MoreAfterSteps.

(** X7.  On a grid with at most two rows or at most two columns there is no
    interior point: the device loop returns the heap as it found it,
    whatever the iteration count, and so does the serial driver when the
    grid has at least one row and one column. *)
Theorem drivers_no_interior `{A : Arith} (sched : Z → list (Z * Z))
    (nRows nCols nIterations : Z) (dtDIVdxy : F) (next prev vel : ptr)
    (h : heap) :
  next ≠ prev → next ≠ vel → prev ≠ vel →
  0 ≤ nRows ≤ INT_MAX → 0 ≤ nCols ≤ INT_MAX →
  nRows ≤ 2 ∨ nCols ≤ 2 →
  0 ≤ nIterations < 2 ^ 32 →
  (∀ k, 0 ≤ k < nIterations → sched k ≡ₚ global_range nRows nCols) →
  heap_ok nRows nCols next prev vel h →
  device_time_loop sched next prev vel dtDIVdxy nRows nCols nIterations h
  = Some h ∧
  (1 ≤ nRows → 1 ≤ nCols →
   iso_2dfd_iteration_cpu next prev vel dtDIVdxy
     (s32 nRows) (s32 nCols) (s32 nIterations) h = Some h).
Proof.
  intros Hnp Hnv Hpv HR HC Hsmall Hn Hsched Hh.
  split.
  - rewrite (device_time_loop_wide nRows nCols) by done.
    by rewrite after_steps_no_interior.
  - intros HR1 HC1. unfold INT_MAX in *.
    rewrite !(s32_small nRows), !(s32_small nCols) by lia.
    rewrite (iso_2dfd_iteration_cpu_wide nRows nCols);
      [|done|done|done|unfold INT_MAX; lia|unfold INT_MAX; lia|lia|done].
    by rewrite after_steps_no_interior.
Qed.

Lemma drivers_no_interior_witness :
  let h : @heap IEEE.arith :=
    Heap (flit <$> [1; 2; 3; 4; 5; 6; 7; 8]%Q)
         (flit <$> [8; 7; 6; 5; 4; 3; 2; 1]%Q) []
         (replicate 8 (flit 9)) in
  device_time_loop (λ k, Sample.backwards k 2 4) next_base prev_base vel_base
    Sample.dtDIVdxy 2 4 7 h = Some h ∧
  (1 ≤ 2 → 1 ≤ 4 →
   iso_2dfd_iteration_cpu next_base prev_base vel_base Sample.dtDIVdxy
     (s32 2) (s32 4) (s32 7) h = Some h).
Proof.
  apply (drivers_no_interior (A := IEEE.arith)).
  - discriminate.
  - discriminate.
  - discriminate.
  - unfold INT_MAX. lia.
  - unfold INT_MAX. lia.
  - left. lia.
  - lia.
  - intros k _. apply reverse_Permutation.
  - unfold heap_ok, is_grid. simpl. lia.
Defined.





(** ** The serial driver on a grid without cells *)

(** X10.  With no rows, or with no columns, the bound [nRows - HALF_LENGTH] (or
    [nCols - HALF_LENGTH]) of the serial loops is computed in [unsigned int]
    and wraps to [2^32 - 1]: the loop nest is entered, and when the other
    dimension is at least 3 its first iteration reads [prev] outside the
    array, which has no cell. *)
Theorem serial_driver_empty_grid `{A : Arith} (next prev vel : ptr)
    (dtDIVdxy : F) (nRows nCols nIterations : Z) (h : heap) :
  (nRows = 0 ∧ 3 ≤ nCols ≤ INT_MAX) ∨ (nCols = 0 ∧ 3 ≤ nRows ≤ INT_MAX) →
  1 ≤ nIterations ≤ INT_MAX →
  is_grid nRows nCols (deref h prev) →
  iso_2dfd_iteration_cpu next prev vel dtDIVdxy nRows nCols nIterations h
  = None.
Proof.
  intros Hdim Hn Hlen. unfold INT_MAX, is_grid in *.
  assert (Hnil : length (deref h prev) = 0%nat) by nia.
  unfold iso_2dfd_iteration_cpu.
  rewrite for_loop_fault; [done| |].
  { apply Z.ltb_lt. rewrite u32_small; lia. }
  apply bind_None. left.
  apply for_loop_fault.
  { apply Z.ltb_lt. unfold HALF_LENGTH.
    destruct Hdim as [[-> ?]|[? ?]].
    - by vm_compute.
    - rewrite (u32_small nRows), u32_small; lia. }
  apply for_loop_fault.
  { apply Z.ltb_lt. unfold HALF_LENGTH.
    destruct Hdim as [[? ?]|[-> ?]].
    - rewrite (u32_small nCols), u32_small; lia.
    - by vm_compute. }
  cbv zeta. unfold update_point.
  match goal with
  | |- load h prev ?i ≫= _ = _ => rewrite (load_None h prev i); [done|]
  end.
  rewrite Hnil. lia.
Qed.

Lemma serial_driver_empty_grid_witness :
  iso_2dfd_iteration_cpu (A := IEEE.arith) next_cpu prev_base vel_base
    Sample.dtDIVdxy 0 5 1 (Heap [] [] [] []) = None.
Proof.
  apply (serial_driver_empty_grid (A := IEEE.arith)).
  - left. unfold INT_MAX. lia.
  - unfold INT_MAX. lia.
  - reflexivity.
Defined.

(** ** The [int] index of the serial driver *)

(** X11.  On a grid of more than [2^31] cells the serial driver, whose index
    [gid] is an [int], faults in the first time step: in the last interior
    row the index [gid + nCols] (or [gid] itself) is beyond [INT_MAX] and
    wraps to a negative [int].  The arrays play no role. *)
Theorem serial_driver_index_overflow `{A : Arith} (next prev vel : ptr)
    (dtDIVdxy : F) (nRows nCols nIterations : Z) (h : heap) :
  3 ≤ nRows ≤ INT_MAX → 3 ≤ nCols ≤ INT_MAX →
  2 ^ 31 ≤ (nRows - 1) * nCols + 1 < 2 ^ 32 →
  1 ≤ nIterations ≤ INT_MAX →
  iso_2dfd_iteration_cpu next prev vel dtDIVdxy nRows nCols nIterations h
  = None.
Proof.
  intros HR HC Hbig Hn. unfold INT_MAX in *.
  unfold iso_2dfd_iteration_cpu.
  rewrite for_loop_fault; [done| |].
  { apply Z.ltb_lt. rewrite u32_small; lia. }
  apply bind_None. left.
  unfold HALF_LENGTH.
  rewrite (u32_small nRows), (u32_small nCols) by lia.
  rewrite (u32_small (nRows - 1)), (u32_small (nCols - 1)) by lia.
  rewrite (for_loop_up _ 1 (nRows - 1)); cycle 1.
  { intros i Hi. split; [apply Z.ltb_lt; lia | apply u32_small; lia]. }
  { apply Z.ltb_ge. lia. }
  { lia. }
  apply (fold_opt_fault _ _ (nRows - 2)).
  { apply elem_of_seqZ. lia. }
  intros st. apply for_loop_fault.
  { apply Z.ltb_lt. lia. }
  cbv zeta. unfold update_point.
  assert (Hm : 0 ≤ (nRows - 2) * nCols) by nia.
  rewrite (u32_small ((nRows - 2) * nCols)) by nia.
  rewrite (u32_small (1 + (nRows - 2) * nCols)) by nia.
  set (g := 1 + (nRows - 2) * nCols).
  assert (Hg : 0 ≤ g < 2 ^ 32 ∧ 2 ^ 31 ≤ g + nCols < 2 ^ 32) by (unfold g; nia).
  assert (Hneg : ∀ x, 2 ^ 31 ≤ x < 2 ^ 32 → s32 x < 0).
  { intros x Hx. unfold s32.
    replace (x + 2 ^ 31) with (x - 2 ^ 31 + 1 * 2 ^ 32) by lia.
    rewrite Z_mod_plus_full, Z.mod_small; lia. }
  assert (Hload : ∀ st' i, i < 0 → load st' prev i = None).
  { intros st' i Hi. apply load_None. lia. }
  destruct (decide (g < 2 ^ 31)) as [Hlt|Hge].
  - rewrite (s32_small g) by lia.
    destruct (load st prev (s32 (g + 1))); [|done].
    destruct (load st prev g); [|done].
    destruct (load st prev (s32 (g - 1))); [|done].
    cbn [mbind option_bind].
    rewrite (Hload st (s32 (g + nCols))); [done|]. apply Hneg. lia.
  - destruct (load st prev (s32 (s32 g + 1))); [|done].
    cbn [mbind option_bind].
    rewrite (Hload st (s32 g)); [done|]. apply Hneg. lia.
Qed.

Lemma serial_driver_index_overflow_witness :
  iso_2dfd_iteration_cpu (A := IEEE.arith) next_cpu prev_base vel_base
    Sample.dtDIVdxy 46342 46342 1 (Heap [] [] [] []) = None.
Proof.
  apply (serial_driver_index_overflow (A := IEEE.arith)).
  - unfold INT_MAX. lia.
  - unfold INT_MAX. lia.
  - lia.
  - unfold INT_MAX. lia.
Defined.

(** ** The whole program on a valid grid *)

Section MainOutcome.
Context {A : Arith}.
Context (stoi : string → option Z) (sched : Z → Z → Z → list (Z * Z)).

(** The field after [steps] time steps that start from the initial
    condition of [initialize]. *)
Lemma main_outcome (prog a1 a2 a3 : string) (n1 n2 n3 : Z) :
  stoi a1 = Some n1 → stoi a2 = Some n2 → stoi a3 = Some n3 →
  grid_ok n1 n2 → - 2 ^ 31 ≤ n3 < 2 ^ 31 →
  (∀ k, sched k n1 n2 ≡ₚ global_range n1 n2) →
  (∀ x, fgt (fabsf (fsub x x)) (flit 0.1) = false) →
  let field :=
    (time_steps (Z.to_nat (u32 n3)) n1 n2 (fdiv (fmul DT DT) (fmul DXY DXY))
       (replicate (Z.to_nat (n1 * n2)) (flit 0.0))
       (initial_prev n1 n2)
       (replicate (Z.to_nat (n1 * n2)) (fmul (flit 1500.0) (flit 1500.0)))).1
  in
  main stoi sched [prog; a1; a2; a3]
  = Some (Outcome 0
            [Text "Initializing ... "; GridSizes n1 n2; Iterations (u32 n3);
             Text EmptyString; Text "Computing wavefield in device ..";
             Text "Computing wavefield in CPU .."; Text "Initializing ... ";
             Text "Final wavefields from device and CPU are equivalent: Success";
             Text "Final wavefields (from device and CPU) written to disk";
             Text "Finished.  "]
            (Some field) (Some field) (Some [])).
Proof.
  intros H1 H2 H3 Hgrid Hn Hsched Hlaw.
  destruct (grid_ok_bounds _ _ Hgrid) as [HR HC].
  pose proof Hgrid as (HR1 & HC1 & Hsz). unfold INT_MAX in *.
  assert (HR' : 0 ≤ n1 ≤ INT_MAX) by (unfold INT_MAX; lia).
  assert (HC' : 0 ≤ n2 ≤ INT_MAX) by (unfold INT_MAX; lia).
  assert (HN : 0 ≤ u32 n3 < 2 ^ 32) by (apply Z.mod_pos_bound; lia).
  unfold main, stoi_arg. simpl. rewrite H1, H2, H3. simpl.
  rewrite !(u64_small n1), !(u64_small n2) by lia.
  rewrite (u64_small (n1 * n2)) by lia.
  rewrite !(s32_small n1), !(s32_small n2) by lia.
  set (N := u32 n3) in *.
  set (dt := fdiv (fmul DT DT) (fmul DXY DXY)).
  set (h0 := Heap _ _ _ _).
  assert (Hlen0 : ∀ q, is_grid n1 n2 (deref h0 q)).
  { intros q. unfold is_grid, h0, new_float.
    destruct q; simpl; rewrite length_replicate; lia. }
  (* the first initialization *)
  rewrite (initialize_spec prev_base next_base vel_base n1 n2
             ltac:(done) ltac:(done) ltac:(done) HR' HC' h0) by apply Hlen0.
  cbn [mbind option_bind].
  set (P := initial_prev n1 n2).
  set (Zr := replicate (Z.to_nat (n1 * n2)) (flit 0.0)).
  set (V := replicate (Z.to_nat (n1 * n2)) (fmul (flit 1500.0) (flit 1500.0))).
  assert (HP : is_grid n1 n2 P).
  { unfold is_grid, P, initial_prev.
    rewrite length_wavelet_fill, length_replicate. lia. }
  assert (HZ : is_grid n1 n2 Zr).
  { unfold is_grid, Zr. rewrite length_replicate. lia. }
  assert (HV : is_grid n1 n2 V).
  { unfold is_grid, V. rewrite length_replicate. lia. }
  set (h1 := assign (assign (assign h0 prev_base P) next_base Zr) vel_base V).
  assert (Hh1 : heap_ok n1 n2 next_base prev_base vel_base h1).
  { unfold heap_ok, h1. simpl. done. }
  (* the device run *)
  rewrite (device_time_loop_spec n1 n2 dt next_base prev_base vel_base Hgrid
             ltac:(done) ltac:(done) ltac:(done)) by (done || lia).
  cbn [mbind option_bind].
  set (h2 := after_steps n1 n2 dt next_base prev_base vel_base (Z.to_nat N) h1).
  assert (Hh2 : heap_ok n1 n2 next_base prev_base vel_base h2)
    by (by apply heap_ok_after_steps).
  destruct (deref_after_steps n1 n2 dt next_base prev_base vel_base
              ltac:(done) ltac:(done) ltac:(done) (Z.to_nat N) h1)
    as (Hd2n & _ & _).
  fold h2 in Hd2n. cbv zeta in Hd2n.
  assert (Hd2c : deref h2 next_cpu = deref h0 next_cpu).
  { unfold h2. by rewrite deref_after_steps_other. }
  (* the second initialization *)
  rewrite (initialize_spec prev_base next_cpu vel_base n1 n2
             ltac:(done) ltac:(done) ltac:(done) HR' HC' h2);
    [|apply Hh2|rewrite Hd2c; apply Hlen0|apply Hh2].
  cbn [mbind option_bind]. fold P Zr V.
  set (h3 := assign (assign (assign h2 prev_base P) next_cpu Zr) vel_base V).
  assert (Hh3 : heap_ok n1 n2 next_cpu prev_base vel_base h3).
  { unfold heap_ok, h3. simpl. done. }
  (* the serial run *)
  rewrite (iso_2dfd_iteration_cpu_spec n1 n2 dt next_cpu prev_base vel_base
             Hgrid ltac:(done) ltac:(done) ltac:(done)) by done.
  cbn [mbind option_bind]. rewrite u32_s32, (u32_small N) by lia.
  set (h4 := after_steps n1 n2 dt next_cpu prev_base vel_base (Z.to_nat N) h3).
  destruct (deref_after_steps n1 n2 dt next_cpu prev_base vel_base
              ltac:(done) ltac:(done) ltac:(done) (Z.to_nat N) h3)
    as (Hd4c & _ & _).
  fold h4 in Hd4c. cbv zeta in Hd4c.
  assert (Hd4n : deref h4 next_base = deref h2 next_base).
  { unfold h4. by rewrite deref_after_steps_other. }
  assert (Hsame : deref h4 next_base = deref h4 next_cpu).
  { rewrite Hd4n, Hd2n, Hd4c. done. }
  (* the validator *)
  assert (Hlen4 : is_grid n1 n2 (deref h4 next_base)).
  { rewrite Hd4n. apply Hh2. }
  unfold is_grid in Hlen4.
  rewrite within_epsilon_spec;
    [|lia|lia|unfold HALF_LENGTH; lia|lia|rewrite <- Hsame; lia].
  cbv zeta. rewrite <- Hsame. cbn [mbind option_bind].
  destruct (we_prefix_equal (deref h4 next_base) n1 n2 HALF_LENGTH (flit 0.1)
              (Z.to_nat (n1 * n2)) Hlaw) as [He Hf].
  cbn [val_error val_errFile val_norm].
  rewrite He, Hf. cbn [app].
  change (mem_next_base h2) with (deref h2 next_base).
  change (mem_next_cpu h4) with (deref h4 next_cpu).
  rewrite <- Hsame, Hd4n, Hd2n. done.
Qed.
End MainOutcome.

(** X13.  [main] on three arguments that [std::stoi] reads as the sizes of a grid
    whose cell count fits the [int] index of the serial driver and as any
    iteration count: a negative count [n3] is converted to [unsigned int]
    and the program runs [2^32 + n3] time steps.  The program completes
    with exit code 0, prints the success message, writes an empty
    [error_diff.txt] and writes to both output files the same field: the
    first buffer after the time steps that start from a zero [next], the
    rings of [initialize] as [prev] and the constant [vel]. *)
Theorem main_result `{A : Arith} (stoi : string → option Z)
    (sched : Z → Z → Z → list (Z * Z)) (prog a1 a2 a3 : string)
    (n1 n2 n3 : Z) :
  stoi a1 = Some n1 → stoi a2 = Some n2 → stoi a3 = Some n3 →
  grid_ok n1 n2 → - 2 ^ 31 ≤ n3 < 2 ^ 31 →
  (∀ k, sched k n1 n2 ≡ₚ global_range n1 n2) →
  (∀ x, fgt (fabsf (fsub x x)) (flit 0.1) = false) →
  let steps := if decide (0 ≤ n3) then n3 else 2 ^ 32 + n3 in
  let field :=
    (time_steps (Z.to_nat steps) n1 n2 (fdiv (fmul DT DT) (fmul DXY DXY))
       (replicate (Z.to_nat (n1 * n2)) (flit 0.0))
       (initial_prev n1 n2)
       (replicate (Z.to_nat (n1 * n2)) (fmul (flit 1500.0) (flit 1500.0)))).1
  in
  main stoi sched [prog; a1; a2; a3]
  = Some (Outcome 0
            [Text "Initializing ... "; GridSizes n1 n2; Iterations steps;
             Text EmptyString; Text "Computing wavefield in device ..";
             Text "Computing wavefield in CPU .."; Text "Initializing ... ";
             Text "Final wavefields from device and CPU are equivalent: Success";
             Text "Final wavefields (from device and CPU) written to disk";
             Text "Finished.  "]
            (Some field) (Some field) (Some [])).
Proof.
  intros H1 H2 H3 Hgrid Hn Hsched Hlaw steps field.
  assert (Hsteps : u32 n3 = steps).
  { unfold steps. case_decide.
    - apply u32_small. lia.
    - unfold u32. replace n3 with (2 ^ 32 + n3 + (-1) * 2 ^ 32) at 1 by lia.
      rewrite Z_mod_plus_full. apply Z.mod_small. lia. }
  rewrite (main_outcome stoi sched prog a1 a2 a3 n1 n2 n3) by done.
  cbv zeta. unfold field. by rewrite Hsteps.
Qed.

Lemma main_result_witness :
  let steps := if decide (0 ≤ 3) then 3 else 2 ^ 32 + 3 in
  let field :=
    (time_steps (A := IEEE.arith) (Z.to_nat steps) 4 4
       (fdiv (fmul DT DT) (fmul DXY DXY))
       (replicate (Z.to_nat (4 * 4)) (flit 0.0))
       (initial_prev 4 4)
       (replicate (Z.to_nat (4 * 4)) (fmul (flit 1500.0) (flit 1500.0)))).1
  in
  main (A := IEEE.arith) StdLib.stoi Sample.row_major
    ["iso2dfd"; "4"; "4"; "3"]%string
  = Some (Outcome 0
            [Text "Initializing ... "; GridSizes 4 4; Iterations steps;
             Text EmptyString; Text "Computing wavefield in device ..";
             Text "Computing wavefield in CPU .."; Text "Initializing ... ";
             Text "Final wavefields from device and CPU are equivalent: Success";
             Text "Final wavefields (from device and CPU) written to disk";
             Text "Finished.  "]
            (Some field) (Some field) (Some [])).
Proof.
  apply (main_result (A := IEEE.arith) StdLib.stoi Sample.row_major
           "iso2dfd" "4" "4" "3" 4 4 3).
  - reflexivity.
  - reflexivity.
  - reflexivity.
  - unfold grid_ok, INT_MAX. lia.
  - lia.
  - intros k. reflexivity.
  - exact IEEE_self_difference.
Defined.

(** X14.  With an even iteration count the last time step writes [prev_base],
    and the program writes to its two output files what it writes with one
    iteration less. *)
Theorem main_even_iterations `{A : Arith} (stoi : string → option Z)
    (sched : Z → Z → Z → list (Z * Z)) (prog a1 a2 a3 a3' : string)
    (n1 n2 m : Z) :
  stoi a1 = Some n1 → stoi a2 = Some n2 →
  stoi a3 = Some (2 * m + 2) → stoi a3' = Some (2 * m + 1) →
  grid_ok n1 n2 → 0 ≤ m → 2 * m + 2 < 2 ^ 31 →
  (∀ k, sched k n1 n2 ≡ₚ global_range n1 n2) →
  (∀ x, fgt (fabsf (fsub x x)) (flit 0.1) = false) →
  ∃ out out',
    main stoi sched [prog; a1; a2; a3] = Some out ∧
    main stoi sched [prog; a1; a2; a3'] = Some out' ∧
    wavefield_snapshot out = wavefield_snapshot out' ∧
    wavefield_snapshot_cpu out = wavefield_snapshot_cpu out' ∧
    is_Some (wavefield_snapshot out) ∧
    exit_code out = 0 ∧ exit_code out' = 0.
Proof.
  intros H1 H2 H3 H3' Hgrid Hm Hm' Hsched Hlaw.
  eexists _, _.
  split; [by apply (main_outcome stoi sched); try done; lia|].
  split; [by apply (main_outcome stoi sched); try done; lia|].
  cbn [wavefield_snapshot wavefield_snapshot_cpu exit_code].
  rewrite !u32_small by lia.
  replace (Z.to_nat (2 * m + 2)) with (S (Z.to_nat (2 * m + 1))) by lia.
  assert (Hodd : Nat.even (Z.to_nat (2 * m + 1)) = false).
  { replace (Z.to_nat (2 * m + 1)) with (S (2 * Z.to_nat m)) by lia.
    rewrite Nat.even_succ, <- Nat.negb_even, Nat.even_mul. done. }
  destruct (time_steps_odd_step n1 n2 (fdiv (fmul DT DT) (fmul DXY DXY))
              (Z.to_nat (2 * m + 1))
              (replicate (Z.to_nat (n1 * n2)) (flit 0.0))
              (initial_prev n1 n2)
              (replicate (Z.to_nat (n1 * n2))
                 (fmul (flit 1500.0) (flit 1500.0))) Hodd) as [-> _].
  split_and!; done.
Qed.

Lemma main_even_iterations_witness :
  ∃ out out',
    main (A := IEEE.arith) StdLib.stoi Sample.row_major
      ["iso2dfd"; "4"; "4"; "6"]%string = Some out ∧
    main (A := IEEE.arith) StdLib.stoi Sample.row_major
      ["iso2dfd"; "4"; "4"; "5"]%string = Some out' ∧
    wavefield_snapshot out = wavefield_snapshot out' ∧
    wavefield_snapshot_cpu out = wavefield_snapshot_cpu out' ∧
    is_Some (wavefield_snapshot out) ∧
    exit_code out = 0 ∧ exit_code out' = 0.
Proof.
  apply (main_even_iterations (A := IEEE.arith) StdLib.stoi Sample.row_major
           "iso2dfd" "4" "4" "6" "5" 4 4 2).
  - reflexivity.
  - reflexivity.
  - reflexivity.
  - reflexivity.
  - unfold grid_ok, INT_MAX. lia.
  - lia.
  - lia.
  - intros k. reflexivity.
  - exact IEEE_self_difference.
Defined.


